(** * EchoHelix Bridge: the pairing / token authentication service

    A shallow embedding of [elix-bridge/internal/auth/service.go] and of the
    HTTP handlers of [elix-bridge/internal/auth/handler.go], and the
    properties of the pairing-code registry, credential store, sweeper,
    persistence codec and handlers.

    Conventions of the embedding.
    - [time.Time] is an instant in [Z] (nanoseconds); [t.After u] is [u < t],
      [t.Before u] is [t < u], [t.Add d] is [t + d].  Every syntactic call of
      [time.Now()] in the source is a separate clock reading of the model and
      is passed in by the caller, so nothing is assumed about the clock unless
      a lemma says so.
    - the three Go maps are [gmap string _]; a [*Token] stored in the map and
      returned to the caller is one object, so a field update through the
      pointer is an [insert] at the same key.
    - [for k, v := range m] visits the entries in an order Go leaves open.
      [range_fold] is the loop over an explicit visiting order; it is used as
      such where the order matters ([removeOldestTokenLocked]), and the loops
      whose steps commute are written with [map_fold], which gives the same
      result for every visiting order ([range_fold_any_order]).
    - [crypto/rand], [crypto/sha256], [encoding/base64], [encoding/json] and
      the file system are the environment: random draws and I/O outcomes are
      arguments, the digest and the codecs are section variables.
    - a run-time panic is an outcome of its own, the outer [None] of an
      [option] or [Panic]: [make] panics on a negative length and above its
      allocation limit [maxAlloc], a section variable; a slice expression
      panics out of range; and a field read panics on a nil pointer, [None]
      among the credentials of a decoded document. *)

From Stdlib Require Import ZArith Ascii String.
From stdpp Require Import gmap strings list fin_maps.

Local Open Scope Z_scope.

(** ** Data model *)

(** [type PairingCode struct] *)
Record PairingCode := mkPairingCode {
  Code : string;
  pcCreatedAt : Z;
  pcExpiresAt : Z;
  pcDeviceID : string;
  Used : bool
}.

(** [type Token struct] *)
Record Token := mkToken {
  Value : string;
  DeviceID : string;
  DeviceName : string;
  CreatedAt : Z;
  ExpiresAt : Z;
  LastUsedAt : Z;
  Permissions : list string
}.

(** [type Service struct], without the mutex and the callback. *)
Record Service := mkService {
  pairingCodes : gmap string PairingCode;
  tokens : gmap string Token;
  deviceTokens : gmap string string;
  codeLength : Z;
  codeExpiry : Z;
  tokenExpiry : Z;
  maxActiveDevices : Z;
  storagePath : string
}.

(** [type ServiceConfig struct] *)
Record ServiceConfig := mkServiceConfig {
  CodeLength : Z;
  CodeExpiry : Z;
  TokenExpiry : Z;
  MaxActiveDevices : Z;
  StoragePath : string
}.

(** [type persistedState struct].  The values of [Tokens] are pointers:
    [None] is [nil], which is what a JSON null decodes to. *)
Record persistedState := mkPersistedState {
  psTokens : gmap string (option Token);
  psDeviceTokens : gmap string string;
  SavedAt : Z
}.

(** The error values of the package, the error of the random source, the
    I/O errors, and [fmt.Errorf("...: %w", err)] wrapping. *)
Inductive error :=
  | ErrInvalidCode
  | ErrCodeExpired
  | ErrCodeAlreadyUsed
  | ErrInvalidToken
  | ErrTokenExpired
  | ErrRand
  | ErrIO
  | ErrDecode
  | Errorf (msg : string) (cause : error).

Inductive result (A : Type) :=
  | Ok (a : A)
  | Err (e : error).
Arguments Ok {A} a.
Arguments Err {A} e.

#[global] Instance Token_eq_dec : EqDecision Token.
Proof. solve_decision. Defined.
#[global] Instance PairingCode_eq_dec : EqDecision PairingCode.
Proof. solve_decision. Defined.
#[global] Instance error_eq_dec : EqDecision error.
Proof. solve_decision. Defined.

(** ** Time *)

Definition After (t u : Z) : bool := u <? t.
Definition Before (t u : Z) : bool := t <? u.
Definition Add (t d : Z) : Z := t + d.

Definition Second : Z := 1000000000.
Definition Minute : Z := 60 * Second.
Definition Hour : Z := 60 * Minute.

(** ** Field updates *)

Definition set_pairingCodes (f : gmap string PairingCode → gmap string PairingCode)
    (s : Service) : Service :=
  mkService (f (pairingCodes s)) (tokens s) (deviceTokens s) (codeLength s)
    (codeExpiry s) (tokenExpiry s) (maxActiveDevices s) (storagePath s).

Definition set_tokens (f : gmap string Token → gmap string Token)
    (s : Service) : Service :=
  mkService (pairingCodes s) (f (tokens s)) (deviceTokens s) (codeLength s)
    (codeExpiry s) (tokenExpiry s) (maxActiveDevices s) (storagePath s).

Definition set_deviceTokens (f : gmap string string → gmap string string)
    (s : Service) : Service :=
  mkService (pairingCodes s) (tokens s) (f (deviceTokens s)) (codeLength s)
    (codeExpiry s) (tokenExpiry s) (maxActiveDevices s) (storagePath s).

Definition set_ExpiresAt (t : Z) (tok : Token) : Token :=
  mkToken (Value tok) (DeviceID tok) (DeviceName tok) (CreatedAt tok) t
    (LastUsedAt tok) (Permissions tok).

Definition set_LastUsedAt (t : Z) (tok : Token) : Token :=
  mkToken (Value tok) (DeviceID tok) (DeviceName tok) (CreatedAt tok)
    (ExpiresAt tok) t (Permissions tok).

Definition set_Used (dev : string) (pc : PairingCode) : PairingCode :=
  mkPairingCode (Code pc) (pcCreatedAt pc) (pcExpiresAt pc) dev true.

(** ** Credential store: validate, refresh, revoke *)

(** [func (s *Service) ValidateToken]; [now_check] is the clock reading of the
    expiry test and [now_used] the one stored as last-used time. *)
Definition ValidateToken (s : Service) (tokenValue : string)
    (now_check now_used : Z) : result Token * Service :=
  match tokens s !! tokenValue with
  | None => (Err ErrInvalidToken, s)
  | Some token =>
      if After now_check (ExpiresAt token) then
        (Err ErrTokenExpired,
         set_deviceTokens (delete (DeviceID token))
           (set_tokens (delete tokenValue) s))
      else
        let token' := set_LastUsedAt now_used token in
        (Ok token', set_tokens (insert tokenValue token') s)
  end.

(** [func (s *Service) RefreshToken] *)
Definition RefreshToken (s : Service) (tokenValue : string)
    (now_check now_expiry now_used : Z) : result Token * Service :=
  match tokens s !! tokenValue with
  | None => (Err ErrInvalidToken, s)
  | Some token =>
      if After now_check (ExpiresAt token) then
        (Err ErrTokenExpired,
         set_deviceTokens (delete (DeviceID token))
           (set_tokens (delete tokenValue) s))
      else
        let token' :=
          set_LastUsedAt now_used
            (set_ExpiresAt (Add now_expiry (tokenExpiry s)) token) in
        (Ok token', set_tokens (insert tokenValue token') s)
  end.

(** [func (s *Service) RevokeToken] *)
Definition RevokeToken (s : Service) (tokenValue : string) : bool * Service :=
  match tokens s !! tokenValue with
  | None => (false, s)
  | Some token =>
      (true,
       set_deviceTokens (delete (DeviceID token))
         (set_tokens (delete tokenValue) s))
  end.

(** [func (s *Service) RevokeDevice] *)
Definition RevokeDevice (s : Service) (deviceID : string) : bool * Service :=
  match deviceTokens s !! deviceID with
  | None => (false, s)
  | Some tokenValue =>
      (true,
       set_deviceTokens (delete deviceID)
         (set_tokens (delete tokenValue) s))
  end.

(** ** Ranging over a map

    [for k, v := range m { acc = body k v acc }], the entries being visited in
    [order], which Go leaves unspecified. *)
Definition range_fold {A B : Type} (body : string → A → B → B)
    (order : list (string * A)) (b : B) : B :=
  foldl (λ acc kv, body kv.1 kv.2 acc) b order.

(** ** The random source

    One call of [rand.Read(buf)]: [None] is the error return, [Some f] fills
    [buf[i]] with [f i] for every index of the buffer. *)
Definition draw : Type := option (nat → ascii).

Definition rand_Read (d : draw) (n : nat) : result (list ascii) :=
  match d with
  | None => Err ErrRand
  | Some f => Ok (f <$> seq 0 n)
  end.

(** How a call that loops on the random source ends: with a value, with a
    panic, or still looping when the draws it was given are used up. *)
Inductive run (A : Type) :=
  | Done (a : A)
  | Panic
  | Starved.
Arguments Done {A} a.
Arguments Panic {A}.
Arguments Starved {A}.

Section Auth.

(** ** Pairing registry *)

(** The greatest length [n] for which [make([]byte, n)] returns a slice on the
    machine at hand.  With a greater length, as with a negative one, [make]
    does not return: above the runtime's [maxAlloc] it panics ("makeslice: len
    out of range"), and below that the runtime stops when it cannot get the
    memory. *)
Variable maxAlloc : Z.

Definition charset : list ascii := list_ascii_of_string "0123456789".

(** The decimal digits, and the strings made of them. *)
Definition is_digit (c : ascii) : bool :=
  ((48 <=? nat_of_ascii c) && (nat_of_ascii c <=? 57))%nat.

Definition is_numeric (code : string) : bool :=
  forallb is_digit (list_ascii_of_string code).

(** The character the digit loops store for the random byte [b]. *)
Definition digit_char (b : ascii) : ascii :=
  default zero (charset !! (nat_of_ascii b mod length charset)%nat).

(** [result[i] = charset[randomBytes[i]%byte(len(charset))]]; [None] is an
    index out of range. *)
Definition set_digit (randomBytes result : list ascii) (i : nat)
    : option (list ascii) :=
  b ← randomBytes !! i;
  c ← charset !! (nat_of_ascii b mod length charset)%nat;
  if decide (i < length result)%nat then Some (<[i := c]> result) else None.

(** [for i := 0; i < length; i++ { ... }] *)
Definition digit_loop (n : nat) (randomBytes result : list ascii)
    : option (list ascii) :=
  foldl (λ acc i, r ← acc; set_digit randomBytes r i) (Some result) (seq 0 n).

(** [func generateNumericCode(length int) (string, error)].  The outer [None]
    is a run-time panic ([make] with a negative length or with a length above
    the allocation limit [maxAlloc], an index out of range).  The source runs
    the digit loop twice. *)
Definition generateNumericCode (len : Z) (d : draw) : option (result string) :=
  if (len <? 0) || (maxAlloc <? len) then None
  else
    let n := Z.to_nat len in
    let result := replicate n zero in
    match rand_Read d n with
    | Err e => Some (Err e)
    | Ok randomBytes =>
        r1 ← digit_loop n randomBytes result;
        r2 ← digit_loop n randomBytes r1;
        Some (Ok (string_of_list_ascii r2))
    end.

(** [func (s *Service) cleanupExpiredCodesLocked()] *)
Definition purge_codes (now : Z) (m : gmap string PairingCode)
    : gmap string PairingCode :=
  map_fold (λ code pc acc,
              if After now (pcExpiresAt pc) || Used pc
              then delete code acc else acc) m m.

Definition cleanupExpiredCodesLocked (s : Service) (now : Z) : Service :=
  set_pairingCodes (purge_codes now) s.

(** [for s.pairingCodes[code] != nil { code, err = generateNumericCode(...) }] *)
Fixpoint unique_code_loop (codes : gmap string PairingCode) (len : Z)
    (code : string) (retries : list draw) : run (result string) :=
  match codes !! code with
  | None => Done (Ok code)
  | Some _ =>
      match retries with
      | [] => Starved
      | d :: retries' =>
          match generateNumericCode len d with
          | None => Panic
          | Some (Err e) => Done (Err (Errorf "failed to generate unique code" e))
          | Some (Ok code') => unique_code_loop codes len code' retries'
          end
      end
  end.

(** [func (s *Service) GeneratePairingCode()] *)
Definition GeneratePairingCode (s : Service) (now_purge now : Z)
    (d : draw) (retries : list draw) : run (result PairingCode * Service) :=
  let s1 := cleanupExpiredCodesLocked s now_purge in
  match generateNumericCode (codeLength s1) d with
  | None => Panic
  | Some (Err e) => Done (Err (Errorf "failed to generate code" e), s1)
  | Some (Ok code) =>
      match unique_code_loop (pairingCodes s1) (codeLength s1) code retries with
      | Panic => Panic
      | Starved => Starved
      | Done (Err e) => Done (Err e, s1)
      | Done (Ok code) =>
          let pc := mkPairingCode code now (Add now (codeExpiry s1)) "" false in
          Done (Ok pc, set_pairingCodes (insert code pc) s1)
      end
  end.

(** ** Issuance and eviction *)

(** The body of the loop of [removeOldestTokenLocked] and the loop. *)
Definition oldest_step (key : string) (token : Token)
    (acc : option Token * string) : option Token * string :=
  match acc.1 with
  | None => (Some token, key)
  | Some oldestToken =>
      if Before (LastUsedAt token) (LastUsedAt oldestToken)
      then (Some token, key) else acc
  end.

Definition find_oldest (order : list (string * Token)) : option Token * string :=
  range_fold oldest_step order (None, "").

(** [func (s *Service) removeOldestTokenLocked()]; [order] is the order in
    which [range s.tokens] visits the entries. *)
Definition removeOldestTokenLocked (s : Service) (order : list (string * Token))
    : Service :=
  match find_oldest order with
  | (Some oldestToken, oldestKey) =>
      set_deviceTokens (delete (DeviceID oldestToken))
        (set_tokens (delete oldestKey) s)
  | (None, _) => s
  end.

(** The count loop of [ValidatePairingCode]; the clock is read once per
    entry, [now_at k] being the reading at the entry with key [k]. *)
Definition activeCount (now_at : string → Z) (m : gmap string Token) : Z :=
  map_fold (λ k token n, if Before (now_at k) (ExpiresAt token) then n + 1 else n)
    0 m.

(** What one redemption takes from the environment. *)
Record RedeemEnv := mkRedeemEnv {
  now_expiry : Z;                       (* the code expiry test *)
  now_count : string → Z;               (* the count loop *)
  range_order : list (string * Token);  (* range of the eviction loop *)
  rand_token : draw;                    (* rand.Read in generateSecureToken *)
  now_stamp : Z;                        (* time.Now().UnixNano() *)
  now_create : Z                        (* now of createTokenLocked *)
}.

(** ** Strings, as the handlers use them

    Go strings are byte sequences; the functions of package [strings] that
    [handler.go] calls are given on the bytes, for a separator or a substring
    of one byte, which is all the handlers pass.  An index is an [int], with
    -1 for no occurrence. *)

(** [strings.Split(s, sep)] for a one-byte [sep]. *)
Fixpoint split_bytes (sep : ascii) (l : list ascii) : list (list ascii) :=
  match l with
  | [] => [[]]
  | a :: l' =>
      if decide (a = sep) then [] :: split_bytes sep l'
      else match split_bytes sep l' with
           | part :: parts => (a :: part) :: parts
           | [] => [[a]]
           end
  end.

Definition Split (s : string) (sep : ascii) : list string :=
  string_of_list_ascii <$> split_bytes sep (list_ascii_of_string s).

(** [strings.Index(s, substr)] for a one-byte [substr]. *)
Fixpoint index_bytes (c : ascii) (l : list ascii) : Z :=
  match l with
  | [] => -1
  | a :: l' =>
      if decide (a = c) then 0
      else let i := index_bytes c l' in if i <? 0 then -1 else i + 1
  end.

Definition Index (s : string) (c : ascii) : Z :=
  index_bytes c (list_ascii_of_string s).

(** [strings.LastIndex(s, substr)] for a one-byte [substr]. *)
Fixpoint last_index_bytes (c : ascii) (l : list ascii) : Z :=
  match l with
  | [] => -1
  | a :: l' =>
      let i := last_index_bytes c l' in
      if 0 <=? i then i + 1 else if decide (a = c) then 0 else -1
  end.

Definition LastIndex (s : string) (c : ascii) : Z :=
  last_index_bytes c (list_ascii_of_string s).

(** [strings.HasPrefix(s, prefix)] for a one-byte [prefix]. *)
Definition HasPrefix (s : string) (c : ascii) : bool :=
  match s with
  | String a _ => bool_decide (a = c)
  | EmptyString => false
  end.

(** The slice expression [s[lo:hi]]; [None] is the run-time panic of a slice
    out of range. *)
Definition slice (s : string) (lo hi : Z) : option string :=
  if (0 <=? lo) && (lo <=? hi) && (hi <=? Z.of_nat (String.length s))
  then Some (string_of_list_ascii
               (take (Z.to_nat (hi - lo))
                  (drop (Z.to_nat lo) (list_ascii_of_string s))))
  else None.

(** What the handlers read of a [*http.Request]: the method, the values of
    [r.Header.Get("Authorization")] and [r.Header.Get("X-Forwarded-For")],
    [r.RemoteAddr], and [r.URL.Query().Get("token")]. *)
Record Request := mkRequest {
  Method : string;
  Authorization : string;
  XForwardedFor : string;
  RemoteAddr : string;
  QueryToken : string
}.

(** [func isLocalRequest(r *http.Request) bool]; [None] is a panic. *)
Definition isLocalRequest (r : Request) : option bool :=
  if decide (XForwardedFor r ≠ "") then Some false
  else
    let remoteAddr := RemoteAddr r in
    host ←
      (let idx := LastIndex remoteAddr ":" in
       if decide (idx ≠ -1) then
         if HasPrefix remoteAddr "[" then
           let bracketIdx := Index remoteAddr "]" in
           if decide (bracketIdx ≠ -1) then slice remoteAddr 1 bracketIdx
           else Some remoteAddr
         else slice remoteAddr 0 idx
       else Some remoteAddr);
    Some (bool_decide (host ∈ ["127.0.0.1"; "::1"; "localhost"])).

(** What a handler writes: the status code (200 when the handler writes a
    body without calling [WriteHeader]) and the JSON body. *)
Inductive Body :=
  | NoBody
  | ErrorMessage (msg : string)
  | ErrorOf (e : error)
  | TokenBody (t : Token)
  | CodeBody (pc : PairingCode)
  | StatusValid (t : Token).

Record Response := mkResponse {
  StatusCode : Z;
  ResponseBody : Body
}.

(** What [AuthenticateMiddleware] does with a request: it calls [next], or it
    answers itself. *)
Inductive Gate :=
  | Next
  | Answer (resp : Response).

(** ** The handlers *)

(** [func extractToken(r *http.Request) string]; [strings_ToLower] is
    [strings.ToLower]. *)
Definition extractToken (strings_ToLower : string → string) (r : Request)
    : string :=
  let authHeader := Authorization r in
  let fromHeader :=
    if decide (authHeader ≠ "") then
      match Split authHeader " " with
      | [scheme; token] =>
          if decide (strings_ToLower scheme = "bearer") then Some token
          else None
      | _ => None
      end
    else None in
  match fromHeader with
  | Some token => token
  | None => QueryToken r
  end.

(** [func (h *Handler) AuthenticateMiddleware(next http.HandlerFunc)] *)
Definition AuthenticateMiddleware (strings_ToLower : string → string)
    (s : Service) (r : Request) (now_check now_used : Z) : Gate * Service :=
  if decide (Method r = "OPTIONS") then (Next, s)
  else
    let token := extractToken strings_ToLower r in
    if decide (token = "") then
      (Answer (mkResponse 401 (ErrorMessage "Authentication required")), s)
    else
      match ValidateToken s token now_check now_used with
      | (Err _, s') =>
          (Answer (mkResponse 401 (ErrorMessage "Invalid or expired token")), s')
      | (Ok _, s') => (Next, s')
      end.

(** [func (h *Handler) HandleGenerateCode] *)
Definition HandleGenerateCode (s : Service) (r : Request) (now_purge now : Z)
    (d : draw) (retries : list draw) : run (Response * Service) :=
  if decide (Method r ≠ "POST") then Done (mkResponse 405 NoBody, s)
  else
    match isLocalRequest r with
    | None => Panic
    | Some false => Done (mkResponse 403 NoBody, s)
    | Some true =>
        match GeneratePairingCode s now_purge now d retries with
        | Panic => Panic
        | Starved => Starved
        | Done (Err e, s') => Done (mkResponse 500 (ErrorOf e), s')
        | Done (Ok code, s') => Done (mkResponse 200 (CodeBody code), s')
        end
    end.

(** [func (h *Handler) HandleStatus] *)
Definition HandleStatus (strings_ToLower : string → string) (s : Service)
    (r : Request) (now_check now_used : Z) : Response * Service :=
  let token := extractToken strings_ToLower r in
  if decide (token = "") then (mkResponse 401 NoBody, s)
  else
    match ValidateToken s token now_check now_used with
    | (Err e, s') => (mkResponse 401 (ErrorOf e), s')
    | (Ok tokenInfo, s') => (mkResponse 200 (StatusValid tokenInfo), s')
    end.

(** ** Read-only views *)

(** [func (s *Service) ListActiveDevices() []*Token]; [order] is the order in
    which [range s.tokens] visits the entries, [now] the one clock reading. *)
Definition ListActiveDevices (now : Z) (order : list (string * Token))
    : list Token :=
  range_fold (λ _ token devices,
                if Before now (ExpiresAt token) then devices ++ [token]
                else devices) order [].

(** [func (s *Service) GetActivePairingCode() *PairingCode]: the loop returns
    at the first entry that is unused and unexpired; [None] is [nil]. *)
Fixpoint GetActivePairingCode (now : Z) (order : list (string * PairingCode))
    : option PairingCode :=
  match order with
  | [] => None
  | (_, pc) :: order' =>
      if negb (Used pc) && Before now (pcExpiresAt pc) then Some pc
      else GetActivePairingCode now order'
  end.

(** A run of calls of [ValidateToken], each with its value and its two clock
    readings. *)
Definition validate_calls (s : Service) (calls : list (string * Z * Z))
    : Service :=
  foldl (λ st c, (ValidateToken st c.1.1 c.1.2 c.2).2) s calls.

(** Every pairing code is stored under its own value, as
    [GeneratePairingCode] inserts it. *)
Definition codes_keyed (s : Service) : Prop :=
  ∀ k pc, pairingCodes s !! k = Some pc → Code pc = k.

(** ** Sample stores

    Concrete stores and environments on which the operations are run in the
    examples that close the development. *)

Definition permissions : list string := ["read"; "write"; "execute"].

Definition tokA : Token := mkToken "tokA" "dev-1" "Pixel 7" 0 1000 10 permissions.
Definition tokB : Token := mkToken "tokB" "dev-2" "Galaxy" 0 1000 20 permissions.
Definition code1 : PairingCode := mkPairingCode "048213" 0 300 "" false.

(** Two bound devices, one pending code; the ceiling is [max]. *)
Definition store (max : Z) (path : string) : Service :=
  mkService {[ "048213" := code1 ]}
    (<["tokB" := tokB]> {[ "tokA" := tokA ]})
    (<["dev-2" := "tokB"]> {[ "dev-1" := "tokA" ]})
    6 300 1000 max path.

(** One bound device at a ceiling of one. *)
Definition store1 : Service :=
  mkService {[ "048213" := code1 ]} {[ "tokA" := tokA ]}
    {[ "dev-1" := "tokA" ]} 6 300 1000 1 "".

(** The random bytes [l !! 0], [l !! 1], ... *)
Definition bytes_of (l : list nat) : nat → ascii :=
  λ i, ascii_of_nat (default 0%nat (l !! i)).

(** A redemption at time [now] with the given outcome of the random source. *)
Definition redeem_env (now : Z) (order : list (string * Token)) (d : draw)
    : RedeemEnv :=
  mkRedeemEnv now (λ _, now) order d now now.

(** A document as a run configured with a longer credential TTL leaves it. *)
Definition saved_doc : persistedState :=
  mkPersistedState {[ "tokA" := Some tokA ]} {[ "dev-1" := "tokA" ]} 0.

(** A store with empty tables and a storage path. *)
Definition fresh_store : Service := mkService ∅ ∅ ∅ 6 300 1000 5 "auth.json".

(** Stand-ins for the digest and the encoder, to run the examples: the
    identity and the string of the bytes. *)
Definition sample_digest (l : list ascii) : list ascii := l.
Definition sample_encode (l : list ascii) : string := string_of_list_ascii l.

(** The value they give for 32 random bytes "a" and a time stamp of 100. *)
Definition sample_value : string := "aaaaaaaaaaaaaaaaaaaaaaaaaaaaaaaad".

(** The allocation limit of a platform with 48 address bits. *)
Definition sample_maxAlloc : Z := 2 ^ 48.

(** [sha256.Sum256] and [base64.URLEncoding.EncodeToString]. *)
Variable sha256_Sum256 : list ascii → list ascii.
Variable base64_URLEncoding_EncodeToString : list ascii → string.

(** [func generateSecureToken() (string, error)] *)
Definition generateSecureToken (d : draw) (timestamp : Z) : result string :=
  match rand_Read d 32 with
  | Err e => Err e
  | Ok bytes =>
      let hash :=
        sha256_Sum256 (bytes ++ [ascii_of_nat (Z.to_nat (timestamp mod 256))]) in
      Ok (base64_URLEncoding_EncodeToString hash)
  end.

(** [func (s *Service) createTokenLocked(deviceID, deviceName string)] *)
Definition createTokenLocked (s : Service) (deviceID deviceName : string)
    (d : draw) (timestamp now : Z) : result Token * Service :=
  let s1 :=
    match deviceTokens s !! deviceID with
    | Some oldToken => set_tokens (delete oldToken) s
    | None => s
    end in
  match generateSecureToken d timestamp with
  | Err e => (Err (Errorf "failed to generate token" e), s1)
  | Ok tokenValue =>
      let token :=
        mkToken tokenValue deviceID deviceName now (Add now (tokenExpiry s1)) now
          ["read"; "write"; "execute"] in
      (Ok token,
       set_deviceTokens (insert deviceID tokenValue)
         (set_tokens (insert tokenValue token) s1))
  end.

(** The credential that [createTokenLocked] builds from the random bytes [f]
    (used to state its result). *)
Definition issued (s : Service) (deviceID deviceName : string)
    (f : nat → ascii) (timestamp now : Z) : Token :=
  mkToken
    (base64_URLEncoding_EncodeToString
       (sha256_Sum256
          ((f <$> seq 0 32) ++ [ascii_of_nat (Z.to_nat (timestamp mod 256))])))
    deviceID deviceName now (Add now (tokenExpiry s)) now
    ["read"; "write"; "execute"].

(** The capacity step of [ValidatePairingCode] (source lines 176-186). *)
Definition capacity_step (s : Service) (env : RedeemEnv) : Service :=
  if maxActiveDevices s <=? activeCount (now_count env) (tokens s)
  then removeOldestTokenLocked s (range_order env) else s.

(** [func (s *Service) ValidatePairingCode(code, deviceID, deviceName string)] *)
Definition ValidatePairingCode (s : Service) (code deviceID deviceName : string)
    (env : RedeemEnv) : result Token * Service :=
  match pairingCodes s !! code with
  | None => (Err ErrInvalidCode, s)
  | Some pc =>
      if After (now_expiry env) (pcExpiresAt pc) then
        (Err ErrCodeExpired, set_pairingCodes (delete code) s)
      else if Used pc then (Err ErrCodeAlreadyUsed, s)
      else
        let s1 := capacity_step s env in
        let s2 :=
          set_pairingCodes
            (λ m, delete code (<[code := set_Used deviceID pc]> m)) s1 in
        createTokenLocked s2 deviceID deviceName
          (rand_token env) (now_stamp env) (now_create env)
  end.

(** ** Sweeper: one tick of [cleanupExpired] *)

Definition sweep_tokens (now : Z) (m : gmap string Token)
    (devs : gmap string string) : gmap string Token * gmap string string :=
  map_fold (λ tokenValue token acc,
              if After now (ExpiresAt token)
              then (delete tokenValue acc.1, delete (DeviceID token) acc.2)
              else acc) (m, devs) m.

Definition cleanupExpired (s : Service) (now : Z) : Service :=
  let swept := sweep_tokens now (tokens s) (deviceTokens s) in
  mkService (purge_codes now (pairingCodes s)) swept.1 swept.2 (codeLength s)
    (codeExpiry s) (tokenExpiry s) (maxActiveDevices s) (storagePath s).

(** ** Persistence *)

(** [encoding/json] on [persistedState]; [Data] is the content of a file. *)
Variable Data : Type.
Variable json_MarshalIndent : persistedState → result Data.
Variable json_Unmarshal : Data → result persistedState.

(** [for k, v := range src { if keep k v { dst[k] = v } }] *)
Definition copy_if {V : Type} (keep : string → V → bool)
    (src dst : gmap string V) : gmap string V :=
  map_fold (λ k v acc, if keep k v then <[k := v]> acc else acc) dst src.

Definition unexpired (now : Z) (_ : string) (v : Token) : bool :=
  Before now (ExpiresAt v).

Definition targets (toks : gmap string Token) (_ : string) (v : string) : bool :=
  bool_decide (is_Some (toks !! v)).

(** The clock readings and the I/O outcomes of one [SaveState]. *)
Record SaveEnv := mkSaveEnv {
  now_saved : Z;
  now_save : Z;
  mkdir_fails : bool;
  write_fails : bool
}.

(** [func (s *Service) SaveState() error]: the error, and the data written to
    the file at [storagePath] when the write happens. *)
Definition SaveState (s : Service) (env : SaveEnv) : option error * option Data :=
  if decide (storagePath s = "") then (None, None)
  else
    let toks := copy_if (unexpired (now_save env)) (tokens s) ∅ in
    let devs := copy_if (targets toks) (deviceTokens s) ∅ in
    let state := mkPersistedState (Some <$> toks) devs (now_saved env) in
    if mkdir_fails env
    then (Some (Errorf "failed to create storage dir" ErrIO), None)
    else
      match json_MarshalIndent state with
      | Err e => (Some (Errorf "failed to marshal state" e), None)
      | Ok data =>
          if write_fails env
          then (Some (Errorf "failed to write state file" ErrIO), None)
          else (None, Some data)
      end.

(** The outcome of [os.ReadFile(s.storagePath)]. *)
Inductive ReadFile :=
  | ReadNotExist
  | ReadFails
  | ReadData (data : Data).

(** [for k, v := range state.Tokens { if now.Before(v.ExpiresAt) {
    s.tokens[k] = v } }]: [v.ExpiresAt] panics on a nil [v], and [None] is
    that panic. *)
Definition load_tokens (now : Z) (src : gmap string (option Token))
    (dst : gmap string Token) : option (gmap string Token) :=
  map_fold (λ k v acc,
              m ← acc;
              token ← v;
              Some (if Before now (ExpiresAt token) then <[k := token]> m
                    else m))
    (Some dst) src.

(** [func (s *Service) LoadState() error]; the outer [None] is the panic of
    the loop over the credentials of the document. *)
Definition LoadState (s : Service) (file : ReadFile) (now : Z)
    : option (option error * Service) :=
  if decide (storagePath s = "") then Some (None, s)
  else
    match file with
    | ReadNotExist => Some (None, s)
    | ReadFails => Some (Some (Errorf "failed to read state file" ErrIO), s)
    | ReadData data =>
        match json_Unmarshal data with
        | Err e => Some (Some (Errorf "failed to unmarshal state" e), s)
        | Ok state =>
            toks ← load_tokens now (psTokens state) (tokens s);
            let devs :=
              copy_if (targets toks) (psDeviceTokens state) (deviceTokens s) in
            Some (None,
                  set_deviceTokens (λ _, devs) (set_tokens (λ _, toks) s))
        end
    end.

(** [func DefaultConfig() ServiceConfig] *)
Definition DefaultConfig : ServiceConfig :=
  mkServiceConfig 6 (5 * Minute) (30 * 24 * Hour) 5 "".

(** [func NewService(config ServiceConfig) *Service]; the sweeper it starts is
    [cleanupExpired], one call per tick; [None] is the panic of [LoadState]. *)
Definition NewService (config : ServiceConfig) (file : ReadFile) (now : Z)
    : option Service :=
  let s :=
    mkService ∅ ∅ ∅
      (if CodeLength config =? 0 then 6 else CodeLength config)
      (if CodeExpiry config =? 0 then 5 * Minute else CodeExpiry config)
      (if TokenExpiry config =? 0 then 30 * 24 * Hour else TokenExpiry config)
      (if MaxActiveDevices config =? 0 then 5 else MaxActiveDevices config)
      (StoragePath config) in
  if decide (StoragePath config = "") then Some s
  else snd <$> LoadState s file now.

(** [func (h *Handler) HandlePair]; [body] is what the JSON decoder makes of
    the request body, code, device identifier and device name, [None] when it
    fails. *)
Definition HandlePair (s : Service) (r : Request)
    (body : option (string * string * string)) (env : RedeemEnv)
    : Response * Service :=
  if decide (Method r ≠ "POST") then (mkResponse 405 NoBody, s)
  else
    match body with
    | None => (mkResponse 400 (ErrorMessage "Invalid request body"), s)
    | Some (code, deviceID, deviceName) =>
        if decide (code = "" ∨ deviceID = "") then
          (mkResponse 400 (ErrorMessage "Code and Device ID are required"), s)
        else
          match ValidatePairingCode s code deviceID deviceName env with
          | (Err e, s') => (mkResponse 401 (ErrorOf e), s')
          | (Ok token, s') => (mkResponse 200 (TokenBody token), s')
          end
    end.

(** ** The index invariant *)

(** Every index row names a stored credential, and every stored credential is
    indexed under its device identifier. *)
Definition index_consistent (s : Service) : Prop :=
  (∀ d v, deviceTokens s !! d = Some v → is_Some (tokens s !! v)) ∧
  (∀ v t, tokens s !! v = Some t → deviceTokens s !! DeviceID t = Some v).

(** The same, with the row of a device naming a credential of that device;
    this is the form that is inductive. *)
Definition maps_consistent (toks : gmap string Token)
    (devs : gmap string string) : Prop :=
  (∀ d v, devs !! d = Some v → ∃ t, toks !! v = Some t ∧ DeviceID t = d) ∧
  (∀ v t, toks !! v = Some t → devs !! DeviceID t = Some v).

Definition consistent (s : Service) : Prop :=
  maps_consistent (tokens s) (deviceTokens s).

(** ** Theorems *)

(** ** The loops over the maps *)

Lemma range_fold_foldr {A B : Type} (body : string → A → B → B)
    (order : list (string * A)) (b : B) :
  range_fold body order b = foldr (uncurry body) b (reverse order).
Proof.
  unfold range_fold. revert b.
  induction order as [|[k v] order IH]; intros b; [done|].
  rewrite reverse_cons, foldr_snoc. apply IH.
Qed.

(** A loop whose steps at different keys commute gives the result of
    [map_fold] whatever the visiting order; this is what lets the loops below
    be written with [map_fold]. *)
Lemma range_fold_any_order {A B : Type} (body : string → A → B → B) (b : B)
    (m : gmap string A) (order : list (string * A)) :
  (∀ k1 v1 k2 v2 acc, k1 ≠ k2 →
     body k1 v1 (body k2 v2 acc) = body k2 v2 (body k1 v1 acc)) →
  order ≡ₚ map_to_list m →
  range_fold body order b = map_fold body b m.
Proof.
  intros Hcomm Hperm. rewrite range_fold_foldr, map_fold_foldr.
  assert (Hrev : reverse order ≡ₚ map_to_list m)
    by (by rewrite reverse_Permutation).
  apply (foldr_permutation (=) (uncurry body) b); [|done].
  intros j1 [k1 v1] j2 [k2 v2] acc Hj H1 H2. cbn. apply Hcomm. intros <-.
  assert (Hnd : NoDup (reverse order).*1).
  { rewrite Hrev. apply NoDup_fst_map_to_list. }
  apply Hj. eapply NoDup_lookup; [exact Hnd | |].
  - by rewrite list_lookup_fmap, H1.
  - by rewrite list_lookup_fmap, H2.
Qed.

Lemma activeCount_any_order (now_at : string → Z) (m : gmap string Token)
    (order : list (string * Token)) :
  order ≡ₚ map_to_list m →
  range_fold
    (λ k token n, if Before (now_at k) (ExpiresAt token) then n + 1 else n)
    order 0
  = activeCount now_at m.
Proof.
  apply range_fold_any_order. intros k1 v1 k2 v2 n _.
  destruct (Before _ _), (Before _ _); lia.
Qed.

Lemma purge_codes_any_order (now : Z) (m : gmap string PairingCode)
    (order : list (string * PairingCode)) :
  order ≡ₚ map_to_list m →
  range_fold
    (λ code pc acc,
       if After now (pcExpiresAt pc) || Used pc then delete code acc else acc)
    order m
  = purge_codes now m.
Proof.
  apply range_fold_any_order. intros k1 v1 k2 v2 acc _.
  destruct (_ || _), (_ || _); try done. apply delete_delete.
Qed.

Lemma copy_if_any_order {V : Type} (keep : string → V → bool)
    (src dst : gmap string V) (order : list (string * V)) :
  order ≡ₚ map_to_list src →
  range_fold (λ k v acc, if keep k v then <[k := v]> acc else acc) order dst
  = copy_if keep src dst.
Proof.
  apply range_fold_any_order. intros k1 v1 k2 v2 acc Hne.
  destruct (keep k1 v1), (keep k2 v2); try done. by apply insert_insert_ne.
Qed.

Lemma load_tokens_any_order (now : Z) (src : gmap string (option Token))
    (dst : gmap string Token) (order : list (string * option Token)) :
  order ≡ₚ map_to_list src →
  range_fold
    (λ k v acc,
       m ← acc;
       token ← v;
       Some (if Before now (ExpiresAt token) then <[k := token]> m else m))
    order (Some dst)
  = load_tokens now src dst.
Proof.
  apply range_fold_any_order. intros k1 v1 k2 v2 acc Hne.
  destruct acc as [m|], v1 as [t1|], v2 as [t2|]; cbn; try done.
  destruct (Before now (ExpiresAt t1)), (Before now (ExpiresAt t2)); cbn;
    try done.
  f_equal. by apply insert_insert_ne.
Qed.

Lemma sweep_tokens_any_order (now : Z) (m : gmap string Token)
    (devs : gmap string string) (order : list (string * Token)) :
  order ≡ₚ map_to_list m →
  range_fold
    (λ tokenValue token acc,
       if After now (ExpiresAt token)
       then (delete tokenValue acc.1, delete (DeviceID token) acc.2)
       else acc)
    order (m, devs)
  = sweep_tokens now m devs.
Proof.
  apply range_fold_any_order. intros k1 v1 k2 v2 acc _.
  destruct (After now (ExpiresAt v1)), (After now (ExpiresAt v2)); try done.
  cbn. f_equal; apply delete_delete.
Qed.

Lemma fold_delete_lookup {V : Type} (P : string → V → bool)
    (m0 m : gmap string V) (k : string) :
  map_fold (λ i v acc, if P i v then delete i acc else acc) m0 m !! k
  = match m !! k with
    | Some v => if P k v then None else m0 !! k
    | None => m0 !! k
    end.
Proof.
  revert k.
  apply (map_fold_weak_ind (λ r m', ∀ k, r !! k =
           match m' !! k with
           | Some v => if P k v then None else m0 !! k
           | None => m0 !! k
           end)).
  - intros k. by rewrite lookup_empty.
  - intros i x m' r Hi IH k.
    destruct (decide (i = k)) as [->|Hne].
    + rewrite lookup_insert_eq. specialize (IH k). rewrite Hi in IH.
      destruct (P k x); [apply lookup_delete_eq | done].
    + rewrite lookup_insert_ne by done.
      destruct (P i x); [rewrite lookup_delete_ne by done|]; apply IH.
Qed.

Lemma purge_codes_lookup (now : Z) (m : gmap string PairingCode) (k : string) :
  purge_codes now m !! k
  = match m !! k with
    | Some pc => if After now (pcExpiresAt pc) || Used pc then None else Some pc
    | None => None
    end.
Proof.
  unfold purge_codes.
  rewrite (fold_delete_lookup (λ _ pc, After now (pcExpiresAt pc) || Used pc)).
  destruct (m !! k) as [pc|] eqn:E; [|done]. by destruct (_ || _).
Qed.

Lemma copy_if_lookup {V : Type} (keep : string → V → bool)
    (src dst : gmap string V) (k : string) :
  copy_if keep src dst !! k
  = match src !! k with
    | Some v => if keep k v then Some v else dst !! k
    | None => dst !! k
    end.
Proof.
  unfold copy_if. revert k.
  apply (map_fold_weak_ind (λ r m', ∀ k, r !! k =
           match m' !! k with
           | Some v => if keep k v then Some v else dst !! k
           | None => dst !! k
           end)).
  - intros k. by rewrite lookup_empty.
  - intros i x m' r Hi IH k.
    destruct (decide (i = k)) as [->|Hne].
    + rewrite lookup_insert_eq. specialize (IH k). rewrite Hi in IH.
      destruct (keep k x); [apply lookup_insert_eq | done].
    + rewrite lookup_insert_ne by done.
      destruct (keep i x); [rewrite lookup_insert_ne by done|]; apply IH.
Qed.

(** The loop over the credentials of a document panics exactly when the
    document holds a nil credential, and otherwise copies the unexpired
    ones. *)
Lemma load_tokens_spec (now : Z) (src : gmap string (option Token))
    (dst : gmap string Token) :
  match load_tokens now src dst with
  | None => ∃ k, src !! k = Some None
  | Some toks =>
      (∀ k, src !! k ≠ Some None)
      ∧ ∀ k, toks !! k
             = match src !! k with
               | Some (Some t) =>
                   if Before now (ExpiresAt t) then Some t else dst !! k
               | _ => dst !! k
               end
  end.
Proof.
  unfold load_tokens.
  apply (map_fold_weak_ind (λ r m',
           match r with
           | None => ∃ k, m' !! k = Some None
           | Some toks =>
               (∀ k, m' !! k ≠ Some None)
               ∧ ∀ k, toks !! k
                      = match m' !! k with
                        | Some (Some t) =>
                            if Before now (ExpiresAt t) then Some t
                            else dst !! k
                        | _ => dst !! k
                        end
           end)).
  - split; intros k; by rewrite lookup_empty.
  - intros i x m' r Hi IH. destruct r as [toks|]; cbn.
    + destruct IH as [Hnil Hlook]. destruct x as [t|]; cbn.
      * split.
        -- intros k. destruct (decide (i = k)) as [->|Hne].
           ++ by rewrite lookup_insert_eq.
           ++ rewrite lookup_insert_ne by done. apply Hnil.
        -- intros k. destruct (decide (i = k)) as [->|Hne].
           ++ rewrite lookup_insert_eq.
              destruct (Before now (ExpiresAt t)); [apply lookup_insert_eq|].
              by rewrite Hlook, Hi.
           ++ rewrite lookup_insert_ne by done.
              destruct (Before now (ExpiresAt t));
                [rewrite lookup_insert_ne by done|]; apply Hlook.
      * exists i. apply lookup_insert_eq.
    + destruct IH as [k Hk]. exists k.
      rewrite lookup_insert_ne; [done|]. intros ->. congruence.
Qed.

Lemma load_tokens_None (now : Z) (src : gmap string (option Token))
    (dst : gmap string Token) :
  load_tokens now src dst = None ↔ ∃ k, src !! k = Some None.
Proof.
  pose proof (load_tokens_spec now src dst) as H.
  destruct (load_tokens now src dst) as [toks|]; [|done].
  destruct H as [Hnil _]. split; [done|]. intros [k Hk]. by destruct (Hnil k).
Qed.

(** On a document without nil credentials, as [SaveState] writes them, the
    loop is the copy of the unexpired credentials. *)
Lemma load_tokens_fmap (now : Z) (m dst : gmap string Token) :
  load_tokens now (Some <$> m) dst = Some (copy_if (unexpired now) m dst).
Proof.
  pose proof (load_tokens_spec now (Some <$> m) dst) as H.
  destruct (load_tokens now (Some <$> m) dst) as [toks|].
  - destruct H as [_ H]. f_equal. apply map_eq. intros k.
    rewrite H, copy_if_lookup, lookup_fmap. unfold unexpired.
    by destruct (m !! k).
  - destruct H as [k Hk]. rewrite lookup_fmap in Hk. by destruct (m !! k).
Qed.

(** When the loop returns, the document held no nil credential. *)
Lemma load_tokens_Some (now : Z) (src : gmap string (option Token))
    (dst toks : gmap string Token) :
  load_tokens now src dst = Some toks →
  src = Some <$> omap id src
  ∧ toks = copy_if (unexpired now) (omap id src) dst.
Proof.
  intros Hl.
  assert (Hsrc : src = Some <$> omap id src).
  { apply map_eq. intros k. rewrite lookup_fmap, lookup_omap.
    destruct (src !! k) as [[t|]|] eqn:Hk; try done.
    assert (Hnil : ∃ k, src !! k = Some None) by by exists k.
    apply (load_tokens_None now src dst) in Hnil. congruence. }
  split; [done|]. rewrite Hsrc, load_tokens_fmap in Hl. by injection Hl as <-.
Qed.

Lemma activeCount_empty (now_at : string → Z) : activeCount now_at ∅ = 0.
Proof. apply map_fold_empty. Qed.

Lemma activeCount_bounds (now_at : string → Z) (m : gmap string Token) :
  0 ≤ activeCount now_at m ≤ Z.of_nat (size m).
Proof.
  unfold activeCount.
  apply (map_fold_weak_ind (λ (n : Z) m', 0 ≤ n ≤ Z.of_nat (size m'))).
  - by rewrite map_size_empty.
  - intros i x m' n Hi IH. rewrite map_size_insert_None by done.
    destruct (Before _ _); lia.
Qed.

(** The eviction loop keeps an entry it has seen whose last-used time is
    minimal among the entries seen. *)
Lemma range_fold_oldest_step (order : list (string * Token)) (t0 : Token)
    (k0 : string) :
  ∃ t k, range_fold oldest_step order (Some t0, k0) = (Some t, k)
         ∧ ((k, t) = (k0, t0) ∨ (k, t) ∈ order)
         ∧ LastUsedAt t ≤ LastUsedAt t0
         ∧ ∀ k' t', (k', t') ∈ order → LastUsedAt t ≤ LastUsedAt t'.
Proof.
  unfold range_fold. revert t0 k0.
  induction order as [|[k1 t1] order IH]; intros t0 k0; cbn.
  - exists t0, k0. repeat split; [by left | lia |]. intros ?? []%elem_of_nil.
  - unfold Before.
    destruct (LastUsedAt t1 <? LastUsedAt t0) eqn:Hlt.
    + apply Z.ltb_lt in Hlt.
      destruct (IH t1 k1) as (t & k & -> & Hin & Hle & Hmin).
      exists t, k. repeat split.
      * right. destruct Hin as [->|Hin]; [left | by right].
      * lia.
      * intros k' t' [[= -> ->]|Hin']%elem_of_cons; [done | by apply (Hmin k')].
    + apply Z.ltb_ge in Hlt.
      destruct (IH t0 k0) as (t & k & -> & Hin & Hle & Hmin).
      exists t, k. repeat split.
      * destruct Hin as [?|Hin]; [by left | right; by right].
      * done.
      * intros k' t' [[= -> ->]|Hin']%elem_of_cons; [lia | by apply (Hmin k')].
Qed.

Lemma find_oldest_nil : find_oldest [] = (None, "").
Proof. reflexivity. Qed.

Lemma find_oldest_spec (order : list (string * Token)) :
  order ≠ [] →
  ∃ t k, find_oldest order = (Some t, k)
         ∧ (k, t) ∈ order
         ∧ ∀ k' t', (k', t') ∈ order → LastUsedAt t ≤ LastUsedAt t'.
Proof.
  destruct order as [|[k0 t0] order]; [done|]. intros _.
  unfold find_oldest; cbn.
  destruct (range_fold_oldest_step order t0 k0) as (t & k & Hf & Hin & Hle & Hmin).
  unfold range_fold in Hf. rewrite Hf.
  exists t, k. repeat split.
  - destruct Hin as [->|Hin]; [left | by right].
  - intros k' t' [[= -> ->]|Hin']%elem_of_cons; [done | by apply (Hmin k')].
Qed.

(** *** The numeric code generator *)

#[local] Arguments charset : simpl never.

Lemma charset_lookup (i : nat) :
  (i < 10)%nat → ∃ c, charset !! i = Some c ∧ is_digit c = true.
Proof.
  intros Hi.
  do 10 (destruct i as [|i]; [eexists; split; reflexivity|]). lia.
Qed.

Lemma digit_char_lookup (b : ascii) :
  charset !! (nat_of_ascii b mod length charset)%nat = Some (digit_char b)
  ∧ is_digit (digit_char b) = true.
Proof.
  unfold digit_char.
  destruct (charset_lookup (nat_of_ascii b mod length charset)) as (c & -> & Hc).
  - change (length charset) with 10%nat. apply Nat.mod_upper_bound. lia.
  - done.
Qed.

Lemma set_digit_Some (randomBytes result : list ascii) (i : nat) (b : ascii) :
  randomBytes !! i = Some b → (i < length result)%nat →
  set_digit randomBytes result i = Some (<[i := digit_char b]> result).
Proof.
  intros Hb Hi. unfold set_digit. rewrite Hb. cbn.
  destruct (digit_char_lookup b) as [-> _]. cbn.
  by rewrite decide_True.
Qed.

Lemma digit_loop_seq (randomBytes : list ascii) (k a : nat) (result : list ascii) :
  length result = length randomBytes → (a + k ≤ length randomBytes)%nat →
  ∃ r, foldl (λ acc i, r ← acc; set_digit randomBytes r i) (Some result) (seq a k)
       = Some r
       ∧ length r = length randomBytes
       ∧ (∀ i, (a ≤ i < a + k)%nat → r !! i = digit_char <$> randomBytes !! i)
       ∧ (∀ i, ¬ (a ≤ i < a + k)%nat → r !! i = result !! i).
Proof.
  revert a result. induction k as [|k IH]; intros a result Hlen Hk; cbn.
  - exists result. split_and!; [done | done | intros; lia | done].
  - destruct (lookup_lt_is_Some_2 randomBytes a) as [b Hb]; [lia|].
    rewrite (set_digit_Some _ _ _ b) by (done || lia).
    destruct (IH (S a) (<[a := digit_char b]> result)) as (r & -> & Hr & Hin & Hout).
    { by rewrite length_insert. }
    { lia. }
    exists r. split_and!; [done | done | |].
    + intros i Hi. destruct (decide (i = a)) as [->|Hne].
      * rewrite Hout by lia. rewrite list_lookup_insert_eq by lia. by rewrite Hb.
      * apply Hin. lia.
    + intros i Hi. rewrite Hout by lia. apply list_lookup_insert_ne. lia.
Qed.

Lemma digit_loop_spec (randomBytes result : list ascii) :
  length result = length randomBytes →
  digit_loop (length randomBytes) randomBytes result
  = Some (digit_char <$> randomBytes).
Proof.
  intros Hlen. unfold digit_loop.
  destruct (digit_loop_seq randomBytes (length randomBytes) 0 result)
    as (r & -> & Hr & Hin & _); [done | lia |].
  f_equal. apply list_eq. intros i. rewrite list_lookup_fmap.
  destruct (decide (i < length randomBytes)%nat) as [Hi|Hi].
  - apply Hin. lia.
  - rewrite !lookup_ge_None_2; [done | lia | lia].
Qed.

Lemma length_string_of_list_ascii (l : list ascii) :
  String.length (string_of_list_ascii l) = length l.
Proof. induction l as [|c l IH]; cbn; [done | by rewrite IH]. Qed.

Lemma is_numeric_digit_chars (l : list ascii) :
  is_numeric (string_of_list_ascii (digit_char <$> l)) = true.
Proof.
  unfold is_numeric. rewrite list_ascii_of_string_of_list_ascii.
  induction l as [|b l IH]; cbn; [done|].
  destruct (digit_char_lookup b) as [_ ->]. apply IH.
Qed.

(** [make([]byte, len)] returns a slice exactly for the lengths from 0 to the
    allocation limit. *)
Lemma make_in_range (len : Z) :
  (len <? 0) || (maxAlloc <? len) = false ↔ 0 ≤ len ≤ maxAlloc.
Proof. rewrite orb_false_iff, !Z.ltb_ge. lia. Qed.

Lemma make_out_of_range (len : Z) :
  (len <? 0) || (maxAlloc <? len) = true ↔ len < 0 ∨ maxAlloc < len.
Proof. by rewrite orb_true_iff, !Z.ltb_lt. Qed.

(** The generator panics on a length that [make] refuses, passes the error of
    the random source on, and otherwise returns the digits of the random
    bytes. *)
Lemma generateNumericCode_eq (len : Z) (d : draw) :
  generateNumericCode len d
  = if (len <? 0) || (maxAlloc <? len) then None
    else match d with
         | None => Some (Err ErrRand)
         | Some f =>
             Some (Ok (string_of_list_ascii
                         (digit_char <$> (f <$> seq 0 (Z.to_nat len)))))
         end.
Proof.
  unfold generateNumericCode. destruct (_ || _); [done|].
  destruct d as [f|]; cbn; [|done].
  set (rb := f <$> seq 0 (Z.to_nat len)).
  assert (Hrb : length rb = Z.to_nat len).
  { unfold rb. by rewrite length_fmap, length_seq. }
  rewrite <- Hrb.
  rewrite digit_loop_spec by (by rewrite length_replicate). cbn.
  rewrite digit_loop_spec by (by rewrite length_fmap). done.
Qed.

Lemma generateNumericCode_Ok (len : Z) (d : draw) (code : string) :
  generateNumericCode len d = Some (Ok code) →
  Z.of_nat (String.length code) = len ∧ is_numeric code = true.
Proof.
  rewrite generateNumericCode_eq.
  destruct (_ || _) eqn:Hlen; [done|]. apply make_in_range in Hlen.
  destruct d as [f|]; [|done]. intros [= <-]. split.
  - rewrite length_string_of_list_ascii, !length_fmap, length_seq. lia.
  - apply is_numeric_digit_chars.
Qed.

Lemma unique_code_loop_Ok (codes : gmap string PairingCode) (len : Z)
    (retries : list draw) (code c : string) :
  unique_code_loop codes len code retries = Done (Ok c) →
  codes !! c = None
  ∧ (c = code ∨ ∃ d, d ∈ retries ∧ generateNumericCode len d = Some (Ok c)).
Proof.
  revert code. induction retries as [|d retries IH]; intros code; cbn.
  - destruct (codes !! code) eqn:E; [done|]. intros [= <-]. by split; [|left].
  - destruct (codes !! code) eqn:E; [|intros [= <-]; by split; [|left]].
    destruct (generateNumericCode len d) as [[code'|e]|] eqn:Hgen; [|done..].
    intros [Hc [->|(d' & Hd' & Hgen')]]%IH; (split; [done|right]).
    + exists d. split; [by left | done].
    + exists d'. split; [by right | done].
Qed.

(** With the entries of a non-empty table visited once each, the victim is a
    stored credential whose last-used time is minimal in the table. *)
Lemma find_oldest_range (m : gmap string Token) (order : list (string * Token)) :
  order ≡ₚ map_to_list m → m ≠ ∅ →
  ∃ t k, find_oldest order = (Some t, k)
         ∧ m !! k = Some t
         ∧ ∀ k' t', m !! k' = Some t' → LastUsedAt t ≤ LastUsedAt t'.
Proof.
  intros Hperm Hne.
  destruct (find_oldest_spec order) as (t & k & Hf & Hin & Hmin).
  { intros ->. apply Permutation_nil_l in Hperm. symmetry in Hperm.
    by apply map_to_list_empty_iff in Hperm. }
  exists t, k. split; [done|]. split.
  - apply elem_of_map_to_list. by rewrite <- Hperm.
  - intros k' t' Hk'. apply (Hmin k').
    rewrite Hperm. by apply elem_of_map_to_list.
Qed.


(** C1: [ValidateToken] fails with [ErrInvalidToken] on a value that is not
    stored; on a stored credential whose expiry is in the past it fails with
    [ErrTokenExpired] and removes the credential and the index row of its
    device; otherwise it sets the last-used time of the stored credential to
    the clock reading and returns that credential. *)
Theorem ValidateToken_spec (s : Service) (v : string) (now_check now_used : Z) :
  match tokens s !! v with
  | None => ValidateToken s v now_check now_used = (Err ErrInvalidToken, s)
  | Some tok =>
      if bool_decide (ExpiresAt tok < now_check) then
        ∃ s', ValidateToken s v now_check now_used = (Err ErrTokenExpired, s')
              ∧ tokens s' = delete v (tokens s)
              ∧ deviceTokens s' = delete (DeviceID tok) (deviceTokens s)
              ∧ tokens s' !! v = None
              ∧ deviceTokens s' !! DeviceID tok = None
              ∧ pairingCodes s' = pairingCodes s
      else
        ∃ s', ValidateToken s v now_check now_used
                = (Ok (set_LastUsedAt now_used tok), s')
              ∧ tokens s' = <[v := set_LastUsedAt now_used tok]> (tokens s)
              ∧ tokens s' !! v = Some (set_LastUsedAt now_used tok)
              ∧ LastUsedAt (set_LastUsedAt now_used tok) = now_used
              ∧ deviceTokens s' = deviceTokens s
              ∧ pairingCodes s' = pairingCodes s
  end.
Proof.
  unfold ValidateToken, After.
  destruct (tokens s !! v) as [tok|] eqn:Hlook; [|reflexivity].
  case_bool_decide as Hexp.
  - apply Z.ltb_lt in Hexp. rewrite Hexp.
    eexists; split; [reflexivity|]. cbn.
    repeat split; try done; apply lookup_delete_eq.
  - apply Z.ltb_nlt in Hexp. rewrite Hexp.
    eexists; split; [reflexivity|]. cbn.
    repeat split; try done; apply lookup_insert_eq.
Qed.

(** ** Pairing registry: issuing codes *)

Lemma unique_code_loop_returns (codes : gmap string PairingCode) (len : Z)
    (f : nat → ascii) (code : string) (retries : list draw) :
  0 ≤ len ≤ maxAlloc →
  codes !! string_of_list_ascii (digit_char <$> (f <$> seq 0 (Z.to_nat len)))
    = None →
  ∃ r, unique_code_loop codes len code (retries ++ [Some f]) = Done r.
Proof.
  intros Hlen%make_in_range Hfree. revert code.
  induction retries as [|d retries IH]; intros code; cbn.
  - destruct (codes !! code); [|by eexists].
    rewrite generateNumericCode_eq, Hlen, Hfree. by eexists.
  - destruct (codes !! code); [|by eexists].
    rewrite generateNumericCode_eq, Hlen.
    destruct d as [g|]; [apply IH | by eexists].
Qed.

(** With a code length that [make] allocates the call returns as soon as the
    random source fails or yields a code that is not stored. *)
Lemma GeneratePairingCode_returns (s : Service) (now_purge now : Z)
    (d : draw) (retries : list draw) (f : nat → ascii) :
  0 ≤ codeLength s ≤ maxAlloc →
  purge_codes now_purge (pairingCodes s)
    !! string_of_list_ascii (digit_char <$> (f <$> seq 0 (Z.to_nat (codeLength s))))
    = None →
  ∃ r, GeneratePairingCode s now_purge now d (retries ++ [Some f]) = Done r.
Proof.
  intros Hlen Hfree. unfold GeneratePairingCode. cbn.
  rewrite generateNumericCode_eq.
  rewrite (proj2 (make_in_range (codeLength s)) Hlen).
  destruct d as [g|]; [|by eexists].
  edestruct (unique_code_loop_returns (purge_codes now_purge (pairingCodes s))
               (codeLength s) f) as [[c|e] ->]; [done | done | by eexists..].
Qed.

(** C8: every code returned by [GeneratePairingCode] has the configured
    length, is made of decimal digits only, and differs from every code that
    is in the table when it is inserted, that table being the one left by the
    purge of the expired and the used codes. *)
Theorem GeneratePairingCode_code (s : Service) (now_purge now : Z) (d : draw)
    (retries : list draw) (pc : PairingCode) (s' : Service) :
  GeneratePairingCode s now_purge now d retries = Done (Ok pc, s') →
  Z.of_nat (String.length (Code pc)) = codeLength s
  ∧ is_numeric (Code pc) = true
  ∧ (∀ c pc', purge_codes now_purge (pairingCodes s) !! c = Some pc' →
              c ≠ Code pc)
  ∧ pairingCodes s' = <[Code pc := pc]> (purge_codes now_purge (pairingCodes s))
  ∧ (∀ c pc', purge_codes now_purge (pairingCodes s) !! c = Some pc' ↔
              pairingCodes s !! c = Some pc'
              ∧ now_purge ≤ pcExpiresAt pc' ∧ Used pc' = false).
Proof.
  unfold GeneratePairingCode. cbn.
  destruct (generateNumericCode (codeLength s) d) as [[code|e]|] eqn:Hgen;
    [|done..].
  destruct (unique_code_loop _ _ code retries) as [[c|e]| |] eqn:Hloop;
    [|done..].
  intros [= <- <-]. cbn.
  apply unique_code_loop_Ok in Hloop as [Hfree Hsrc].
  assert (Hc : Z.of_nat (String.length c) = codeLength s ∧ is_numeric c = true).
  { destruct Hsrc as [->|(d' & _ & Hd')]; by eapply generateNumericCode_Ok. }
  destruct Hc as [Hclen Hcnum]. split_and!; [done | done | | done |].
  - intros c' pc' Hc' ->. by rewrite Hfree in Hc'.
  - intros c' pc'. rewrite purge_codes_lookup. unfold After.
    destruct (pairingCodes s !! c') as [p|]; [|by split; [|intros [? _]]].
    destruct (pcExpiresAt p <? now_purge) eqn:E1, (Used p) eqn:E2; cbn;
      [apply Z.ltb_lt in E1..|apply Z.ltb_ge in E1|apply Z.ltb_ge in E1];
      (split; [intros [= <-] | intros ([= <-] & ? & ?)]);
      try done; try lia; try congruence.
Qed.

(** ** Redemption *)

Lemma capacity_step_pairingCodes (s : Service) (env : RedeemEnv) :
  pairingCodes (capacity_step s env) = pairingCodes s.
Proof.
  unfold capacity_step, removeOldestTokenLocked.
  destruct (_ <=? _); [|done]. by destruct (find_oldest _) as [[?|] ?].
Qed.

Lemma capacity_step_config (s : Service) (env : RedeemEnv) :
  tokenExpiry (capacity_step s env) = tokenExpiry s
  ∧ maxActiveDevices (capacity_step s env) = maxActiveDevices s.
Proof.
  unfold capacity_step, removeOldestTokenLocked.
  destruct (_ <=? _); [|done]. by destruct (find_oldest _) as [[?|] ?].
Qed.

(** Past the three checks on the code, a redemption is the capacity step, the
    removal of the code and the issuance, in this order. *)
Lemma ValidatePairingCode_issue (s : Service) (code deviceID deviceName : string)
    (env : RedeemEnv) (pc : PairingCode) :
  pairingCodes s !! code = Some pc →
  now_expiry env ≤ pcExpiresAt pc →
  Used pc = false →
  ValidatePairingCode s code deviceID deviceName env
  = createTokenLocked
      (set_pairingCodes (delete code) (capacity_step s env))
      deviceID deviceName (rand_token env) (now_stamp env) (now_create env).
Proof.
  intros Hpc Hexp Hused. unfold ValidatePairingCode, After.
  rewrite Hpc, Hused. apply Z.ltb_ge in Hexp. rewrite Hexp.
  f_equal. unfold set_pairingCodes. cbn. f_equal. apply delete_insert_eq.
Qed.

Lemma ValidatePairingCode_absent (s : Service) (code deviceID deviceName : string)
    (env : RedeemEnv) :
  pairingCodes s !! code = None →
  ValidatePairingCode s code deviceID deviceName env = (Err ErrInvalidCode, s).
Proof. intros H. unfold ValidatePairingCode. by rewrite H. Qed.

Lemma createTokenLocked_Some (s : Service) (deviceID deviceName : string)
    (f : nat → ascii) (timestamp now : Z) :
  let tok := issued s deviceID deviceName f timestamp now in
  let kept :=
    match deviceTokens s !! deviceID with
    | Some oldToken => delete oldToken (tokens s)
    | None => tokens s
    end in
  createTokenLocked s deviceID deviceName (Some f) timestamp now
  = (Ok tok,
     mkService (pairingCodes s) (<[Value tok := tok]> kept)
       (<[deviceID := Value tok]> (deviceTokens s)) (codeLength s)
       (codeExpiry s) (tokenExpiry s) (maxActiveDevices s) (storagePath s)).
Proof. unfold createTokenLocked. cbn. by destruct (deviceTokens s !! deviceID). Qed.

Lemma createTokenLocked_None (s : Service) (deviceID deviceName : string)
    (timestamp now : Z) :
  let kept :=
    match deviceTokens s !! deviceID with
    | Some oldToken => delete oldToken (tokens s)
    | None => tokens s
    end in
  createTokenLocked s deviceID deviceName None timestamp now
  = (Err (Errorf "failed to generate token" ErrRand),
     mkService (pairingCodes s) kept (deviceTokens s) (codeLength s)
       (codeExpiry s) (tokenExpiry s) (maxActiveDevices s) (storagePath s)).
Proof.
  unfold createTokenLocked. cbn.
  destruct (deviceTokens s !! deviceID); by destruct s.
Qed.

(** C9: redeeming a stored code at a time strictly after its expiry fails
    with [ErrCodeExpired] and removes the code, and nothing else, so that any
    later redemption of the same code fails with [ErrInvalidCode]. *)
Theorem redeem_expired_code (s : Service) (code deviceID deviceName : string)
    (env : RedeemEnv) (pc : PairingCode) :
  pairingCodes s !! code = Some pc →
  pcExpiresAt pc < now_expiry env →
  ∃ s', ValidatePairingCode s code deviceID deviceName env
          = (Err ErrCodeExpired, s')
        ∧ pairingCodes s' = delete code (pairingCodes s)
        ∧ pairingCodes s' !! code = None
        ∧ tokens s' = tokens s
        ∧ deviceTokens s' = deviceTokens s
        ∧ ∀ deviceID' deviceName' env',
            ValidatePairingCode s' code deviceID' deviceName' env'
            = (Err ErrInvalidCode, s').
Proof.
  intros Hpc Hexp. unfold ValidatePairingCode at 1, After.
  rewrite Hpc. apply Z.ltb_lt in Hexp. rewrite Hexp.
  eexists. split; [reflexivity|]. cbn.
  split_and!; [done | apply lookup_delete_eq | done | done |].
  intros. apply ValidatePairingCode_absent. apply lookup_delete_eq.
Qed.

(** C2 (amended): redeeming a stored, unused, unexpired code succeeds when the
    random source delivers, and returns a credential bound to the given device
    with permissions read, write, execute, stored under its value and indexed
    under the device; the code is removed by that redemption, so redeeming it
    a second time fails with [ErrInvalidCode]. *)
Theorem redeem_once (s : Service) (code deviceID deviceName : string)
    (env : RedeemEnv) (pc : PairingCode) (f : nat → ascii) :
  pairingCodes s !! code = Some pc →
  Used pc = false →
  now_expiry env ≤ pcExpiresAt pc →
  rand_token env = Some f →
  ∃ tok s', ValidatePairingCode s code deviceID deviceName env = (Ok tok, s')
            ∧ DeviceID tok = deviceID
            ∧ DeviceName tok = deviceName
            ∧ Permissions tok = ["read"; "write"; "execute"]
            ∧ tokens s' !! Value tok = Some tok
            ∧ deviceTokens s' !! deviceID = Some (Value tok)
            ∧ pairingCodes s' = delete code (pairingCodes s)
            ∧ ∀ deviceID' deviceName' env',
                ValidatePairingCode s' code deviceID' deviceName' env'
                = (Err ErrInvalidCode, s').
Proof.
  intros Hpc Hused Hexp Hrand.
  rewrite (ValidatePairingCode_issue _ _ _ _ _ pc) by done.
  rewrite Hrand, createTokenLocked_Some. cbn.
  eexists _, _. split; [reflexivity|]. cbn.
  split_and!; try done.
  - apply lookup_insert_eq.
  - apply lookup_insert_eq.
  - by rewrite capacity_step_pairingCodes.
  - intros. apply ValidatePairingCode_absent. cbn. apply lookup_delete_eq.
Qed.

(** *** Capacity and eviction *)

Lemma capacity_step_spare (s : Service) (env : RedeemEnv) :
  activeCount (now_count env) (tokens s) < maxActiveDevices s →
  capacity_step s env = s.
Proof.
  intros H. unfold capacity_step. apply Z.leb_gt in H. by rewrite H.
Qed.

Lemma capacity_step_full (s : Service) (env : RedeemEnv) :
  range_order env ≡ₚ map_to_list (tokens s) →
  tokens s ≠ ∅ →
  maxActiveDevices s ≤ activeCount (now_count env) (tokens s) →
  ∃ vt victim,
    find_oldest (range_order env) = (Some vt, victim)
    ∧ tokens s !! victim = Some vt
    ∧ (∀ k t, tokens s !! k = Some t → LastUsedAt vt ≤ LastUsedAt t)
    ∧ tokens (capacity_step s env) = delete victim (tokens s)
    ∧ deviceTokens (capacity_step s env)
      = delete (DeviceID vt) (deviceTokens s).
Proof.
  intros Hperm Hne Hfull.
  destruct (find_oldest_range _ _ Hperm Hne) as (vt & victim & Hf & Hin & Hmin).
  exists vt, victim. unfold capacity_step, removeOldestTokenLocked.
  apply Z.leb_le in Hfull. rewrite Hfull, Hf. done.
Qed.

Lemma createTokenLocked_Ok (s : Service) (deviceID deviceName : string)
    (d : draw) (timestamp now : Z) (v : string) :
  generateSecureToken d timestamp = Ok v →
  let tok :=
    mkToken v deviceID deviceName now (Add now (tokenExpiry s)) now
      ["read"; "write"; "execute"] in
  let kept :=
    match deviceTokens s !! deviceID with
    | Some oldToken => delete oldToken (tokens s)
    | None => tokens s
    end in
  createTokenLocked s deviceID deviceName d timestamp now
  = (Ok tok,
     mkService (pairingCodes s) (<[v := tok]> kept)
       (<[deviceID := v]> (deviceTokens s)) (codeLength s)
       (codeExpiry s) (tokenExpiry s) (maxActiveDevices s) (storagePath s)).
Proof.
  intros Hgen. unfold createTokenLocked. rewrite Hgen. cbn.
  by destruct (deviceTokens s !! deviceID).
Qed.

Lemma createTokenLocked_Err (s : Service) (deviceID deviceName : string)
    (d : draw) (timestamp now : Z) (e : error) :
  generateSecureToken d timestamp = Err e →
  let kept :=
    match deviceTokens s !! deviceID with
    | Some oldToken => delete oldToken (tokens s)
    | None => tokens s
    end in
  createTokenLocked s deviceID deviceName d timestamp now
  = (Err (Errorf "failed to generate token" e),
     mkService (pairingCodes s) kept (deviceTokens s) (codeLength s)
       (codeExpiry s) (tokenExpiry s) (maxActiveDevices s) (storagePath s)).
Proof.
  intros Hgen. unfold createTokenLocked. rewrite Hgen. cbn.
  destruct (deviceTokens s !! deviceID); by destruct s.
Qed.

Lemma full_nonempty (s : Service) (now_at : string → Z) :
  0 < maxActiveDevices s →
  maxActiveDevices s ≤ activeCount now_at (tokens s) →
  tokens s ≠ ∅.
Proof.
  intros Hpos Hfull Hempty. rewrite Hempty, activeCount_empty in Hfull. lia.
Qed.

(** C4: with a positive ceiling reached by the count of non-expired
    credentials, redeeming a code for a device that is not bound succeeds
    (the random source delivering a value that is not in the table) and
    removes exactly one stored credential, one whose last-used time is minimal
    among all stored credentials; [ValidateToken] on its value then fails with
    [ErrInvalidToken], and every other stored credential is still present. *)
Theorem redeem_at_capacity (s : Service) (code deviceID deviceName : string)
    (env : RedeemEnv) (pc : PairingCode) (v : string) :
  pairingCodes s !! code = Some pc →
  Used pc = false →
  now_expiry env ≤ pcExpiresAt pc →
  range_order env ≡ₚ map_to_list (tokens s) →
  0 < maxActiveDevices s →
  maxActiveDevices s ≤ activeCount (now_count env) (tokens s) →
  deviceTokens s !! deviceID = None →
  generateSecureToken (rand_token env) (now_stamp env) = Ok v →
  tokens s !! v = None →
  ∃ victim vt tok s',
    ValidatePairingCode s code deviceID deviceName env = (Ok tok, s')
    ∧ Value tok = v ∧ DeviceID tok = deviceID
    ∧ tokens s !! victim = Some vt
    ∧ (∀ k t, tokens s !! k = Some t → LastUsedAt vt ≤ LastUsedAt t)
    ∧ tokens s' = <[v := tok]> (delete victim (tokens s))
    ∧ tokens s' !! victim = None
    ∧ (∀ k t, k ≠ victim → tokens s !! k = Some t → tokens s' !! k = Some t)
    ∧ (∀ now_check now_used,
         ValidateToken s' victim now_check now_used = (Err ErrInvalidToken, s')).
Proof.
  intros Hpc Hused Hexp Hperm Hpos Hfull Hunbound Hgen Hfresh.
  destruct (capacity_step_full s env Hperm (full_nonempty _ _ Hpos Hfull) Hfull)
    as (vt & victim & _ & Hvt & Hmin & Htok & Hdev).
  rewrite (ValidatePairingCode_issue _ _ _ _ _ pc) by done.
  rewrite (createTokenLocked_Ok _ _ _ _ _ _ v) by done. cbn.
  assert (Hd : delete (DeviceID vt) (deviceTokens s) !! deviceID = None)
    by (apply lookup_delete_None; auto).
  rewrite Hdev, Htok, Hd.
  assert (Hne : v ≠ victim) by (intros ->; congruence).
  assert (Hgone : ∀ x : Token, <[v := x]> (delete victim (tokens s)) !! victim = None).
  { intros x. rewrite lookup_insert_ne by done. apply lookup_delete_eq. }
  eexists victim, vt, _, _. split; [reflexivity|]. cbn.
  split_and!; try done.
  - intros k t Hk Hkt.
    rewrite lookup_insert_ne by (intros ->; congruence).
    by rewrite lookup_delete_ne.
  - intros. unfold ValidateToken. cbn. by rewrite Hgone.
Qed.

(** C3 (the defect): in a redemption the capacity step comes before the
    supersession, not after it.  The non-expired credentials are counted while
    the credential of the redeeming device is still stored, and once the count
    has reached the ceiling a credential with minimal last-used time is
    evicted; only then is the credential still indexed for the redeeming
    device removed.  So at the ceiling a redemption for a bound device evicts
    a credential on top of superseding the device's own one; whenever the
    evicted credential is not the device's own it belongs to another device,
    and the table ends one credential short of what it held, strictly below
    the ceiling when it held no more than the ceiling. *)
Theorem redeem_bound_at_capacity (s : Service) (code deviceID deviceName : string)
    (env : RedeemEnv) (pc : PairingCode) (v old : string) :
  consistent s →
  pairingCodes s !! code = Some pc →
  Used pc = false →
  now_expiry env ≤ pcExpiresAt pc →
  range_order env ≡ₚ map_to_list (tokens s) →
  maxActiveDevices s ≤ activeCount (now_count env) (tokens s) →
  deviceTokens s !! deviceID = Some old →
  generateSecureToken (rand_token env) (now_stamp env) = Ok v →
  tokens s !! v = None →
  ∃ victim vt tok s',
    ValidatePairingCode s code deviceID deviceName env = (Ok tok, s')
    ∧ Value tok = v ∧ DeviceID tok = deviceID
    ∧ tokens s !! victim = Some vt
    ∧ (∀ k t, tokens s !! k = Some t → LastUsedAt vt ≤ LastUsedAt t)
    ∧ tokens s' = <[v := tok]> (delete old (delete victim (tokens s)))
    ∧ tokens s' !! victim = None
    ∧ tokens s' !! old = None
    ∧ (victim ≠ old →
       DeviceID vt ≠ deviceID
       ∧ Z.of_nat (size (tokens s')) = Z.of_nat (size (tokens s)) - 1
       ∧ (Z.of_nat (size (tokens s)) ≤ maxActiveDevices s →
          Z.of_nat (size (tokens s')) < maxActiveDevices s)).
Proof.
  intros [Hidx Htab] Hpc Hused Hexp Hperm Hfull Hbound Hgen Hfresh.
  destruct (Hidx _ _ Hbound) as (ot & Hot & Hotdev).
  assert (Hne : tokens s ≠ ∅) by (intros E; by rewrite E, lookup_empty in Hot).
  destruct (capacity_step_full s env Hperm Hne Hfull)
    as (vt & victim & _ & Hvt & Hmin & Htok & Hdev).
  rewrite (ValidatePairingCode_issue _ _ _ _ _ pc) by done.
  rewrite (createTokenLocked_Ok _ _ _ _ _ _ v) by done. cbn.
  rewrite Hdev, Htok.
  assert (Hv1 : v ≠ victim) by (intros ->; congruence).
  assert (Hv2 : v ≠ old) by (intros ->; congruence).
  destruct (decide (victim = old)) as [->|Hvo].
  - (* the device's own credential is the oldest: the eviction takes it and
       its index row, and nothing is left to supersede *)
    assert (DeviceID vt = deviceID) as -> by congruence.
    rewrite lookup_delete_eq.
    eexists old, vt, _, _. split; [reflexivity|]. cbn.
    split_and!; try done; rewrite ?delete_delete_eq; try done;
      rewrite lookup_insert_ne by done; apply lookup_delete_eq.
  - assert (Hdevne : DeviceID vt ≠ deviceID).
    { intros E. apply Htab in Hvt. rewrite E, Hbound in Hvt. congruence. }
    rewrite lookup_delete_ne, Hbound by done.
    eexists victim, vt, _, _. split; [reflexivity|]. cbn.
    split_and!; try done.
    + rewrite lookup_insert_ne, lookup_delete_ne by done. apply lookup_delete_eq.
    + rewrite lookup_insert_ne by done. apply lookup_delete_eq.
    + intros _. split; [done|].
      assert (Hold : delete victim (tokens s) !! old = Some ot)
        by (by rewrite lookup_delete_ne).
      rewrite map_size_insert_None
        by (by rewrite !lookup_delete_ne by done).
      rewrite (map_size_delete_Some old) by eauto.
      rewrite (map_size_delete_Some victim) by eauto.
      pose proof (map_size_ne_0_lookup_2 _ old (ex_intro _ ot Hold)) as Hsz.
      rewrite (map_size_delete_Some victim) in Hsz by eauto. lia.
Qed.

(** C10 (amended): when the generation of the credential value fails after
    the checks on the code have passed, [ValidatePairingCode] returns an error
    and yet the code has been removed from the code table, the eviction of the
    capacity step (if the ceiling was reached) has already removed a stored
    credential and its index row, and, if the redeeming device is still bound
    when the issuance step runs, its old credential has been deleted from the
    credential table while the index still names the deleted value. *)
Theorem redeem_generation_failure (s : Service)
    (code deviceID deviceName : string) (env : RedeemEnv) (pc : PairingCode) :
  pairingCodes s !! code = Some pc →
  Used pc = false →
  now_expiry env ≤ pcExpiresAt pc →
  rand_token env = None →
  ∃ e s',
    ValidatePairingCode s code deviceID deviceName env = (Err e, s')
    ∧ pairingCodes s' = delete code (pairingCodes s)
    ∧ pairingCodes s' !! code = None
    ∧ deviceTokens s' = deviceTokens (capacity_step s env)
    ∧ (∀ old, deviceTokens (capacity_step s env) !! deviceID = Some old →
              tokens s' = delete old (tokens (capacity_step s env))
              ∧ tokens s' !! old = None
              ∧ deviceTokens s' !! deviceID = Some old)
    ∧ (deviceTokens (capacity_step s env) !! deviceID = None →
       tokens s' = tokens (capacity_step s env))
    ∧ (range_order env ≡ₚ map_to_list (tokens s) → tokens s ≠ ∅ →
       maxActiveDevices s ≤ activeCount (now_count env) (tokens s) →
       ∃ victim vt,
         tokens s !! victim = Some vt
         ∧ (∀ k t, tokens s !! k = Some t → LastUsedAt vt ≤ LastUsedAt t)
         ∧ tokens s' !! victim = None
         ∧ deviceTokens s' = delete (DeviceID vt) (deviceTokens s))
    ∧ (activeCount (now_count env) (tokens s) < maxActiveDevices s →
       ∀ old, deviceTokens s !! deviceID = Some old →
              tokens s' = delete old (tokens s)
              ∧ deviceTokens s' = deviceTokens s
              ∧ deviceTokens s' !! deviceID = Some old
              ∧ tokens s' !! old = None).
Proof.
  intros Hpc Hused Hexp Hrand.
  rewrite (ValidatePairingCode_issue _ _ _ _ _ pc) by done.
  rewrite Hrand, createTokenLocked_None. cbn.
  eexists _, _. split; [reflexivity|]. cbn.
  split_and!.
  - by rewrite capacity_step_pairingCodes.
  - apply lookup_delete_eq.
  - done.
  - intros old ->. split_and!; [done | apply lookup_delete_eq | done].
  - by intros ->.
  - intros Hperm Hne Hfull.
    destruct (capacity_step_full s env Hperm Hne Hfull)
      as (vt & victim & _ & Hvt & Hmin & Htok & Hdev).
    exists victim, vt. split_and!; [done | done | | done].
    rewrite Htok.
    destruct (deviceTokens (capacity_step s env) !! deviceID) as [old|].
    + apply lookup_delete_None. right. apply lookup_delete_eq.
    + apply lookup_delete_eq.
  - intros Hspare old Hold. rewrite (capacity_step_spare _ _ Hspare), Hold.
    split_and!; [done | done | done | apply lookup_delete_eq].
Qed.

(** ** Refresh *)

(** C5 (amended): on a stored credential that has not expired [RefreshToken]
    sets the expiry to the clock reading plus the credential TTL and the
    last-used time to the clock reading, and returns the credential; the new
    expiry is later than the old one exactly when the old one is earlier than
    that sum, as it is for a credential issued or refreshed under the same TTL
    at an earlier reading.  On a stored credential whose expiry is in the past
    it fails with [ErrTokenExpired] and removes the credential and the index
    row of its device. *)
Theorem RefreshToken_spec (s : Service) (v : string)
    (now_check now_expires now_used : Z) :
  match tokens s !! v with
  | None =>
      RefreshToken s v now_check now_expires now_used = (Err ErrInvalidToken, s)
  | Some tok =>
      if bool_decide (ExpiresAt tok < now_check) then
        ∃ s', RefreshToken s v now_check now_expires now_used
                = (Err ErrTokenExpired, s')
              ∧ tokens s' = delete v (tokens s)
              ∧ deviceTokens s' = delete (DeviceID tok) (deviceTokens s)
              ∧ tokens s' !! v = None
              ∧ deviceTokens s' !! DeviceID tok = None
      else
        ∃ tok' s', RefreshToken s v now_check now_expires now_used
                     = (Ok tok', s')
              ∧ tok' = set_LastUsedAt now_used
                         (set_ExpiresAt (now_expires + tokenExpiry s) tok)
              ∧ ExpiresAt tok' = now_expires + tokenExpiry s
              ∧ LastUsedAt tok' = now_used
              ∧ tokens s' = <[v := tok']> (tokens s)
              ∧ deviceTokens s' = deviceTokens s
              ∧ (ExpiresAt tok < ExpiresAt tok'
                 ↔ ExpiresAt tok < now_expires + tokenExpiry s)
              ∧ (∀ t0, ExpiresAt tok = t0 + tokenExpiry s → t0 < now_expires →
                       ExpiresAt tok < ExpiresAt tok')
  end.
Proof.
  unfold RefreshToken, After, Add.
  destruct (tokens s !! v) as [tok|] eqn:Hlook; [|reflexivity].
  case_bool_decide as Hexp.
  - apply Z.ltb_lt in Hexp. rewrite Hexp.
    eexists; split; [reflexivity|]. cbn.
    split_and!; try done; apply lookup_delete_eq.
  - apply Z.ltb_nlt in Hexp. rewrite Hexp.
    eexists _, _; split; [reflexivity|]. cbn.
    split_and!; try done. intros t0 -> ?. lia.
Qed.

(** ** Persistence *)

Lemma SaveState_written (s : Service) (env : SaveEnv) (data : Data) :
  SaveState s env = (None, Some data) →
  storagePath s ≠ ""
  ∧ json_MarshalIndent
      (mkPersistedState
         (Some <$> copy_if (unexpired (now_save env)) (tokens s) ∅)
         (copy_if (targets (copy_if (unexpired (now_save env)) (tokens s) ∅))
            (deviceTokens s) ∅)
         (now_saved env))
    = Ok data.
Proof.
  unfold SaveState. destruct (decide (storagePath s = "")); [done|].
  destruct (mkdir_fails env); [done|].
  destruct (json_MarshalIndent _) as [d|e]; [|done].
  destruct (write_fails env); [done|]. by intros [= ->].
Qed.

Lemma unexpired_copy_lookup (now : Z) (src : gmap string Token) (k : string) :
  copy_if (unexpired now) src ∅ !! k
  = match src !! k with
    | Some t => if bool_decide (now < ExpiresAt t) then Some t else None
    | None => None
    end.
Proof.
  rewrite copy_if_lookup, lookup_empty. unfold unexpired, Before.
  destruct (src !! k) as [t|]; [|done].
  case_bool_decide as H; [apply Z.ltb_lt in H | apply Z.ltb_nlt in H];
    by rewrite H.
Qed.

(** C6 (amended): a store with empty tables that loads the document written
    by [SaveState] holds exactly the credentials of the saved store whose
    expiry is in the future at the time of the save and still at the time of
    the load, each with all its fields, and exactly the index rows of the saved
    store whose target is among them; the codec is assumed to decode what it
    encoded. *)
Theorem save_load_roundtrip (s s0 : Service) (env : SaveEnv) (data : Data)
    (now_load : Z) :
  (∀ st d, json_MarshalIndent st = Ok d → json_Unmarshal d = Ok st) →
  SaveState s env = (None, Some data) →
  storagePath s0 ≠ "" →
  tokens s0 = ∅ →
  deviceTokens s0 = ∅ →
  ∃ s', LoadState s0 (ReadData data) now_load = Some (None, s')
        ∧ (∀ k t, tokens s' !! k = Some t ↔
                  tokens s !! k = Some t
                  ∧ now_save env < ExpiresAt t ∧ now_load < ExpiresAt t)
        ∧ (∀ d v, deviceTokens s' !! d = Some v ↔
                  deviceTokens s !! d = Some v ∧ is_Some (tokens s' !! v))
        ∧ (now_save env ≤ now_load →
           ∀ k t, tokens s' !! k = Some t ↔
                  tokens s !! k = Some t ∧ now_load < ExpiresAt t)
        ∧ pairingCodes s' = pairingCodes s0.
Proof.
  intros Hjson [_ Hdata%Hjson]%SaveState_written Hpath Htok Hdev.
  unfold LoadState. rewrite decide_False by done. rewrite Hdata. cbn.
  rewrite load_tokens_fmap. cbn. rewrite Htok, Hdev.
  eexists. split; [reflexivity|]. cbn.
  set (saved := copy_if (unexpired (now_save env)) (tokens s) ∅).
  set (loaded := copy_if (unexpired now_load) saved ∅).
  assert (Htoks : ∀ k t, loaded !! k = Some t ↔
    tokens s !! k = Some t ∧ now_save env < ExpiresAt t ∧ now_load < ExpiresAt t).
  { intros k t. unfold loaded, saved. rewrite !unexpired_copy_lookup.
    destruct (tokens s !! k) as [t'|]; [|by split; [|intros [? _]]].
    destruct (decide (now_save env < ExpiresAt t')) as [H1|H1];
      [rewrite (bool_decide_true _ H1) | rewrite (bool_decide_false _ H1)];
      [|split; [done | intros ([= ->] & ? & ?); lia]].
    destruct (decide (now_load < ExpiresAt t')) as [H2|H2];
      [rewrite (bool_decide_true _ H2) | rewrite (bool_decide_false _ H2)];
      [|split; [done | intros ([= ->] & ? & ?); lia]].
    split; [by intros [= <-] | by intros ([= ->] & _)]. }
  assert (Hsub : ∀ k, is_Some (loaded !! k) → is_Some (saved !! k)).
  { intros k [t Ht]. unfold loaded in Ht. rewrite copy_if_lookup in Ht.
    destruct (saved !! k); [by eexists | by rewrite lookup_empty in Ht]. }
  split_and!; [done | | | done].
  - intros d v.
    rewrite (copy_if_lookup (targets loaded)), (copy_if_lookup (targets saved)).
    rewrite lookup_empty. unfold targets.
    destruct (deviceTokens s !! d) as [v'|]; [|by split; [|intros [? _]]].
    destruct (decide (is_Some (loaded !! v'))) as [Hl|Hl].
    + rewrite (bool_decide_true _ (Hsub _ Hl)), (bool_decide_true _ Hl).
      split; [by intros [= <-] | by intros [[= <-] _]].
    + assert (Hnone : (if bool_decide (is_Some (saved !! v')) then
                         if bool_decide (is_Some (loaded !! v'))
                         then Some v' else None
                       else None) = None).
      { rewrite (bool_decide_false _ Hl). by destruct (bool_decide _). }
      destruct (bool_decide (is_Some (saved !! v'))); rewrite ?Hnone;
        rewrite ?(bool_decide_false _ Hl);
        (split; [done | by intros [[= <-] ?]]).
  - intros Hmono k t. rewrite Htoks. intuition lia.
Qed.

(** ** The index invariant *)

Lemma consistent_index_consistent (s : Service) :
  consistent s → index_consistent s.
Proof.
  intros [Hidx Htab]. split; [|done].
  intros d v (t & Ht & _)%Hidx. by eexists.
Qed.

Lemma maps_consistent_empty : maps_consistent ∅ ∅.
Proof. split; intros ??; by rewrite lookup_empty. Qed.

(** Removing a credential together with the row of its device. *)
Lemma maps_consistent_remove (toks : gmap string Token)
    (devs : gmap string string) (v : string) (t : Token) :
  maps_consistent toks devs → toks !! v = Some t →
  maps_consistent (delete v toks) (delete (DeviceID t) devs).
Proof.
  intros [Hidx Htab] Hv. split.
  - intros d v' [Hd Hrow]%lookup_delete_Some.
    destruct (Hidx _ _ Hrow) as (t' & Ht' & Hdev). exists t'. split; [|done].
    rewrite lookup_delete_ne; [done|]. intros <-. congruence.
  - intros v' t' [Hne Ht']%lookup_delete_Some.
    rewrite lookup_delete_ne; [by apply Htab|].
    intros E. apply Htab in Hv, Ht'. rewrite E in Hv. congruence.
Qed.

(** Updating a stored credential without changing its device. *)
Lemma maps_consistent_update (toks : gmap string Token)
    (devs : gmap string string) (v : string) (t t' : Token) :
  maps_consistent toks devs → toks !! v = Some t → DeviceID t' = DeviceID t →
  maps_consistent (<[v := t']> toks) devs.
Proof.
  intros [Hidx Htab] Hv Hdev. split.
  - intros d v' Hrow. destruct (Hidx _ _ Hrow) as (t1 & Ht1 & Hd1).
    destruct (decide (v = v')) as [<-|Hne].
    + exists t'. rewrite lookup_insert_eq. split; [done|]. congruence.
    + exists t1. by rewrite lookup_insert_ne.
  - intros v' t1. destruct (decide (v = v')) as [<-|Hne].
    + rewrite lookup_insert_eq. intros [= <-]. rewrite Hdev. by apply Htab.
    + rewrite lookup_insert_ne by done. apply Htab.
Qed.

(** Superseding the credential of a device by a fresh one. *)
Lemma maps_consistent_issue (toks : gmap string Token)
    (devs : gmap string string) (v deviceID : string) (tok : Token) :
  maps_consistent toks devs → toks !! v = None → DeviceID tok = deviceID →
  maps_consistent
    (<[v := tok]> match devs !! deviceID with
                  | Some oldToken => delete oldToken toks
                  | None => toks
                  end)
    (<[deviceID := v]> devs).
Proof.
  intros [Hidx Htab] Hfresh Hdev.
  assert (Hkept : ∀ v' t',
    match devs !! deviceID with
    | Some oldToken => delete oldToken toks
    | None => toks
    end !! v' = Some t' ↔ toks !! v' = Some t' ∧ DeviceID t' ≠ deviceID).
  { intros v' t'. destruct (devs !! deviceID) as [old|] eqn:Hold.
    - rewrite lookup_delete_Some. split.
      + intros [Hne Ht']. split; [done|]. intros E.
        apply Htab in Ht'. rewrite E in Ht'. congruence.
      + intros [Ht' Hne]. split; [|done]. intros <-.
        destruct (Hidx _ _ Hold) as (t1 & Ht1 & Hd1). congruence.
    - split; [|by intros [? _]]. intros Ht'. split; [done|]. intros E.
      apply Htab in Ht'. rewrite E in Ht'. congruence. }
  split.
  - intros d v'. destruct (decide (deviceID = d)) as [<-|Hne].
    + rewrite lookup_insert_eq. intros [= <-]. exists tok.
      by rewrite lookup_insert_eq.
    + rewrite lookup_insert_ne by done. intros Hrow.
      destruct (Hidx _ _ Hrow) as (t' & Ht' & Hd). exists t'. split; [|done].
      rewrite lookup_insert_ne by (intros <-; congruence).
      apply Hkept. split; [done | congruence].
  - intros v' t'. destruct (decide (v = v')) as [<-|Hne].
    + rewrite lookup_insert_eq. intros [= <-]. rewrite Hdev.
      apply lookup_insert_eq.
    + rewrite lookup_insert_ne by done. intros [Ht' Hd]%Hkept.
      rewrite lookup_insert_ne by done. by apply Htab.
Qed.

Lemma ValidateToken_consistent (s : Service) (v : string) (now_check now_used : Z) :
  consistent s → consistent (ValidateToken s v now_check now_used).2.
Proof.
  intros Hc. unfold ValidateToken.
  destruct (tokens s !! v) as [tok|] eqn:Hv; [|done].
  destruct (After _ _); cbn.
  - by apply maps_consistent_remove.
  - by eapply maps_consistent_update.
Qed.

Lemma RefreshToken_consistent (s : Service) (v : string)
    (now_check now_expires now_used : Z) :
  consistent s →
  consistent (RefreshToken s v now_check now_expires now_used).2.
Proof.
  intros Hc. unfold RefreshToken.
  destruct (tokens s !! v) as [tok|] eqn:Hv; [|done].
  destruct (After _ _); cbn.
  - by apply maps_consistent_remove.
  - by eapply maps_consistent_update.
Qed.

Lemma RevokeToken_consistent (s : Service) (v : string) :
  consistent s → consistent (RevokeToken s v).2.
Proof.
  intros Hc. unfold RevokeToken.
  destruct (tokens s !! v) as [tok|] eqn:Hv; [|done].
  by apply maps_consistent_remove.
Qed.

Lemma RevokeDevice_consistent (s : Service) (deviceID : string) :
  consistent s → consistent (RevokeDevice s deviceID).2.
Proof.
  intros Hc. unfold RevokeDevice.
  destruct (deviceTokens s !! deviceID) as [v|] eqn:Hd; [|done].
  destruct (proj1 Hc _ _ Hd) as (t & Ht & <-).
  by apply maps_consistent_remove.
Qed.

Lemma removeOldestTokenLocked_consistent (s : Service)
    (order : list (string * Token)) :
  order ≡ₚ map_to_list (tokens s) →
  consistent s → consistent (removeOldestTokenLocked s order).
Proof.
  intros Hperm Hc. unfold removeOldestTokenLocked.
  destruct (decide (tokens s = ∅)) as [Hempty|Hne].
  - rewrite Hempty, map_to_list_empty in Hperm.
    apply Permutation_nil_r in Hperm as ->. done.
  - destruct (find_oldest_range _ _ Hperm Hne) as (t & k & -> & Hk & _).
    by apply maps_consistent_remove.
Qed.

Lemma capacity_step_consistent (s : Service) (env : RedeemEnv) :
  range_order env ≡ₚ map_to_list (tokens s) →
  consistent s → consistent (capacity_step s env).
Proof.
  intros Hperm Hc. unfold capacity_step.
  destruct (_ <=? _); [by apply removeOldestTokenLocked_consistent | done].
Qed.

Lemma capacity_step_tokens_subseteq (s : Service) (env : RedeemEnv) :
  tokens (capacity_step s env) ⊆ tokens s.
Proof.
  unfold capacity_step, removeOldestTokenLocked.
  destruct (_ <=? _); [|done].
  destruct (find_oldest _) as [[t|] k]; [apply delete_subseteq | done].
Qed.

(** A redemption that does not end in a failure of the random source keeps
    the invariant, the generated value being one that is not stored. *)
Lemma ValidatePairingCode_consistent (s : Service)
    (code deviceID deviceName : string) (env : RedeemEnv) (v : string) :
  range_order env ≡ₚ map_to_list (tokens s) →
  generateSecureToken (rand_token env) (now_stamp env) = Ok v →
  tokens s !! v = None →
  consistent s →
  consistent (ValidatePairingCode s code deviceID deviceName env).2.
Proof.
  intros Hperm Hgen Hfresh Hc. unfold ValidatePairingCode.
  destruct (pairingCodes s !! code) as [pc|]; [|done].
  destruct (After _ _); [done|]. destruct (Used pc); [done|].
  rewrite (createTokenLocked_Ok _ _ _ _ _ _ v) by done. cbn.
  apply maps_consistent_issue; [by apply capacity_step_consistent | | done].
  eapply lookup_weaken_None; [done | apply capacity_step_tokens_subseteq].
Qed.

Lemma GeneratePairingCode_consistent (s : Service) (now_purge now : Z)
    (d : draw) (retries : list draw) (r : result PairingCode) (s' : Service) :
  GeneratePairingCode s now_purge now d retries = Done (r, s') →
  consistent s → consistent s'.
Proof.
  unfold GeneratePairingCode.
  destruct (generateNumericCode _ d) as [[code|e]|]; [| by intros [= <- <-] | done].
  destruct (unique_code_loop _ _ _ _) as [[c|e]| |]; [| | done..];
    by intros [= <- <-].
Qed.

Lemma sweep_fold_consistent (now : Z) (toks : gmap string Token)
    (devs : gmap string string) (m : gmap string Token) :
  maps_consistent toks devs → m ⊆ toks →
  maps_consistent
    (map_fold (λ tokenValue token acc,
                 if After now (ExpiresAt token)
                 then (delete tokenValue acc.1, delete (DeviceID token) acc.2)
                 else acc) (toks, devs) m).1
    (map_fold (λ tokenValue token acc,
                 if After now (ExpiresAt token)
                 then (delete tokenValue acc.1, delete (DeviceID token) acc.2)
                 else acc) (toks, devs) m).2
  ∧ ∀ k, m !! k = None →
         (map_fold (λ tokenValue token acc,
                      if After now (ExpiresAt token)
                      then (delete tokenValue acc.1, delete (DeviceID token) acc.2)
                      else acc) (toks, devs) m).1 !! k = toks !! k.
Proof.
  intros Hc. revert m.
  apply (map_fold_weak_ind
    (λ (r : gmap string Token * gmap string string) (m : gmap string Token),
       m ⊆ toks →
       maps_consistent r.1 r.2 ∧ ∀ k, m !! k = None → r.1 !! k = toks !! k)).
  - done.
  - intros i x m r Hi IH Hsub.
    assert (Hm : m ⊆ toks).
    { etrans; [|exact Hsub]. by apply insert_subseteq. }
    assert (Hx : toks !! i = Some x).
    { eapply lookup_weaken; [|exact Hsub]. apply lookup_insert_eq. }
    destruct (IH Hm) as [Hr Hun].
    assert (Hri : r.1 !! i = Some x) by (by rewrite Hun).
    destruct (After now (ExpiresAt x)); cbn.
    + split; [by apply maps_consistent_remove|].
      intros k [Hk Hne]%lookup_insert_None.
      rewrite lookup_delete_ne by done. by apply Hun.
    + split; [done|]. intros k [Hk Hne]%lookup_insert_None. by apply Hun.
Qed.

Lemma cleanupExpired_consistent (s : Service) (now : Z) :
  consistent s → consistent (cleanupExpired s now).
Proof.
  intros Hc. unfold cleanupExpired, consistent, sweep_tokens. cbn.
  by apply sweep_fold_consistent.
Qed.

(** What [SaveState] writes from a consistent store is consistent, and loading
    a consistent document into empty tables gives a consistent store. *)
Lemma saved_maps_consistent (now : Z) (toks : gmap string Token)
    (devs : gmap string string) :
  maps_consistent toks devs →
  maps_consistent (copy_if (unexpired now) toks ∅)
    (copy_if (targets (copy_if (unexpired now) toks ∅)) devs ∅).
Proof.
  intros [Hidx Htab].
  set (kept := copy_if (unexpired now) toks ∅).
  assert (Hkept : ∀ v t, kept !! v = Some t → toks !! v = Some t).
  { intros v t. unfold kept. rewrite copy_if_lookup, lookup_empty.
    destruct (toks !! v) as [t'|]; [|done]. by destruct (unexpired _ _ _). }
  split.
  - intros d v. rewrite copy_if_lookup, lookup_empty. unfold targets.
    destruct (devs !! d) as [v'|] eqn:Hd; [|done].
    case_bool_decide as Hsome; [|done]. intros [= <-].
    destruct Hsome as [t Ht]. exists t. split; [done|].
    apply Hkept in Ht. destruct (Hidx _ _ Hd) as (t' & Ht' & <-). congruence.
  - intros v t Ht. rewrite copy_if_lookup, lookup_empty. unfold targets.
    rewrite (Htab v t) by by apply Hkept.
    by rewrite bool_decide_true by by eexists.
Qed.

Lemma LoadState_consistent (s0 : Service) (file : ReadFile) (now : Z)
    (err : option error) (s' : Service) :
  tokens s0 = ∅ → deviceTokens s0 = ∅ →
  (∀ data st, file = ReadData data → json_Unmarshal data = Ok st →
              maps_consistent (omap id (psTokens st)) (psDeviceTokens st)) →
  LoadState s0 file now = Some (err, s') →
  consistent s'.
Proof.
  intros Htok Hdev Hdoc.
  assert (Hc0 : consistent s0).
  { unfold consistent. rewrite Htok, Hdev. apply maps_consistent_empty. }
  unfold LoadState. destruct (decide _); [by intros [= <- <-]|].
  destruct file as [| |data]; [by intros [= <- <-].. |].
  destruct (json_Unmarshal data) as [st|e] eqn:Hst; [|by intros [= <- <-]].
  destruct (load_tokens now (psTokens st) (tokens s0)) as [toks|] eqn:Hl;
    [|done].
  cbn. intros [= <- <-]. apply load_tokens_Some in Hl as [_ ->].
  unfold consistent. cbn. rewrite Htok, Hdev.
  by apply saved_maps_consistent, (Hdoc data).
Qed.

(** C7 (the defect): a redemption for a device that is already bound, in a
    consistent store below the ceiling, that fails in the random source returns
    an error and leaves the index naming a credential that is no longer in the
    credential table, so the index invariant does not hold at that operation
    boundary. *)
Theorem redeem_failure_breaks_index (s : Service)
    (code deviceID deviceName : string) (env : RedeemEnv) (pc : PairingCode)
    (old : string) :
  consistent s →
  pairingCodes s !! code = Some pc →
  Used pc = false →
  now_expiry env ≤ pcExpiresAt pc →
  activeCount (now_count env) (tokens s) < maxActiveDevices s →
  deviceTokens s !! deviceID = Some old →
  rand_token env = None →
  ∃ e s',
    ValidatePairingCode s code deviceID deviceName env = (Err e, s')
    ∧ deviceTokens s' !! deviceID = Some old
    ∧ tokens s' !! old = None
    ∧ ¬ index_consistent s'.
Proof.
  intros Hc Hpc Hused Hexp Hspare Hbound Hrand.
  rewrite (ValidatePairingCode_issue _ _ _ _ _ pc) by done.
  rewrite Hrand, createTokenLocked_None, (capacity_step_spare _ _ Hspare). cbn.
  rewrite Hbound.
  eexists _, _. split; [reflexivity|]. cbn.
  split_and!; [done | apply lookup_delete_eq |].
  intros [Hidx _]. cbn in Hidx.
  destruct (Hidx _ _ Hbound) as [t Ht]. by rewrite lookup_delete_eq in Ht.
Qed.


(** ** Further properties of the credential store *)

(** X1: [RevokeToken] returns true exactly when the value is stored; it
    removes that credential and nothing else from the credential table, leaves
    the pairing codes alone, and afterwards the value neither validates nor
    revokes again. *)
Theorem RevokeToken_revokes (s : Service) (v : string) :
  ((RevokeToken s v).1 = true ↔ is_Some (tokens s !! v))
  ∧ tokens (RevokeToken s v).2 = delete v (tokens s)
  ∧ pairingCodes (RevokeToken s v).2 = pairingCodes s
  ∧ (∀ d, (∀ t, tokens s !! v = Some t → DeviceID t ≠ d) →
          deviceTokens (RevokeToken s v).2 !! d = deviceTokens s !! d)
  ∧ (∀ now_check now_used,
       ValidateToken (RevokeToken s v).2 v now_check now_used
       = (Err ErrInvalidToken, (RevokeToken s v).2))
  ∧ RevokeToken (RevokeToken s v).2 v = (false, (RevokeToken s v).2).
Proof.
  destruct (tokens s !! v) as [t|] eqn:Hv.
  - assert (Hrev : RevokeToken s v
                   = (true, set_deviceTokens (delete (DeviceID t))
                              (set_tokens (delete v) s)))
      by (unfold RevokeToken; by rewrite Hv).
    rewrite !Hrev. cbn. split_and!.
    + split; [by eexists | done].
    + done.
    + done.
    + intros d Hd. apply lookup_delete_ne. by apply (Hd t).
    + intros. unfold ValidateToken. cbn. by rewrite lookup_delete_eq.
    + unfold RevokeToken. cbn. by rewrite lookup_delete_eq.
  - assert (Hrev : RevokeToken s v = (false, s))
      by (unfold RevokeToken; by rewrite Hv).
    rewrite !Hrev. cbn. split_and!.
    + split; [done | by intros [? ?]].
    + by rewrite delete_id.
    + done.
    + done.
    + intros. unfold ValidateToken. by rewrite Hv.
    + done.
Qed.

(** X2: in a consistent store [RevokeDevice] returns true exactly when some
    stored credential belongs to the device; afterwards no stored credential
    belongs to it and it has no index row, the credentials of the other
    devices are all still stored, and the store is consistent. *)
Theorem RevokeDevice_unbinds (s : Service) (deviceID : string) :
  consistent s →
  ((RevokeDevice s deviceID).1 = true ↔
     ∃ v t, tokens s !! v = Some t ∧ DeviceID t = deviceID)
  ∧ (∀ v t, tokens (RevokeDevice s deviceID).2 !! v = Some t →
            DeviceID t ≠ deviceID)
  ∧ (∀ v t, tokens s !! v = Some t → DeviceID t ≠ deviceID →
            tokens (RevokeDevice s deviceID).2 !! v = Some t)
  ∧ deviceTokens (RevokeDevice s deviceID).2 !! deviceID = None
  ∧ consistent (RevokeDevice s deviceID).2.
Proof.
  intros Hc. pose proof (RevokeDevice_consistent s deviceID Hc) as Hc'.
  destruct Hc as [Hidx Htab]. unfold RevokeDevice in *.
  destruct (deviceTokens s !! deviceID) as [old|] eqn:Hd; cbn in *.
  - destruct (Hidx _ _ Hd) as (ot & Hot & Hdev).
    split_and!; [| | | apply lookup_delete_eq | done].
    + split; [intros _; by exists old, ot | done].
    + intros v t [Hne Ht]%lookup_delete_Some E.
      apply Htab in Ht. rewrite E, Hd in Ht. congruence.
    + intros v t Ht Hne. apply lookup_delete_Some. split; [|done].
      intros <-. congruence.
  - split_and!; [| | done | done | done].
    + split; [done|]. intros (v & t & Ht & E).
      apply Htab in Ht. rewrite E, Hd in Ht. done.
    + intros v t Ht E. apply Htab in Ht. rewrite E, Hd in Ht. done.
Qed.

(** X3: validation, refresh, both revocations, a tick of the sweeper and the
    issue of a pairing code each keep a consistent store consistent, whatever
    their arguments, clock readings and result. *)
Theorem operations_keep_index (s : Service) :
  consistent s →
  (∀ v now_check now_used,
     consistent (ValidateToken s v now_check now_used).2)
  ∧ (∀ v now_check now_expires now_used,
       consistent (RefreshToken s v now_check now_expires now_used).2)
  ∧ (∀ v, consistent (RevokeToken s v).2)
  ∧ (∀ d, consistent (RevokeDevice s d).2)
  ∧ (∀ now, consistent (cleanupExpired s now))
  ∧ (∀ now_purge now d retries r s',
       GeneratePairingCode s now_purge now d retries = Done (r, s') →
       consistent s').
Proof.
  intros Hc. split_and!; intros.
  - by apply ValidateToken_consistent.
  - by apply RefreshToken_consistent.
  - by apply RevokeToken_consistent.
  - by apply RevokeDevice_consistent.
  - by apply cleanupExpired_consistent.
  - by eapply GeneratePairingCode_consistent.
Qed.

(** *** The sweeper *)

Lemma sweep_fold_fst_lookup (now : Z) (toks : gmap string Token)
    (devs : gmap string string) (m : gmap string Token) (k : string) :
  (map_fold (λ tokenValue token acc,
               if After now (ExpiresAt token)
               then (delete tokenValue acc.1, delete (DeviceID token) acc.2)
               else acc) (toks, devs) m).1 !! k
  = match m !! k with
    | Some t => if After now (ExpiresAt t) then None else toks !! k
    | None => toks !! k
    end.
Proof.
  revert k.
  apply (map_fold_weak_ind
    (λ (r : gmap string Token * gmap string string) (m' : gmap string Token),
       ∀ k, r.1 !! k = match m' !! k with
                       | Some t => if After now (ExpiresAt t) then None
                                   else toks !! k
                       | None => toks !! k
                       end)).
  - intros k. by rewrite lookup_empty.
  - intros i x m' r Hi IH k.
    destruct (decide (i = k)) as [->|Hne].
    + rewrite lookup_insert_eq. specialize (IH k). rewrite Hi in IH.
      destruct (After now (ExpiresAt x)); [apply lookup_delete_eq | done].
    + rewrite lookup_insert_ne by done.
      destruct (After now (ExpiresAt x)); cbn;
        [rewrite lookup_delete_ne by done|]; apply IH.
Qed.

Lemma sweep_tokens_fst_lookup (now : Z) (toks : gmap string Token)
    (devs : gmap string string) (k : string) :
  (sweep_tokens now toks devs).1 !! k
  = match toks !! k with
    | Some t => if After now (ExpiresAt t) then None else Some t
    | None => None
    end.
Proof.
  unfold sweep_tokens. rewrite sweep_fold_fst_lookup.
  destruct (toks !! k) as [t|]; [|done]. by destruct (After _ _).
Qed.

Lemma sweep_fold_snd_lookup (now : Z) (toks : gmap string Token)
    (devs : gmap string string) (m : gmap string Token) (d v : string) :
  (map_fold (λ tokenValue token acc,
               if After now (ExpiresAt token)
               then (delete tokenValue acc.1, delete (DeviceID token) acc.2)
               else acc) (toks, devs) m).2 !! d = Some v
  ↔ devs !! d = Some v
    ∧ ∀ k t, m !! k = Some t → After now (ExpiresAt t) = true → DeviceID t ≠ d.
Proof.
  revert d v.
  apply (map_fold_weak_ind
    (λ (r : gmap string Token * gmap string string) (m' : gmap string Token),
       ∀ d v, r.2 !! d = Some v ↔
              devs !! d = Some v
              ∧ ∀ k t, m' !! k = Some t → After now (ExpiresAt t) = true →
                       DeviceID t ≠ d)).
  - intros d v. split; [|by intros [? _]].
    intros H. split; [done|]. intros k t. by rewrite lookup_empty.
  - intros i x m' r Hi IH d v.
    destruct (After now (ExpiresAt x)) eqn:Hx; cbn.
    + rewrite lookup_delete_Some, IH. split.
      * intros (Hne & Hd & Hall). split; [done|]. intros k t.
        destruct (decide (i = k)) as [->|Hik].
        -- rewrite lookup_insert_eq. by intros [= <-] _.
        -- rewrite lookup_insert_ne by done. apply Hall.
      * intros (Hd & Hall). split_and!; [|done|].
        -- apply (Hall i x); [apply lookup_insert_eq | done].
        -- intros k t Hk. apply (Hall k t).
           rewrite lookup_insert_ne; [done|]. intros <-. congruence.
    + rewrite IH. split; intros (Hd & Hall); (split; [done|]); intros k t.
      * destruct (decide (i = k)) as [->|Hik].
        -- rewrite lookup_insert_eq. intros [= <-]. congruence.
        -- rewrite lookup_insert_ne by done. apply Hall.
      * intros Hk. apply (Hall k t).
        rewrite lookup_insert_ne; [done|]. intros <-. congruence.
Qed.

(** X4: one tick of the sweeper keeps exactly the credentials whose expiry is
    not before the clock reading and exactly the pairing codes that are unused
    and whose expiry is not before it; in a consistent store it keeps exactly
    the index rows of the credentials it keeps, and the configuration is
    untouched. *)
Theorem cleanupExpired_sweeps (s : Service) (now : Z) :
  consistent s →
  (∀ k t, tokens (cleanupExpired s now) !! k = Some t ↔
          tokens s !! k = Some t ∧ now ≤ ExpiresAt t)
  ∧ (∀ k pc, pairingCodes (cleanupExpired s now) !! k = Some pc ↔
             pairingCodes s !! k = Some pc
             ∧ now ≤ pcExpiresAt pc ∧ Used pc = false)
  ∧ (∀ d v, deviceTokens (cleanupExpired s now) !! d = Some v ↔
            deviceTokens s !! d = Some v
            ∧ is_Some (tokens (cleanupExpired s now) !! v))
  ∧ maxActiveDevices (cleanupExpired s now) = maxActiveDevices s
  ∧ tokenExpiry (cleanupExpired s now) = tokenExpiry s.
Proof.
  intros [Hidx Htab].
  assert (Htok : ∀ k t, tokens (cleanupExpired s now) !! k = Some t ↔
                        tokens s !! k = Some t ∧ now ≤ ExpiresAt t).
  { intros k t. cbn. rewrite sweep_tokens_fst_lookup. unfold After.
    destruct (tokens s !! k) as [t'|]; [|by split; [|intros [? _]]].
    destruct (ExpiresAt t' <? now) eqn:E;
      [apply Z.ltb_lt in E | apply Z.ltb_ge in E].
    - split; [done | intros [[= ->] ?]; lia].
    - split; [by intros [= ->] | by intros [[= ->] _]]. }
  split_and!; [done | | | done | done].
  - intros k pc. cbn. rewrite purge_codes_lookup. unfold After.
    destruct (pairingCodes s !! k) as [p|]; [|by split; [|intros [? _]]].
    destruct (pcExpiresAt p <? now) eqn:E1, (Used p) eqn:E2; cbn;
      [apply Z.ltb_lt in E1..|apply Z.ltb_ge in E1|apply Z.ltb_ge in E1];
      (split; [intros [= <-] | intros ([= <-] & ? & ?)]);
      try done; try lia; try congruence.
  - intros d v. cbn -[sweep_tokens]. unfold sweep_tokens.
    rewrite sweep_fold_snd_lookup. split.
    + intros [Hd Hall]. split; [done|].
      destruct (Hidx _ _ Hd) as (t & Ht & Hdev).
      exists t. apply Htok. split; [done|].
      destruct (After now (ExpiresAt t)) eqn:E.
      * by destruct (Hall v t Ht E).
      * unfold After in E. by apply Z.ltb_ge in E.
    + intros [Hd [t Ht]]. split; [done|].
      apply Htok in Ht as [Ht Hlive]. intros k t' Hk Hexp E.
      pose proof (Htab _ _ Hk) as Hrow. rewrite E, Hd in Hrow.
      injection Hrow as <-. assert (t' = t) as -> by congruence.
      unfold After in Hexp. apply Z.ltb_lt in Hexp. lia.
Qed.

(** X5: the sweeper never decides a validation.  After a tick at a clock
    reading not later than that of the validation, [ValidateToken] succeeds on
    exactly the values, and with exactly the credentials, it would have
    succeeded on without the tick. *)
Theorem sweep_then_validate (s : Service) (now_sweep : Z) (v : string)
    (now_check now_used : Z) (tok : Token) :
  now_sweep ≤ now_check →
  (ValidateToken (cleanupExpired s now_sweep) v now_check now_used).1 = Ok tok
  ↔ (ValidateToken s v now_check now_used).1 = Ok tok.
Proof.
  intros Hle. unfold ValidateToken. cbn -[sweep_tokens].
  rewrite sweep_tokens_fst_lookup. unfold After.
  destruct (tokens s !! v) as [t|]; [|done].
  destruct (ExpiresAt t <? now_sweep) eqn:E1;
    [apply Z.ltb_lt in E1 | apply Z.ltb_ge in E1].
  - assert (E2 : (ExpiresAt t <? now_check) = true) by (apply Z.ltb_lt; lia).
    by rewrite E2.
  - by destruct (ExpiresAt t <? now_check).
Qed.

(** *** Validation does not extend a credential *)

Lemma ValidateToken_lookup (s : Service) (v : string) (now_check now_used : Z)
    (k : string) (t' : Token) :
  tokens (ValidateToken s v now_check now_used).2 !! k = Some t' →
  ∃ t, tokens s !! k = Some t
       ∧ ExpiresAt t' = ExpiresAt t ∧ DeviceID t' = DeviceID t
       ∧ Value t' = Value t ∧ CreatedAt t' = CreatedAt t.
Proof.
  unfold ValidateToken.
  destruct (tokens s !! v) as [t|] eqn:Hv; [|by exists t'].
  destruct (After _ _); cbn.
  - intros [_ H]%lookup_delete_Some. by exists t'.
  - destruct (decide (v = k)) as [<-|Hne].
    + rewrite lookup_insert_eq. intros [= <-]. by exists t.
    + rewrite lookup_insert_ne by done. by exists t'.
Qed.

Lemma validate_calls_lookup (calls : list (string * Z * Z)) (s : Service)
    (k : string) (t' : Token) :
  tokens (validate_calls s calls) !! k = Some t' →
  ∃ t, tokens s !! k = Some t
       ∧ ExpiresAt t' = ExpiresAt t ∧ DeviceID t' = DeviceID t
       ∧ Value t' = Value t ∧ CreatedAt t' = CreatedAt t.
Proof.
  unfold validate_calls. revert s.
  induction calls as [|c calls IH]; intros s; cbn; [by exists t'|].
  intros (t1 & Ht1 & E1 & E2 & E3 & E4)%IH.
  apply ValidateToken_lookup in Ht1 as (t & Ht & F1 & F2 & F3 & F4).
  exists t. split_and!; congruence.
Qed.

(** X6: validation never creates a credential and never moves an expiry.
    After any run of [ValidateToken] calls, a validation that succeeds returns
    a credential that was stored before the run under the same value, with the
    expiry, device, value and creation time it had then, and that expiry is
    not before the clock reading of the check. *)
Theorem validation_keeps_expiry (s : Service) (calls : list (string * Z * Z))
    (v : string) (now_check now_used : Z) (tok : Token) :
  (ValidateToken (validate_calls s calls) v now_check now_used).1 = Ok tok →
  ∃ t, tokens s !! v = Some t
       ∧ ExpiresAt tok = ExpiresAt t
       ∧ now_check ≤ ExpiresAt t
       ∧ DeviceID tok = DeviceID t ∧ Value tok = Value t
       ∧ CreatedAt tok = CreatedAt t
       ∧ LastUsedAt tok = now_used.
Proof.
  unfold ValidateToken at 1.
  destruct (tokens (validate_calls s calls) !! v) as [t'|] eqn:Hv; [|done].
  unfold After. destruct (ExpiresAt t' <? now_check) eqn:E; [done|].
  apply Z.ltb_ge in E. cbn. intros [= <-].
  apply validate_calls_lookup in Hv as (t & Ht & E1 & E2 & E3 & E4).
  exists t. cbn. split_and!; try done; lia.
Qed.

(** *** The read-only views *)

Lemma ListActiveDevices_filter (now : Z) (order : list (string * Token))
    (acc : list Token) :
  foldl (λ devices (kv : string * Token),
           if Before now (ExpiresAt kv.2) then devices ++ [kv.2] else devices)
    acc order
  = acc ++ (filter (λ kv, now < ExpiresAt kv.2) order).*2.
Proof.
  revert acc. induction order as [|[k t] order IH]; intros acc.
  - cbn. by rewrite app_nil_r.
  - rewrite filter_cons. cbn [foldl snd]. rewrite IH. unfold Before.
    destruct (decide (now < ExpiresAt t)) as [H|H].
    + apply Z.ltb_lt in H. rewrite H. cbn. by rewrite <- app_assoc.
    + apply Z.ltb_nlt in H. by rewrite H.
Qed.

Lemma map_to_list_filter_perm {V : Type} (P : string * V → Prop)
    `{!∀ kv, Decision (P kv)} (m : gmap string V) :
  filter P (map_to_list m) ≡ₚ map_to_list (filter P m).
Proof.
  apply NoDup_Permutation.
  - apply NoDup_filter, NoDup_map_to_list.
  - apply NoDup_map_to_list.
  - intros [k x]. rewrite list_elem_of_filter, !elem_of_map_to_list.
    rewrite map_lookup_filter_Some. split; intros [? ?]; done.
Qed.

(** X7: [ListActiveDevices] returns the stored credentials whose expiry is
    after the clock reading, each exactly once, in the order the table is
    visited: for every visiting order the result is a permutation of the
    unexpired part of the table. *)
Theorem ListActiveDevices_lists (s : Service) (now : Z)
    (order : list (string * Token)) :
  order ≡ₚ map_to_list (tokens s) →
  ListActiveDevices now order
    ≡ₚ (map_to_list (filter (λ kv, now < ExpiresAt kv.2) (tokens s))).*2
  ∧ (∀ t, t ∈ ListActiveDevices now order ↔
          ∃ k, tokens s !! k = Some t ∧ now < ExpiresAt t)
  ∧ length (ListActiveDevices now order)
    = size (filter (λ kv, now < ExpiresAt kv.2) (tokens s)).
Proof.
  intros Hperm.
  assert (Hlist : ListActiveDevices now order
                  ≡ₚ (map_to_list
                        (filter (λ kv, now < ExpiresAt kv.2) (tokens s))).*2).
  { unfold ListActiveDevices, range_fold.
    rewrite (ListActiveDevices_filter now order []). cbn.
    rewrite Hperm. by rewrite map_to_list_filter_perm. }
  split_and!; [done | |].
  - intros t. rewrite Hlist, list_elem_of_fmap. split.
    + intros ([k t'] & -> & Hin). exists k.
      apply elem_of_map_to_list, map_lookup_filter_Some in Hin. done.
    + intros (k & Hk & Hlive). exists (k, t). split; [done|].
      apply elem_of_map_to_list, map_lookup_filter_Some. done.
  - rewrite Hlist, length_fmap. apply length_map_to_list.
Qed.

Lemma GetActivePairingCode_None (now : Z) (order : list (string * PairingCode)) :
  GetActivePairingCode now order = None ↔
  ∀ k pc, (k, pc) ∈ order → Used pc = true ∨ pcExpiresAt pc ≤ now.
Proof.
  induction order as [|[k0 pc0] order IH]; cbn.
  - split; [|done]. intros _ k pc []%elem_of_nil.
  - unfold Before.
    destruct (Used pc0) eqn:Hu; cbn.
    + rewrite IH. split.
      * intros H k pc [[= -> ->]|Hin]%elem_of_cons; [by left | by apply (H k)].
      * intros H k pc Hin. apply (H k). by right.
    + destruct (now <? pcExpiresAt pc0) eqn:E;
        [apply Z.ltb_lt in E | apply Z.ltb_ge in E].
      * split; [done|]. intros H.
        destruct (H k0 pc0) as [?|?]; [by left | congruence | lia].
      * rewrite IH. split.
        -- intros H k pc [[= -> ->]|Hin]%elem_of_cons;
             [by right | by apply (H k)].
        -- intros H k pc Hin. apply (H k). by right.
Qed.

Lemma GetActivePairingCode_Some (now : Z) (order : list (string * PairingCode))
    (pc : PairingCode) :
  GetActivePairingCode now order = Some pc →
  ∃ k, (k, pc) ∈ order ∧ Used pc = false ∧ now < pcExpiresAt pc.
Proof.
  induction order as [|[k0 pc0] order IH]; cbn; [done|].
  unfold Before.
  destruct (Used pc0) eqn:Hu; cbn.
  - intros (k & Hin & ?)%IH. exists k. split; [by right | done].
  - destruct (now <? pcExpiresAt pc0) eqn:E.
    + intros [= <-]. apply Z.ltb_lt in E. exists k0. split; [by left | done].
    + intros (k & Hin & ?)%IH. exists k. split; [by right | done].
Qed.

(** X8: [GetActivePairingCode] returns nil exactly when every stored code is
    used or has an expiry not after the clock reading; a code it returns is
    stored, unused and unexpired, and, the codes being stored under their own
    values, redeeming its value at any time up to its expiry succeeds when the
    random source delivers. *)
Theorem GetActivePairingCode_shows (s : Service) (now : Z)
    (order : list (string * PairingCode)) :
  order ≡ₚ map_to_list (pairingCodes s) →
  (GetActivePairingCode now order = None ↔
     ∀ k pc, pairingCodes s !! k = Some pc →
             Used pc = true ∨ pcExpiresAt pc ≤ now)
  ∧ (∀ pc, GetActivePairingCode now order = Some pc →
       (∃ k, pairingCodes s !! k = Some pc)
       ∧ Used pc = false ∧ now < pcExpiresAt pc
       ∧ (codes_keyed s →
          ∀ deviceID deviceName env f,
            now_expiry env ≤ pcExpiresAt pc →
            rand_token env = Some f →
            ∃ tok s',
              ValidatePairingCode s (Code pc) deviceID deviceName env
              = (Ok tok, s')
              ∧ DeviceID tok = deviceID)).
Proof.
  intros Hperm. split.
  - rewrite GetActivePairingCode_None. split; intros H k pc Hk.
    + apply (H k). rewrite Hperm. by apply elem_of_map_to_list.
    + apply (H k). apply elem_of_map_to_list. by rewrite <- Hperm.
  - intros pc (k & Hin & Hused & Hlive)%GetActivePairingCode_Some.
    rewrite Hperm in Hin. apply elem_of_map_to_list in Hin.
    split_and!; [by exists k | done | done |].
    intros Hkeyed deviceID deviceName env f Hexp Hrand.
    rewrite (Hkeyed _ _ Hin).
    rewrite (ValidatePairingCode_issue _ _ _ _ _ pc) by done.
    rewrite Hrand, createTokenLocked_Some. by eexists _, _.
Qed.

(** *** Redemption *)

(** The four ways a redemption goes. *)
Lemma ValidatePairingCode_cases (s : Service) (code deviceID deviceName : string)
    (env : RedeemEnv) :
  (pairingCodes s !! code = None
   ∧ ValidatePairingCode s code deviceID deviceName env = (Err ErrInvalidCode, s))
  ∨ (∃ pc, pairingCodes s !! code = Some pc
           ∧ pcExpiresAt pc < now_expiry env
           ∧ ValidatePairingCode s code deviceID deviceName env
             = (Err ErrCodeExpired, set_pairingCodes (delete code) s))
  ∨ (∃ pc, pairingCodes s !! code = Some pc
           ∧ now_expiry env ≤ pcExpiresAt pc ∧ Used pc = true
           ∧ ValidatePairingCode s code deviceID deviceName env
             = (Err ErrCodeAlreadyUsed, s))
  ∨ (∃ pc, pairingCodes s !! code = Some pc
           ∧ now_expiry env ≤ pcExpiresAt pc ∧ Used pc = false
           ∧ ValidatePairingCode s code deviceID deviceName env
             = createTokenLocked
                 (set_pairingCodes (delete code) (capacity_step s env))
                 deviceID deviceName (rand_token env) (now_stamp env)
                 (now_create env)).
Proof.
  destruct (pairingCodes s !! code) as [pc|] eqn:Hpc.
  - destruct (decide (pcExpiresAt pc < now_expiry env)) as [Hexp|Hexp].
    + right; left. exists pc. split_and!; [done..|].
      unfold ValidatePairingCode, After. rewrite Hpc.
      apply Z.ltb_lt in Hexp. by rewrite Hexp.
    + destruct (Used pc) eqn:Hused.
      * right; right; left. exists pc. split_and!; [done | lia | done |].
        unfold ValidatePairingCode, After. rewrite Hpc, Hused.
        apply Z.ltb_nlt in Hexp. by rewrite Hexp.
      * right; right; right. exists pc. split_and!; [done | lia | done |].
        apply (ValidatePairingCode_issue _ _ _ _ _ pc); [done | lia | done].
  - left. split; [done|]. by apply ValidatePairingCode_absent.
Qed.

(** X9: a redemption that fails returns one of four errors.  With the three
    errors of the code checks the credential table and the index are exactly
    as before, no credential has been evicted, and the only change at all is
    the removal of the expired code; the fourth error is the failure of the
    random source. *)
Theorem redeem_error_harmless (s : Service) (code deviceID deviceName : string)
    (env : RedeemEnv) (e : error) (s' : Service) :
  ValidatePairingCode s code deviceID deviceName env = (Err e, s') →
  (e = Errorf "failed to generate token" ErrRand ∧ rand_token env = None)
  ∨ ((e = ErrInvalidCode ∨ e = ErrCodeExpired ∨ e = ErrCodeAlreadyUsed)
     ∧ tokens s' = tokens s
     ∧ deviceTokens s' = deviceTokens s
     ∧ (∀ k, k ≠ code → pairingCodes s' !! k = pairingCodes s !! k)
     ∧ (e ≠ ErrCodeExpired → s' = s)
     ∧ (e = ErrInvalidCode ↔ pairingCodes s !! code = None)).
Proof.
  destruct (ValidatePairingCode_cases s code deviceID deviceName env)
    as [[Hpc ->]|[(pc & Hpc & Hexp & ->)|[(pc & Hpc & Hexp & Hu & ->)
       |(pc & Hpc & Hexp & Hu & ->)]]].
  - intros [= <- <-]. right. split_and!; try done; auto.
  - intros [= <- <-]. right. cbn. split_and!; try done; auto.
    + intros k Hk. by apply lookup_delete_ne.
    + split; [done|]. by rewrite Hpc.
  - intros [= <- <-]. right. split_and!; try done; auto.
    split; [done|]. by rewrite Hpc.
  - destruct (rand_token env) as [f|] eqn:Hrand.
    + by rewrite createTokenLocked_Some.
    + rewrite createTokenLocked_None. intros [= <- <-]. by left.
Qed.

(** What a successful redemption leaves. *)
Lemma ValidatePairingCode_Ok_inv (s : Service)
    (code deviceID deviceName : string) (env : RedeemEnv) (tok : Token)
    (s' : Service) :
  ValidatePairingCode s code deviceID deviceName env = (Ok tok, s') →
  generateSecureToken (rand_token env) (now_stamp env) = Ok (Value tok)
  ∧ DeviceID tok = deviceID
  ∧ tokens s'
    = <[Value tok := tok]>
        match deviceTokens (capacity_step s env) !! deviceID with
        | Some oldToken => delete oldToken (tokens (capacity_step s env))
        | None => tokens (capacity_step s env)
        end
  ∧ deviceTokens s'
    = <[deviceID := Value tok]> (deviceTokens (capacity_step s env))
  ∧ pairingCodes s' = delete code (pairingCodes s).
Proof.
  intros Hrun.
  destruct (ValidatePairingCode_cases s code deviceID deviceName env)
    as [[_ E]|[(pc & _ & _ & E)|[(pc & _ & _ & _ & E)|(pc & _ & _ & _ & E)]]];
    rewrite E in Hrun; try done.
  destruct (generateSecureToken (rand_token env) (now_stamp env)) as [v|e]
    eqn:Hgen.
  - rewrite (createTokenLocked_Ok _ _ _ _ _ _ v) in Hrun by done.
    injection Hrun as <- <-. cbn.
    by rewrite capacity_step_pairingCodes.
  - by rewrite (createTokenLocked_Err _ _ _ _ _ _ e) in Hrun.
Qed.

(** X10: supersession.  After a successful redemption from a consistent store,
    with a credential value that was not stored, the store is consistent, the
    device is indexed to the returned credential, that credential is the only
    stored one of the device, and a value the device was bound to before is no
    longer stored, so that it no longer validates. *)
Theorem redeem_supersedes (s : Service) (code deviceID deviceName : string)
    (env : RedeemEnv) (tok : Token) (s' : Service) :
  consistent s →
  range_order env ≡ₚ map_to_list (tokens s) →
  ValidatePairingCode s code deviceID deviceName env = (Ok tok, s') →
  tokens s !! Value tok = None →
  consistent s'
  ∧ deviceTokens s' !! deviceID = Some (Value tok)
  ∧ tokens s' !! Value tok = Some tok
  ∧ (∀ k t, tokens s' !! k = Some t → DeviceID t = deviceID →
            k = Value tok ∧ t = tok)
  ∧ (∀ old, deviceTokens s !! deviceID = Some old →
            tokens s' !! old = None
            ∧ ∀ now_check now_used,
                (ValidateToken s' old now_check now_used).1
                = Err ErrInvalidToken).
Proof.
  intros Hc Hperm Hrun Hfresh.
  destruct (ValidatePairingCode_Ok_inv _ _ _ _ _ _ _ Hrun)
    as (Hgen & Hdev & Htoks & Hdevs & _).
  pose proof (ValidatePairingCode_consistent s code deviceID deviceName env
                (Value tok) Hperm Hgen Hfresh Hc) as Hc'.
  rewrite Hrun in Hc'. cbn in Hc'.
  assert (Hrow : deviceTokens s' !! deviceID = Some (Value tok))
    by (rewrite Hdevs; apply lookup_insert_eq).
  assert (Hstored : tokens s' !! Value tok = Some tok)
    by (rewrite Htoks; apply lookup_insert_eq).
  assert (Huniq : ∀ k t, tokens s' !! k = Some t → DeviceID t = deviceID →
                         k = Value tok ∧ t = tok).
  { intros k t Hk Hd. pose proof (proj2 Hc' _ _ Hk) as Hk'.
    rewrite Hd, Hrow in Hk'. injection Hk' as <-. split; [done | congruence]. }
  split_and!; [done..|].
  intros old Hold.
  assert (Hgone : tokens s' !! old = None).
  { destruct (tokens s' !! old) as [t|] eqn:Ht; [|done]. exfalso.
    destruct (proj1 Hc _ _ Hold) as (ot & Hot & Hod).
    assert (Hne : Value tok ≠ old) by (intros E; congruence).
    rewrite Htoks, lookup_insert_ne in Ht by done.
    assert (Hsub : tokens (capacity_step s env) !! old = Some t).
    { destruct (deviceTokens (capacity_step s env) !! deviceID);
        [by apply lookup_delete_Some in Ht as [_ ?] | done]. }
    eapply lookup_weaken in Hsub; [|apply capacity_step_tokens_subseteq].
    assert (t = ot) as -> by congruence.
    assert (Hs' : tokens s' !! old = Some ot).
    { rewrite Htoks, lookup_insert_ne by done. exact Ht. }
    destruct (Huniq _ _ Hs' Hod) as [-> _]. done. }
  split; [done|]. intros. unfold ValidateToken. by rewrite Hgone.
Qed.

Lemma activeCount_all_unexpired (now_at : string → Z) (m : gmap string Token) :
  (∀ k t, m !! k = Some t → now_at k < ExpiresAt t) →
  activeCount now_at m = Z.of_nat (size m).
Proof.
  unfold activeCount.
  apply (map_fold_weak_ind (λ (n : Z) m',
           (∀ k t, m' !! k = Some t → now_at k < ExpiresAt t) →
           n = Z.of_nat (size m'))).
  - by rewrite map_size_empty.
  - intros i x m' n Hi IH Hall. rewrite map_size_insert_None by done.
    rewrite IH.
    + assert (H : now_at i < ExpiresAt x)
        by (apply (Hall i); apply lookup_insert_eq).
      unfold Before. apply Z.ltb_lt in H. rewrite H. lia.
    + intros k t Hk. apply (Hall k). rewrite lookup_insert_ne; [done|].
      intros <-. congruence.
Qed.

Lemma size_kept_le (toks : gmap string Token) (devs : gmap string string)
    (deviceID : string) :
  (size match devs !! deviceID with
        | Some oldToken => delete oldToken toks
        | None => toks
        end ≤ size toks)%nat.
Proof.
  destruct (devs !! deviceID); [|done].
  apply map_subseteq_size, delete_subseteq.
Qed.

(** X11: the ceiling.  A successful redemption adds at most one credential to
    the table; and when the table holds at most the (positive) ceiling of
    credentials, none of them expired at the count, it holds at most the
    ceiling of credentials afterwards. *)
Theorem redeem_keeps_ceiling (s : Service) (code deviceID deviceName : string)
    (env : RedeemEnv) (tok : Token) (s' : Service) :
  range_order env ≡ₚ map_to_list (tokens s) →
  ValidatePairingCode s code deviceID deviceName env = (Ok tok, s') →
  (size (tokens s') ≤ size (tokens s) + 1)%nat
  ∧ (0 < maxActiveDevices s →
     Z.of_nat (size (tokens s)) ≤ maxActiveDevices s →
     (∀ k t, tokens s !! k = Some t → now_count env k < ExpiresAt t) →
     Z.of_nat (size (tokens s')) ≤ maxActiveDevices s).
Proof.
  intros Hperm Hrun.
  destruct (ValidatePairingCode_Ok_inv _ _ _ _ _ _ _ Hrun)
    as (_ & _ & Htoks & _ & _).
  set (s1 := capacity_step s env) in *.
  assert (Hins : (size (tokens s') ≤ S (size (tokens s1)))%nat).
  { rewrite Htoks, map_size_insert.
    pose proof (size_kept_le (tokens s1) (deviceTokens s1) deviceID) as Hk.
    destruct (_ !! Value tok); cbn; lia. }
  assert (Hcap : (size (tokens s1) ≤ size (tokens s))%nat)
    by apply map_subseteq_size, capacity_step_tokens_subseteq.
  split; [lia|].
  intros Hpos Hsize Hall.
  destruct (decide (maxActiveDevices s
                    ≤ activeCount (now_count env) (tokens s))) as [Hfull|Hspare].
  - assert (Hne : tokens s ≠ ∅) by (by eapply full_nonempty).
    destruct (capacity_step_full s env Hperm Hne Hfull)
      as (vt & victim & _ & Hvt & _ & Htok & _).
    fold s1 in Htok.
    assert (size (tokens s1) = pred (size (tokens s)))
      by (rewrite Htok; apply map_size_delete_Some; eauto).
    assert (size (tokens s) ≠ 0%nat)
      by (by apply map_size_non_empty_iff).
    lia.
  - rewrite activeCount_all_unexpired in Hspare by done. lia.
Qed.

(** X12: a code just issued can be redeemed.  The code returned by
    [GeneratePairingCode] is stored under its value, unused, with expiry at the
    clock reading plus the code TTL, and redeeming that value at any time up
    to this expiry succeeds when the random source delivers, for any device. *)
Theorem issued_code_redeems (s : Service) (now_purge now : Z) (d : draw)
    (retries : list draw) (pc : PairingCode) (s1 : Service) :
  GeneratePairingCode s now_purge now d retries = Done (Ok pc, s1) →
  pairingCodes s1 !! Code pc = Some pc
  ∧ Used pc = false
  ∧ pcExpiresAt pc = now + codeExpiry s
  ∧ pcCreatedAt pc = now
  ∧ tokens s1 = tokens s ∧ deviceTokens s1 = deviceTokens s
  ∧ (codes_keyed s → codes_keyed s1)
  ∧ ∀ deviceID deviceName env f,
      now_expiry env ≤ now + codeExpiry s →
      rand_token env = Some f →
      ∃ tok s2,
        ValidatePairingCode s1 (Code pc) deviceID deviceName env = (Ok tok, s2)
        ∧ DeviceID tok = deviceID
        ∧ pairingCodes s2 !! Code pc = None.
Proof.
  unfold GeneratePairingCode. cbn.
  destruct (generateNumericCode (codeLength s) d) as [[code|e]|]; [|done..].
  destruct (unique_code_loop _ _ code retries) as [[c|e]| |]; [|done..].
  intros [= <- <-]. cbn.
  assert (Hstored : <[c := mkPairingCode c now (Add now (codeExpiry s)) "" false]>
                      (purge_codes now_purge (pairingCodes s)) !! c
                    = Some (mkPairingCode c now (Add now (codeExpiry s)) "" false))
    by apply lookup_insert_eq.
  split_and!; try done.
  - intros Hkeyed k pc'. cbn. destruct (decide (c = k)) as [<-|Hne].
    + rewrite lookup_insert_eq. by intros [= <-].
    + rewrite lookup_insert_ne by done. rewrite purge_codes_lookup.
      destruct (pairingCodes s !! k) as [p|] eqn:Hk; [|done].
      destruct (_ || _); [done|]. intros [= <-]. by apply Hkeyed.
  - intros deviceID deviceName env f Hexp Hrand.
    rewrite (ValidatePairingCode_issue _ _ _ _ _
               (mkPairingCode c now (Add now (codeExpiry s)) "" false))
      by done.
    rewrite Hrand, createTokenLocked_Some. cbn.
    eexists _, _. split; [reflexivity|]. cbn. split; [done|].
    rewrite capacity_step_pairingCodes. apply lookup_delete_eq.
Qed.

(** *** Construction and restart *)

(** [LoadState] panics exactly when a storage path is set and the file decodes
    to a document that holds a nil credential. *)
Lemma LoadState_None (s : Service) (file : ReadFile) (now : Z) :
  LoadState s file now = None ↔
  storagePath s ≠ ""
  ∧ ∃ data st k, file = ReadData data ∧ json_Unmarshal data = Ok st
                 ∧ psTokens st !! k = Some None.
Proof.
  unfold LoadState.
  destruct (decide (storagePath s = "")) as [Hp|Hp];
    [split; [done | by intros [? _]]|].
  destruct file as [| |data];
    [split; [done | by intros (_ & ? & ? & ? & [=] & _)].. |].
  destruct (json_Unmarshal data) as [st|e] eqn:Hst.
  - destruct (load_tokens now (psTokens st) (tokens s)) as [toks|] eqn:Hl; cbn.
    + split; [done|]. intros (_ & d' & st' & k & [= <-] & Hst' & Hk).
      rewrite Hst in Hst'. injection Hst' as <-.
      assert (load_tokens now (psTokens st) (tokens s) = None)
        by (apply load_tokens_None; by exists k).
      congruence.
    + split; [|done]. intros _. split; [done|].
      apply load_tokens_None in Hl as [k Hk]. by exists data, st, k.
  - split; [done|]. intros (_ & d' & st' & k & [= <-] & Hst' & _). congruence.
Qed.

(** When it returns, [LoadState] has left the store alone, or it has copied
    the unexpired credentials of a document without nil credentials and the
    index rows that name a stored credential. *)
Lemma LoadState_Some (s : Service) (file : ReadFile) (now : Z)
    (err : option error) (s' : Service) :
  LoadState s file now = Some (err, s') →
  (s' = s ∧ ∀ data st, file = ReadData data → json_Unmarshal data = Ok st →
                       storagePath s = "")
  ∨ (err = None
     ∧ ∃ data st,
         file = ReadData data ∧ json_Unmarshal data = Ok st
         ∧ storagePath s ≠ ""
         ∧ s' = set_deviceTokens
                  (λ _, copy_if
                          (targets (copy_if (unexpired now)
                                      (omap id (psTokens st)) (tokens s)))
                          (psDeviceTokens st) (deviceTokens s))
                  (set_tokens
                     (λ _, copy_if (unexpired now) (omap id (psTokens st))
                             (tokens s)) s)).
Proof.
  unfold LoadState.
  destruct (decide (storagePath s = "")) as [Hp|Hp];
    [intros [= <- <-]; by left|].
  destruct file as [| |data]; [intros [= <- <-]; by left.. |].
  destruct (json_Unmarshal data) as [st|e] eqn:Hst.
  - destruct (load_tokens now (psTokens st) (tokens s)) as [toks|] eqn:Hl;
      [|done].
    cbn. intros [= <- <-]. apply load_tokens_Some in Hl as [_ ->].
    right. split; [done|]. by exists data, st.
  - intros [= <- <-]. left. split; [done|].
    intros d' st' [= <-] Hst'. congruence.
Qed.

(** X13: [NewService] panics exactly when a storage path is configured and
    the file decodes to a document with a nil credential.  The service it
    returns has no pairing code and no zero setting: a zero code length, code
    TTL, credential TTL or ceiling is replaced by 6, 5 minutes, 30 days and 5,
    the values of [DefaultConfig], and any other value, negative ones
    included, is kept.  Every credential it holds has its expiry after the
    clock reading of the load and every index row names a credential it holds;
    without a storage path, or when the file is missing, unreadable or not
    decodable, it holds no credential and no index row. *)
Theorem NewService_starts (config : ServiceConfig) (file : ReadFile) (now : Z) :
  (NewService config file now = None ↔
   StoragePath config ≠ ""
   ∧ ∃ data st k, file = ReadData data ∧ json_Unmarshal data = Ok st
                  ∧ psTokens st !! k = Some None)
  ∧ (∀ s, NewService config file now = Some s →
       pairingCodes s = ∅
       ∧ codeLength s
         = (if CodeLength config =? 0 then 6 else CodeLength config)
       ∧ codeExpiry s
         = (if CodeExpiry config =? 0 then 5 * Minute else CodeExpiry config)
       ∧ tokenExpiry s
         = (if TokenExpiry config =? 0 then 30 * 24 * Hour
            else TokenExpiry config)
       ∧ maxActiveDevices s
         = (if MaxActiveDevices config =? 0 then 5
            else MaxActiveDevices config)
       ∧ storagePath s = StoragePath config
       ∧ (CodeLength config = 0 → codeLength s = CodeLength DefaultConfig)
       ∧ (CodeExpiry config = 0 → codeExpiry s = CodeExpiry DefaultConfig)
       ∧ (TokenExpiry config = 0 → tokenExpiry s = TokenExpiry DefaultConfig)
       ∧ (MaxActiveDevices config = 0 →
          maxActiveDevices s = MaxActiveDevices DefaultConfig)
       ∧ codeLength s ≠ 0 ∧ codeExpiry s ≠ 0 ∧ tokenExpiry s ≠ 0
       ∧ maxActiveDevices s ≠ 0
       ∧ (∀ k t, tokens s !! k = Some t → now < ExpiresAt t)
       ∧ (∀ d v, deviceTokens s !! d = Some v → is_Some (tokens s !! v)))
  ∧ ((StoragePath config = ""
      ∨ (∀ data st, file = ReadData data → json_Unmarshal data ≠ Ok st)) →
     ∃ s, NewService config file now = Some s
          ∧ tokens s = ∅ ∧ deviceTokens s = ∅).
Proof.
  assert (Hz : ∀ x dflt : Z, dflt ≠ 0 → (if x =? 0 then dflt else x) ≠ 0).
  { intros x dflt ?. destruct (x =? 0) eqn:E; [done|]. by apply Z.eqb_neq. }
  assert (Hd : ∀ x dflt : Z, x = 0 → (if x =? 0 then dflt else x) = dflt).
  { by intros x dflt ->. }
  unfold NewService.
  set (s0 := mkService ∅ ∅ ∅
               (if CodeLength config =? 0 then 6 else CodeLength config)
               (if CodeExpiry config =? 0 then 5 * Minute
                else CodeExpiry config)
               (if TokenExpiry config =? 0 then 30 * 24 * Hour
                else TokenExpiry config)
               (if MaxActiveDevices config =? 0 then 5
                else MaxActiveDevices config)
               (StoragePath config)).
  assert (Hs0 : ∀ s,
    pairingCodes s = ∅ → codeLength s = codeLength s0 →
    codeExpiry s = codeExpiry s0 → tokenExpiry s = tokenExpiry s0 →
    maxActiveDevices s = maxActiveDevices s0 → storagePath s = storagePath s0 →
    pairingCodes s = ∅
    ∧ codeLength s = (if CodeLength config =? 0 then 6 else CodeLength config)
    ∧ codeExpiry s
      = (if CodeExpiry config =? 0 then 5 * Minute else CodeExpiry config)
    ∧ tokenExpiry s
      = (if TokenExpiry config =? 0 then 30 * 24 * Hour
         else TokenExpiry config)
    ∧ maxActiveDevices s
      = (if MaxActiveDevices config =? 0 then 5 else MaxActiveDevices config)
    ∧ storagePath s = StoragePath config
    ∧ (CodeLength config = 0 → codeLength s = CodeLength DefaultConfig)
    ∧ (CodeExpiry config = 0 → codeExpiry s = CodeExpiry DefaultConfig)
    ∧ (TokenExpiry config = 0 → tokenExpiry s = TokenExpiry DefaultConfig)
    ∧ (MaxActiveDevices config = 0 →
       maxActiveDevices s = MaxActiveDevices DefaultConfig)
    ∧ codeLength s ≠ 0 ∧ codeExpiry s ≠ 0 ∧ tokenExpiry s ≠ 0
    ∧ maxActiveDevices s ≠ 0).
  { intros s -> -> -> -> -> ->. cbn.
    split_and!; try done; try (apply Hz; done); intros E; by rewrite Hd. }
  destruct (decide (StoragePath config = "")) as [Hp|Hp].
  { split_and!.
    - split; [done | by intros [? _]].
    - intros s [= <-].
      pose proof (Hs0 s0 eq_refl eq_refl eq_refl eq_refl eq_refl eq_refl)
        as (?&?&?&?&?&?&?&?&?&?&?&?&?&?).
      split_and!; try done; intros ??; cbn; by rewrite lookup_empty.
    - intros _. by exists s0. }
  split_and!.
  - rewrite fmap_None, LoadState_None. done.
  - intros s ([err s'] & Hload & ->)%fmap_Some. cbn.
    apply LoadState_Some in Hload
      as [[-> _]|(_ & data & st & _ & _ & _ & ->)].
    + pose proof (Hs0 s0 eq_refl eq_refl eq_refl eq_refl eq_refl eq_refl)
        as (?&?&?&?&?&?&?&?&?&?&?&?&?&?).
      split_and!; try done; intros ??; cbn; by rewrite lookup_empty.
    + set (s1 := set_deviceTokens _ _).
      pose proof (Hs0 s1 eq_refl eq_refl eq_refl eq_refl eq_refl eq_refl)
        as (?&?&?&?&?&?&?&?&?&?&?&?&?&?).
      split_and!; try done.
      * intros k t. cbn. rewrite copy_if_lookup, lookup_empty.
        unfold unexpired, Before.
        destruct (omap id (psTokens st) !! k) as [t'|]; [|done].
        destruct (now <? ExpiresAt t') eqn:E; [|done].
        intros [= <-]. by apply Z.ltb_lt.
      * intros d v. cbn. rewrite (copy_if_lookup (targets _)), lookup_empty.
        unfold targets. destruct (psDeviceTokens st !! d) as [v'|]; [|done].
        case_bool_decide; [|done]. by intros [= <-].
  - intros [?|Hnot]; [done|].
    destruct (LoadState s0 file now) as [[err s']|] eqn:Hload.
    + exists s'. split; [done|].
      apply LoadState_Some in Hload
        as [[-> _]|(_ & data & st & -> & Hst & _)]; [done|].
      by destruct (Hnot data st).
    + apply LoadState_None in Hload
        as (_ & data & st & k & -> & Hst & _).
      by destruct (Hnot data st).
Qed.

(** X14: restart.  The document that [SaveState] writes from a consistent
    store, given as the file to [NewService], does not make it panic and makes
    a consistent store, all of whose credentials are credentials of the saved
    store, unchanged. *)
Theorem restart_consistent (s : Service) (env : SaveEnv) (data : Data)
    (config : ServiceConfig) (now : Z) :
  (∀ st d, json_MarshalIndent st = Ok d → json_Unmarshal d = Ok st) →
  consistent s →
  SaveState s env = (None, Some data) →
  ∃ s',
    NewService config (ReadData data) now = Some s'
    ∧ consistent s'
    ∧ (∀ k t, tokens s' !! k = Some t →
              tokens s !! k = Some t ∧ now_save env < ExpiresAt t)
    ∧ (∀ d v, deviceTokens s' !! d = Some v → deviceTokens s !! d = Some v).
Proof.
  intros Hjson Hc [_ Hdata%Hjson]%SaveState_written.
  unfold NewService.
  destruct (decide (StoragePath config = "")) as [Hp|Hp].
  { eexists. split; [reflexivity|].
    split_and!; [apply maps_consistent_empty | |];
      intros ??; cbn; by rewrite lookup_empty. }
  unfold LoadState. cbn. rewrite decide_False by done. rewrite Hdata. cbn.
  rewrite load_tokens_fmap. cbn.
  eexists. split; [reflexivity|]. split_and!.
  - unfold consistent. cbn.
    by apply saved_maps_consistent, saved_maps_consistent.
  - cbn. intros k t.
    rewrite copy_if_lookup, lookup_empty, unexpired_copy_lookup.
    destruct (tokens s !! k) as [t'|]; [|done].
    case_bool_decide; [|done]. destruct (unexpired _ _ _); [|done].
    by intros [= <-].
  - cbn. intros d v. rewrite !(copy_if_lookup (targets _)), !lookup_empty.
    destruct (deviceTokens s !! d) as [v'|]; [|done].
    destruct (targets _ d v'); [|done]. destruct (targets _ d v'); [|done].
    by intros [= <-].
Qed.

(** X15: [LoadState] panics exactly when a storage path is set and the file
    decodes to a document that holds a nil credential.  When it returns it has
    removed nothing: every credential value and every device stored before is
    still stored after, and the pairing codes and the configuration are
    untouched; when it returns an error the store is exactly as before, and
    without a storage path or without a file it returns no error and changes
    nothing. *)
Theorem LoadState_keeps (s : Service) (file : ReadFile) (now : Z) :
  (LoadState s file now = None ↔
   storagePath s ≠ ""
   ∧ ∃ data st k, file = ReadData data ∧ json_Unmarshal data = Ok st
                  ∧ psTokens st !! k = Some None)
  ∧ (∀ err s', LoadState s file now = Some (err, s') →
       (∀ k, is_Some (tokens s !! k) → is_Some (tokens s' !! k))
       ∧ (∀ d, is_Some (deviceTokens s !! d) → is_Some (deviceTokens s' !! d))
       ∧ pairingCodes s' = pairingCodes s
       ∧ codeLength s' = codeLength s
       ∧ codeExpiry s' = codeExpiry s
       ∧ tokenExpiry s' = tokenExpiry s
       ∧ maxActiveDevices s' = maxActiveDevices s
       ∧ storagePath s' = storagePath s
       ∧ (is_Some err → s' = s))
  ∧ (file = ReadNotExist → LoadState s file now = Some (None, s))
  ∧ (storagePath s = "" → LoadState s file now = Some (None, s)).
Proof.
  split_and!.
  - apply LoadState_None.
  - intros err s' Hload. pose proof Hload as Hload'.
    apply LoadState_Some in Hload
      as [[-> _]|(-> & data & st & _ & _ & _ & ->)]; [by split_and!|].
    cbn. split_and!; try done.
    + intros k [t Ht]. rewrite copy_if_lookup.
      destruct (omap id (psTokens st) !! k) as [t'|]; [|by eexists].
      destruct (unexpired _ _ _); by eexists.
    + intros d [v Hv]. rewrite (copy_if_lookup (targets _)).
      destruct (psDeviceTokens st !! d) as [v'|]; [|by eexists].
      destruct (targets _ _ _); by eexists.
  - intros ->. unfold LoadState. by destruct (decide _).
  - intros Hp. unfold LoadState. by rewrite decide_True.
Qed.

(** ** Properties of the handlers *)

(** *** Bytes and strings *)

Lemma string_of_list_ascii_app (a b : list ascii) :
  string_of_list_ascii (a ++ b)
  = string_of_list_ascii a +:+ string_of_list_ascii b.
Proof.
  induction a as [|c a IH]; [done|].
  simpl. unfold String.append in *. by rewrite IH.
Qed.

Lemma list_ascii_of_string_app (a b : string) :
  list_ascii_of_string (a +:+ b)
  = list_ascii_of_string a ++ list_ascii_of_string b.
Proof.
  induction a as [|c a IH]; [done|].
  simpl. unfold String.append in *. by rewrite IH.
Qed.

Lemma length_list_ascii_of_string (a : string) :
  length (list_ascii_of_string a) = String.length a.
Proof. induction a as [|c a IH]; cbn; [done | by rewrite IH]. Qed.

Lemma index_bytes_notin (c : ascii) (l : list ascii) :
  c ∉ l → index_bytes c l = -1.
Proof.
  induction l as [|a l IH]; cbn; [done|].
  intros [Hne Hl]%not_elem_of_cons. rewrite decide_False by done.
  by rewrite IH.
Qed.

Lemma index_bytes_app (c : ascii) (pre post : list ascii) :
  c ∉ pre → index_bytes c (pre ++ c :: post) = Z.of_nat (length pre).
Proof.
  induction pre as [|a pre IH]; cbn.
  - intros _. by rewrite decide_True.
  - intros [Hne Hl]%not_elem_of_cons. rewrite decide_False by done.
    rewrite IH by done.
    destruct (Z.of_nat (length pre) <? 0) eqn:E; [apply Z.ltb_lt in E|]; lia.
Qed.

Lemma index_bytes_spec (c : ascii) (l : list ascii) :
  ((c ∉ l) ∧ index_bytes c l = -1)
  ∨ ∃ pre post, l = pre ++ c :: post ∧ (c ∉ pre)
                ∧ index_bytes c l = Z.of_nat (length pre).
Proof.
  induction l as [|a l IH].
  - left. split; [apply not_elem_of_nil | done].
  - destruct (decide (a = c)) as [->|Hne].
    + right. exists [], l. split_and!; [done | apply not_elem_of_nil |].
      cbn. by rewrite decide_True.
    + destruct IH as [[Hl Hi]|(pre & post & -> & Hpre & Hi)].
      * left. split; [by apply not_elem_of_cons|].
        cbn. rewrite decide_False by done. by rewrite Hi.
      * right. exists (a :: pre), post.
        split_and!; [done | by apply not_elem_of_cons |].
        apply (index_bytes_app c (a :: pre)). by apply not_elem_of_cons.
Qed.

Lemma last_index_bytes_notin (c : ascii) (l : list ascii) :
  c ∉ l → last_index_bytes c l = -1.
Proof.
  induction l as [|a l IH]; cbn; [done|].
  intros [Hne Hl]%not_elem_of_cons. rewrite IH by done. cbn.
  by rewrite decide_False.
Qed.

Lemma last_index_bytes_app (c : ascii) (pre post : list ascii) :
  c ∉ post → last_index_bytes c (pre ++ c :: post) = Z.of_nat (length pre).
Proof.
  intros Hpost. induction pre as [|a pre IH]; cbn.
  - rewrite last_index_bytes_notin by done. cbn. by rewrite decide_True.
  - rewrite IH.
    destruct (0 <=? Z.of_nat (length pre)) eqn:E; [|apply Z.leb_gt in E]; lia.
Qed.

Lemma last_index_bytes_spec (c : ascii) (l : list ascii) :
  ((c ∉ l) ∧ last_index_bytes c l = -1)
  ∨ ∃ pre post, l = pre ++ c :: post ∧ (c ∉ post)
                ∧ last_index_bytes c l = Z.of_nat (length pre).
Proof.
  induction l as [|a l IH].
  - left. split; [apply not_elem_of_nil | done].
  - destruct IH as [[Hl Hi]|(pre & post & -> & Hpost & Hi)].
    + destruct (decide (a = c)) as [->|Hne].
      * right. exists [], l. split_and!; [done | done |].
        by apply (last_index_bytes_app c []).
      * left. split; [by apply not_elem_of_cons|].
        apply last_index_bytes_notin. by apply not_elem_of_cons.
    + right. exists (a :: pre), post. split_and!; [done | done |].
      by apply (last_index_bytes_app c (a :: pre)).
Qed.

Lemma split_bytes_notin (c : ascii) (l : list ascii) :
  c ∉ l → split_bytes c l = [l].
Proof.
  induction l as [|a l IH]; cbn; [done|].
  intros [Hne Hl]%not_elem_of_cons. rewrite decide_False by done.
  by rewrite IH.
Qed.

Lemma split_bytes_app (c : ascii) (pre post : list ascii) :
  c ∉ pre → split_bytes c (pre ++ c :: post) = pre :: split_bytes c post.
Proof.
  induction pre as [|a pre IH]; cbn.
  - intros _. by rewrite decide_True.
  - intros [Hne Hl]%not_elem_of_cons. rewrite decide_False by done.
    by rewrite IH.
Qed.

Lemma length_split_bytes (c : ascii) (l : list ascii) :
  length (split_bytes c l) = S (length (filter (λ a, a = c) l)).
Proof.
  induction l as [|a l IH]; [done|].
  rewrite filter_cons. cbn [split_bytes].
  destruct (decide (a = c)) as [->|Hne]; cbn; [by rewrite IH|].
  destruct (split_bytes c l) as [|part parts]; cbn in *; [done | lia].
Qed.

(** X16: [extractToken] takes the token from the Authorization header exactly
    when the header has a single space and the part before it lower-cases to
    "bearer"; the token is then the part after the space, which may be empty,
    and the query parameter is not consulted.  With any other header (empty,
    no space, several spaces, another scheme) it returns the query
    parameter. *)
Theorem extractToken_header (strings_ToLower : string → string)
    (r : Request) :
  (length (filter (λ a, a = " "%char) (list_ascii_of_string (Authorization r)))
     ≠ 1%nat →
   extractToken strings_ToLower r = QueryToken r)
  ∧ (∀ scheme token,
       " "%char ∉ list_ascii_of_string scheme →
       " "%char ∉ list_ascii_of_string token →
       Authorization r = scheme +:+ " " +:+ token →
       extractToken strings_ToLower r
       = if decide (strings_ToLower scheme = "bearer") then token
         else QueryToken r).
Proof.
  unfold extractToken, Split. split.
  - intros Hcount. destruct (decide (Authorization r ≠ "")); [|done].
    pose proof (length_split_bytes " "
                  (list_ascii_of_string (Authorization r))) as Hlen.
    destruct (split_bytes " " (list_ascii_of_string (Authorization r)))
      as [|p1 [|p2 [|p3 ps]]]; cbn in *; try done. lia.
  - intros scheme token Hs Ht ->.
    rewrite decide_True by (by destruct scheme).
    rewrite list_ascii_of_string_app.
    change (list_ascii_of_string (" " +:+ token))
      with (" "%char :: list_ascii_of_string token).
    rewrite split_bytes_app, split_bytes_notin by done. cbn.
    rewrite !string_of_list_ascii_of_string.
    by destruct (decide (strings_ToLower scheme = "bearer")).
Qed.

(** *** The loopback test *)

Lemma slice_Some (a : string) (lo hi : Z) :
  0 ≤ lo → lo ≤ hi → hi ≤ Z.of_nat (String.length a) →
  slice a lo hi
  = Some (string_of_list_ascii
            (take (Z.to_nat (hi - lo))
               (drop (Z.to_nat lo) (list_ascii_of_string a)))).
Proof.
  intros H1 H2 H3. unfold slice.
  apply Z.leb_le in H1, H2, H3. by rewrite H1, H2, H3.
Qed.

(** The host that [isLocalRequest] compares, when the forwarding header is
    empty. *)
Lemma isLocalRequest_host (r : Request) :
  XForwardedFor r = "" →
  ∃ host,
    isLocalRequest r
    = Some (bool_decide (host ∈ ["127.0.0.1"; "::1"; "localhost"]))
    ∧ (RemoteAddr r = host
       ∨ (∃ port, RemoteAddr r = host +:+ ":" +:+ port
                  ∧ (":"%char ∉ list_ascii_of_string port)
                  ∧ HasPrefix (RemoteAddr r) "[" = false)
       ∨ (∃ rest, RemoteAddr r = "[" +:+ host +:+ "]" +:+ rest
                  ∧ ("]"%char ∉ list_ascii_of_string host)
                  ∧ (":"%char ∈ list_ascii_of_string (RemoteAddr r)))).
Proof.
  intros Hx. unfold isLocalRequest.
  destruct (decide (XForwardedFor r ≠ "")) as [Hne|_]; [done|].
  unfold LastIndex, Index.
  set (addr := RemoteAddr r).
  pose proof (string_of_list_ascii_of_string addr) as Haddr.
  destruct (last_index_bytes_spec ":" (list_ascii_of_string addr))
    as [[Hno ->]|(pre & post & Hl & Hpost & ->)].
  { destruct (decide (-1 ≠ -1)) as [Hne|_]; [done|]. cbn.
    exists addr. split; [done | by left]. }
  destruct (decide (Z.of_nat (length pre) ≠ -1)) as [_|Hne]; [|lia].
  assert (Hcolon : ":"%char ∈ list_ascii_of_string addr).
  { rewrite Hl. apply elem_of_app. right. by left. }
  destruct (HasPrefix addr "[") eqn:Hpre.
  - destruct (index_bytes_spec "]" (list_ascii_of_string addr))
      as [[Hno ->]|(pre' & post' & Hl' & Hpre' & ->)].
    { rewrite decide_False by (intros H; by apply H). cbn.
    exists addr. split; [done | by left]. }
    rewrite decide_True by lia.
    destruct pre' as [|a0 pre'].
    { exfalso. destruct addr as [|a rest]; [done|]. cbn in Hpre, Hl'.
      injection Hl' as -> _. by apply bool_decide_eq_true in Hpre. }
    assert (a0 = "["%char) as ->.
    { destruct addr as [|a rest]; [done|]. cbn in Hpre, Hl'.
      injection Hl' as -> _. by apply bool_decide_eq_true in Hpre. }
    rewrite slice_Some;
      [| lia | cbn [length]; lia
       | rewrite <- length_list_ascii_of_string, Hl', length_app; cbn; lia].
    assert (Hhost :
      take (Z.to_nat (Z.of_nat (length ("["%char :: pre')) - 1))
        (drop (Z.to_nat 1) (list_ascii_of_string addr)) = pre').
    { rewrite Hl'.
      replace (Z.to_nat (Z.of_nat (length ("["%char :: pre')) - 1))
        with (length pre') by (cbn [length]; lia).
      change (drop (Z.to_nat 1) (("["%char :: pre') ++ "]"%char :: post'))
        with (pre' ++ "]"%char :: post').
      by rewrite take_app_length. }
    rewrite Hhost. cbn.
    exists (string_of_list_ascii pre'). split; [done|].
    right; right. exists (string_of_list_ascii post'). split_and!; [| |done].
    + rewrite <- Haddr, Hl'. cbn. f_equal.
      by rewrite string_of_list_ascii_app.
    + rewrite list_ascii_of_string_of_list_ascii.
      by apply not_elem_of_cons in Hpre' as [_ ?].
  - rewrite slice_Some;
      [| lia | lia
       | rewrite <- length_list_ascii_of_string, Hl, length_app; cbn; lia].
    assert (Hhost :
      take (Z.to_nat (Z.of_nat (length pre) - 0))
        (drop (Z.to_nat 0) (list_ascii_of_string addr)) = pre).
    { rewrite Hl, Z.sub_0_r, Nat2Z.id. change (Z.to_nat 0) with 0%nat.
      by rewrite drop_0, take_app_length. }
    rewrite Hhost. cbn.
    exists (string_of_list_ascii pre). split; [done|].
    right; left. exists (string_of_list_ascii post). split_and!; [| |done].
    + rewrite <- Haddr, Hl. by rewrite string_of_list_ascii_app.
    + by rewrite list_ascii_of_string_of_list_ascii.
Qed.

Lemma isLocalRequest_total (r : Request) : ∃ b, isLocalRequest r = Some b.
Proof.
  destruct (decide (XForwardedFor r = "")) as [Hx|Hx].
  - destruct (isLocalRequest_host r Hx) as (host & -> & _). by eexists.
  - unfold isLocalRequest. rewrite decide_True by done. by eexists.
Qed.

(** X17: [isLocalRequest] never panics, answers false to every request that
    carries an X-Forwarded-For header, and answers true only when the remote
    address is one of 127.0.0.1, ::1 and localhost, alone, followed by a colon
    and a port, or between brackets at the start of the address; it answers
    true to each of these names followed by a colon and a port, and to every
    address that starts with [::1]. *)
Theorem isLocalRequest_loopback (r : Request) :
  (∃ b, isLocalRequest r = Some b)
  ∧ (XForwardedFor r ≠ "" → isLocalRequest r = Some false)
  ∧ (isLocalRequest r = Some true →
     XForwardedFor r = ""
     ∧ ∃ host, host ∈ ["127.0.0.1"; "::1"; "localhost"]
               ∧ (RemoteAddr r = host
                  ∨ (∃ port, RemoteAddr r = host +:+ ":" +:+ port)
                  ∨ (∃ rest, RemoteAddr r = "[" +:+ host +:+ "]" +:+ rest)))
  ∧ (XForwardedFor r = "" →
     ∀ host port, host ∈ ["127.0.0.1"; "::1"; "localhost"] →
                  ":"%char ∉ list_ascii_of_string port →
                  RemoteAddr r = host +:+ ":" +:+ port →
                  isLocalRequest r = Some true)
  ∧ (XForwardedFor r = "" →
     ∀ rest, RemoteAddr r = "[::1]" +:+ rest → isLocalRequest r = Some true).
Proof.
  split_and!.
  - apply isLocalRequest_total.
  - intros Hx. unfold isLocalRequest. by rewrite decide_True.
  - intros Htrue.
    destruct (decide (XForwardedFor r = "")) as [Hx|Hx].
    + split; [done|].
      destruct (isLocalRequest_host r Hx) as (host & E & Hshape).
      rewrite E in Htrue. injection Htrue as Hin%bool_decide_eq_true.
      exists host. split; [done|].
      destruct Hshape as [?|[(port & ? & _)|(rest & ? & _)]];
        [by left | right; left; by exists port | right; right; by exists rest].
    + unfold isLocalRequest in Htrue. by rewrite decide_True in Htrue.
  - intros Hx host port Hhost Hport Haddr.
    unfold isLocalRequest.
    destruct (decide (XForwardedFor r ≠ "")) as [Hne|_]; [done|].
    unfold LastIndex. rewrite Haddr, list_ascii_of_string_app.
    change (list_ascii_of_string (":" +:+ port))
      with (":"%char :: list_ascii_of_string port).
    rewrite last_index_bytes_app by done.
    destruct (decide (Z.of_nat (length (list_ascii_of_string host)) ≠ -1))
      as [_|Hne]; [|lia].
    assert (Hpre : HasPrefix (host +:+ ":" +:+ port) "[" = false).
    { repeat (apply elem_of_cons in Hhost as [->|Hhost]; [done|]).
      by apply elem_of_nil in Hhost. }
    rewrite Hpre, slice_Some;
      [| lia | lia
       | rewrite <- length_list_ascii_of_string, list_ascii_of_string_app,
           length_app; lia].
    rewrite list_ascii_of_string_app, Z.sub_0_r, Nat2Z.id.
    change (Z.to_nat 0) with 0%nat.
    rewrite drop_0, take_app_length, string_of_list_ascii_of_string. cbn.
    by rewrite bool_decide_true.
  - intros Hx rest Haddr.
    unfold isLocalRequest.
    destruct (decide (XForwardedFor r ≠ "")) as [Hne|_]; [done|].
    unfold LastIndex, Index. rewrite Haddr.
    destruct (last_index_bytes_spec ":" (list_ascii_of_string ("[::1]" +:+ rest)))
      as [[Hno _]|(pre & post & _ & _ & ->)].
    { destruct Hno. cbn. right; left. }
    destruct (decide (Z.of_nat (length pre) ≠ -1)) as [_|Hne]; [|lia].
    change (list_ascii_of_string ("[::1]" +:+ rest))
      with (list_ascii_of_string "[::1" ++ "]"%char :: list_ascii_of_string rest).
    rewrite index_bytes_app.
    + change (Z.of_nat (length (list_ascii_of_string "[::1"))) with 4.
      change (HasPrefix ("[::1]" +:+ rest) "[") with true. cbv iota.
      destruct (decide (4 ≠ -1)) as [_|Hne]; [|lia].
      rewrite slice_Some;
        [| lia | lia
         | change (String.length ("[::1]" +:+ rest))
             with (5 + String.length rest)%nat; lia].
      change (list_ascii_of_string ("[::1]" +:+ rest))
        with ("["%char :: ":"%char :: ":"%char :: "1"%char :: "]"%char
              :: list_ascii_of_string rest).
      change (Z.to_nat (4 - 1)) with 3%nat. change (Z.to_nat 1) with 1%nat.
      reflexivity.
    + cbn. intros H. repeat (apply elem_of_cons in H as [?|H]; [done|]).
      by apply elem_of_nil in H.
Qed.

(** *** The gate in front of the API *)

(** X18: [AuthenticateMiddleware] passes every OPTIONS request to the next
    handler without touching the store.  Any other request reaches the next
    handler exactly when [extractToken] finds a non-empty token that is stored
    with an expiry not before the clock reading; it is otherwise answered with
    status 401, and without a token the store is left as it was.
    [HandleStatus], whatever the method, answers 200 exactly when
    [extractToken] finds such a token, and 401 otherwise, without touching the
    store when there is no token.  So among the requests that are not OPTIONS,
    [HandleStatus] answers 200 to exactly those that pass the gate, and leaves
    the store the gate leaves. *)
Theorem middleware_gate (strings_ToLower : string → string) (s : Service)
    (r : Request) (now_check now_used : Z) :
  (Method r = "OPTIONS" →
   AuthenticateMiddleware strings_ToLower s r now_check now_used = (Next, s))
  ∧ (Method r ≠ "OPTIONS" →
     ((AuthenticateMiddleware strings_ToLower s r now_check now_used).1 = Next ↔
      extractToken strings_ToLower r ≠ ""
      ∧ ∃ t, tokens s !! extractToken strings_ToLower r = Some t
             ∧ now_check ≤ ExpiresAt t)
     ∧ ((AuthenticateMiddleware strings_ToLower s r now_check now_used).1 = Next
        ∨ ∃ msg, (AuthenticateMiddleware strings_ToLower s r now_check now_used).1
                 = Answer (mkResponse 401 (ErrorMessage msg)))
     ∧ (extractToken strings_ToLower r = "" →
        (AuthenticateMiddleware strings_ToLower s r now_check now_used).2 = s))
  ∧ (StatusCode (HandleStatus strings_ToLower s r now_check now_used).1 = 200 ↔
     extractToken strings_ToLower r ≠ ""
     ∧ ∃ t, tokens s !! extractToken strings_ToLower r = Some t
            ∧ now_check ≤ ExpiresAt t)
  ∧ (StatusCode (HandleStatus strings_ToLower s r now_check now_used).1 = 200
     ∨ StatusCode (HandleStatus strings_ToLower s r now_check now_used).1 = 401)
  ∧ (extractToken strings_ToLower r = "" →
     HandleStatus strings_ToLower s r now_check now_used
     = (mkResponse 401 NoBody, s))
  ∧ (Method r ≠ "OPTIONS" →
     (StatusCode (HandleStatus strings_ToLower s r now_check now_used).1 = 200 ↔
      (AuthenticateMiddleware strings_ToLower s r now_check now_used).1 = Next)
     ∧ (HandleStatus strings_ToLower s r now_check now_used).2
       = (AuthenticateMiddleware strings_ToLower s r now_check now_used).2).
Proof.
  assert (Hstatus :
    (StatusCode (HandleStatus strings_ToLower s r now_check now_used).1 = 200 ↔
     extractToken strings_ToLower r ≠ ""
     ∧ ∃ t, tokens s !! extractToken strings_ToLower r = Some t
            ∧ now_check ≤ ExpiresAt t)
    ∧ (StatusCode (HandleStatus strings_ToLower s r now_check now_used).1 = 200
       ∨ StatusCode (HandleStatus strings_ToLower s r now_check now_used).1
         = 401)
    ∧ (extractToken strings_ToLower r = "" →
       HandleStatus strings_ToLower s r now_check now_used
       = (mkResponse 401 NoBody, s))).
  { unfold HandleStatus.
    destruct (decide (extractToken strings_ToLower r = "")) as [He|He].
    { split_and!; [|by right|done]. split; [done | by intros [? _]]. }
    unfold ValidateToken, After.
    destruct (tokens s !! extractToken strings_ToLower r) as [t|] eqn:Ht.
    - destruct (ExpiresAt t <? now_check) eqn:E; cbn.
      + apply Z.ltb_lt in E. split_and!; [|by right|done].
        split; [done|]. intros (_ & t' & [= <-] & Hle). lia.
      + apply Z.ltb_ge in E. split_and!; [|by left|done].
        split; [|done]. intros _. split; [done|]. by exists t.
    - cbn. split_and!; [|by right|done].
      split; [done|]. by intros (_ & t' & [=] & _). }
  assert (Hgate : Method r ≠ "OPTIONS" →
    ((AuthenticateMiddleware strings_ToLower s r now_check now_used).1 = Next ↔
     extractToken strings_ToLower r ≠ ""
     ∧ ∃ t, tokens s !! extractToken strings_ToLower r = Some t
            ∧ now_check ≤ ExpiresAt t)
    ∧ ((AuthenticateMiddleware strings_ToLower s r now_check now_used).1 = Next
       ∨ ∃ msg,
           (AuthenticateMiddleware strings_ToLower s r now_check now_used).1
           = Answer (mkResponse 401 (ErrorMessage msg)))
    ∧ (extractToken strings_ToLower r = "" →
       (AuthenticateMiddleware strings_ToLower s r now_check now_used).2 = s)
    ∧ (HandleStatus strings_ToLower s r now_check now_used).2
      = (AuthenticateMiddleware strings_ToLower s r now_check now_used).2).
  { intros Hm. unfold AuthenticateMiddleware, HandleStatus.
    rewrite decide_False by done.
    destruct (decide (extractToken strings_ToLower r = "")) as [He|He].
    { split_and!; try done; [|right; by eexists].
      split; [done | by intros [? _]]. }
    unfold ValidateToken, After.
    destruct (tokens s !! extractToken strings_ToLower r) as [t|] eqn:Ht.
    - destruct (ExpiresAt t <? now_check) eqn:E; cbn.
      + apply Z.ltb_lt in E. split_and!; try done; [|right; by eexists].
        split; [done|]. intros (_ & t' & [= <-] & Hle). lia.
      + apply Z.ltb_ge in E. split_and!; try done; [|by left].
        split; [|done]. intros _. split; [done|]. by exists t.
    - cbn. split_and!; try done; [|right; by eexists].
      split; [done|]. by intros (_ & t' & [=] & _). }
  destruct Hstatus as (Hs1 & Hs2 & Hs3).
  split_and!; [| |exact Hs1|exact Hs2|exact Hs3|].
  - intros Hm. unfold AuthenticateMiddleware. by rewrite decide_True.
  - intros Hm. destruct (Hgate Hm) as (H1 & H2 & H3 & _). by split_and!.
  - intros Hm. destruct (Hgate Hm) as (H1 & _ & _ & H4).
    split; [|exact H4]. by rewrite Hs1, H1.
Qed.

(** *** Pairing over HTTP *)

(** X19: [HandlePair] answers 200, 400, 401 or 405.  With 200 the request was
    a POST whose body named a non-empty code, stored, unused and unexpired,
    and a non-empty device; the body of the answer is a credential of that
    device, stored under its value and indexed for the device, and the code
    is gone from the table.  With 400 or 405 the store is untouched.  With 401
    the body carries the error of the service, and unless that is the failure
    of the random source no credential and no index row has changed. *)
Theorem HandlePair_answers (s : Service) (r : Request)
    (body : option (string * string * string)) (env : RedeemEnv) :
  StatusCode (HandlePair s r body env).1 ∈ [200; 400; 401; 405]
  ∧ (StatusCode (HandlePair s r body env).1 = 200 →
     Method r = "POST"
     ∧ ∃ code deviceID deviceName pc tok,
         body = Some (code, deviceID, deviceName)
         ∧ code ≠ "" ∧ deviceID ≠ ""
         ∧ pairingCodes s !! code = Some pc
         ∧ Used pc = false ∧ now_expiry env ≤ pcExpiresAt pc
         ∧ ResponseBody (HandlePair s r body env).1 = TokenBody tok
         ∧ DeviceID tok = deviceID
         ∧ tokens (HandlePair s r body env).2 !! Value tok = Some tok
         ∧ deviceTokens (HandlePair s r body env).2 !! deviceID
           = Some (Value tok)
         ∧ pairingCodes (HandlePair s r body env).2 !! code = None)
  ∧ (StatusCode (HandlePair s r body env).1 = 400
     ∨ StatusCode (HandlePair s r body env).1 = 405 →
     (HandlePair s r body env).2 = s)
  ∧ (Method r ≠ "POST" → HandlePair s r body env = (mkResponse 405 NoBody, s))
  ∧ (StatusCode (HandlePair s r body env).1 = 401 →
     ∃ e, ResponseBody (HandlePair s r body env).1 = ErrorOf e
          ∧ (e = Errorf "failed to generate token" ErrRand
             ∨ ((e = ErrInvalidCode ∨ e = ErrCodeExpired
                 ∨ e = ErrCodeAlreadyUsed)
                ∧ tokens (HandlePair s r body env).2 = tokens s
                ∧ deviceTokens (HandlePair s r body env).2 = deviceTokens s))).
Proof.
  unfold HandlePair.
  destruct (decide (Method r ≠ "POST")) as [Hm|Hm].
  { cbn. split_and!; try done. (rewrite !elem_of_cons; auto 10). }
  apply dec_stable in Hm.
  destruct body as [[[code deviceID] deviceName]|]; cbn;
    [|split_and!; try done; (rewrite !elem_of_cons; auto 10)].
  destruct (decide (code = "" ∨ deviceID = "")) as [He|He]; cbn;
    [split_and!; try done; (rewrite !elem_of_cons; auto 10)|].
  assert (Hc : code ≠ "") by (intros ->; apply He; by left).
  assert (Hd : deviceID ≠ "") by (intros ->; apply He; by right).
  destruct (ValidatePairingCode s code deviceID deviceName env) as [[tok|e] s']
    eqn:Hrun; cbn.
  - split_and!; try done; [(rewrite !elem_of_cons; auto 10)| |by intros [|]].
    intros _. split; [done|].
    pose proof (ValidatePairingCode_Ok_inv _ _ _ _ _ _ _ Hrun)
      as (_ & Hdev & Htok & Hidx & Hcodes).
    destruct (ValidatePairingCode_cases s code deviceID deviceName env)
      as [[_ E]|[(pc & _ & _ & E)|[(pc & _ & _ & _ & E)
         |(pc & Hpc & Hexp & Hu & _)]]];
      [rewrite E in Hrun; done.. |].
    exists code, deviceID, deviceName, pc, tok.
    split_and!; try done.
    + rewrite Htok. apply lookup_insert_eq.
    + rewrite Hidx. apply lookup_insert_eq.
    + rewrite Hcodes. apply lookup_delete_eq.
  - split_and!; try done; [(rewrite !elem_of_cons; auto 10)|by intros [|]|].
    intros _. exists e. split; [done|].
    destruct (ValidatePairingCode_cases s code deviceID deviceName env)
      as [[_ E]|[(pc & _ & _ & E)|[(pc & _ & _ & _ & E)
         |(pc & _ & _ & _ & E)]]];
      rewrite E in Hrun.
    + injection Hrun as <- <-. right. split_and!; auto.
    + injection Hrun as <- <-. right. split_and!; auto.
    + injection Hrun as <- <-. right. split_and!; auto.
    + destruct (rand_token env) as [f|] eqn:Hrand.
      * by rewrite createTokenLocked_Some in Hrun.
      * rewrite createTokenLocked_None in Hrun. injection Hrun as <- <-.
        by left.
Qed.

(** *** Issuing a code over HTTP *)

Lemma unique_code_loop_Panic (codes : gmap string PairingCode) (len : Z)
    (code : string) (retries : list draw) :
  0 ≤ len ≤ maxAlloc → unique_code_loop codes len code retries ≠ Panic.
Proof.
  intros Hlen%make_in_range. revert code.
  induction retries as [|d retries IH]; intros code; cbn.
  - by destruct (codes !! code).
  - destruct (codes !! code); [|done].
    rewrite generateNumericCode_eq, Hlen.
    destruct d as [g|]; [apply IH | done].
Qed.

Lemma GeneratePairingCode_Panic (s : Service) (now_purge now : Z)
    (d : draw) (retries : list draw) :
  GeneratePairingCode s now_purge now d retries = Panic
  ↔ codeLength s < 0 ∨ maxAlloc < codeLength s.
Proof.
  unfold GeneratePairingCode. cbn. rewrite generateNumericCode_eq.
  destruct (_ || _) eqn:E.
  - apply make_out_of_range in E. by split.
  - apply make_in_range in E. split; [|lia]. intros H. exfalso.
    destruct d as [g|]; [|done].
    pose proof (unique_code_loop_Panic (purge_codes now_purge (pairingCodes s))
                  (codeLength s)
                  (string_of_list_ascii
                     (digit_char <$> (g <$> seq 0 (Z.to_nat (codeLength s)))))
                  retries E) as Hno.
    destruct (unique_code_loop _ _ _ retries) as [[c|e]| |]; done.
Qed.

(** X20: [HandleGenerateCode] issues a code only to a POST request that
    [isLocalRequest] accepts: any other method is answered 405 and any other
    origin 403, among them every request that carries an X-Forwarded-For
    header, and the store is then untouched.  An answer 200 carries a code
    that is stored under its own name, unused, of the configured length, made
    of digits, and expiring one code TTL after the clock reading; an answer
    500 leaves the credentials and the index as they were.  The handler
    panics exactly when the request is an accepted POST and the configured
    code length is one that [make] refuses, negative or above the allocation
    limit. *)
Theorem HandleGenerateCode_local (s : Service) (r : Request)
    (now_purge now : Z) (d : draw) (retries : list draw) :
  (Method r ≠ "POST" →
   HandleGenerateCode s r now_purge now d retries
   = Done (mkResponse 405 NoBody, s))
  ∧ (Method r = "POST" → isLocalRequest r = Some false →
     HandleGenerateCode s r now_purge now d retries
     = Done (mkResponse 403 NoBody, s))
  ∧ (Method r = "POST" → XForwardedFor r ≠ "" →
     HandleGenerateCode s r now_purge now d retries
     = Done (mkResponse 403 NoBody, s))
  ∧ (HandleGenerateCode s r now_purge now d retries = Panic ↔
     Method r = "POST" ∧ isLocalRequest r = Some true
     ∧ (codeLength s < 0 ∨ maxAlloc < codeLength s))
  ∧ (∀ resp s',
       HandleGenerateCode s r now_purge now d retries = Done (resp, s') →
       StatusCode resp ∈ [200; 403; 405; 500]
       ∧ tokens s' = tokens s ∧ deviceTokens s' = deviceTokens s
       ∧ (StatusCode resp = 200 →
          Method r = "POST" ∧ isLocalRequest r = Some true
          ∧ XForwardedFor r = ""
          ∧ ∃ pc, ResponseBody resp = CodeBody pc
                  ∧ pairingCodes s' !! Code pc = Some pc
                  ∧ Used pc = false
                  ∧ pcExpiresAt pc = now + codeExpiry s
                  ∧ Z.of_nat (String.length (Code pc)) = codeLength s
                  ∧ is_numeric (Code pc) = true)).
Proof.
  unfold HandleGenerateCode.
  destruct (decide (Method r ≠ "POST")) as [Hm|Hm].
  { split_and!; try done.
    - by split; [|intros [? _]].
    - intros resp s' [= <- <-]. split_and!; try done. (rewrite !elem_of_cons; auto 10). }
  apply dec_stable in Hm.
  destruct (isLocalRequest_total r) as [b Hb]. rewrite Hb.
  assert (Hx : XForwardedFor r ≠ "" → b = false).
  { intros Hx. unfold isLocalRequest in Hb. rewrite decide_True in Hb by done.
    by injection Hb as <-. }
  destruct b.
  - assert (Hx' : XForwardedFor r = "").
    { destruct (decide (XForwardedFor r = "")) as [|Hne]; [done|].
      by specialize (Hx Hne). }
    pose proof (GeneratePairingCode_Panic s now_purge now d retries) as Hpanic.
    destruct (GeneratePairingCode s now_purge now d retries)
      as [[[pc|e] s1]| |] eqn:Hrun.
    + split_and!; try done.
      * split; [done|]. intros (_ & _ & Hlen). apply Hpanic in Hlen as [=].
      * intros resp s' [= <- <-]. revert Hrun.
        unfold GeneratePairingCode. cbn.
        destruct (generateNumericCode (codeLength s) d) as [[code|e]|] eqn:Hgen;
          [|done..].
        destruct (unique_code_loop _ _ code retries) as [[c|e]| |] eqn:Hloop;
          [|done..].
        intros [= <- <-]. cbn.
        apply unique_code_loop_Ok in Hloop as [Hfree Hsrc].
        assert (Hc : Z.of_nat (String.length c) = codeLength s
                     ∧ is_numeric c = true).
        { destruct Hsrc as [->|(d' & _ & Hd')];
            by eapply generateNumericCode_Ok. }
        destruct Hc as [Hclen Hcnum].
        split_and!; try done; [(rewrite !elem_of_cons; auto 10)|]. intros _.
        split_and!; try done. eexists. split; [done|]. cbn.
        split_and!; try done. apply lookup_insert_eq.
    + split_and!; try done.
      * split; [done|]. intros (_ & _ & Hlen). apply Hpanic in Hlen as [=].
      * intros resp s' [= <- <-]. revert Hrun.
        unfold GeneratePairingCode. cbn.
        destruct (generateNumericCode (codeLength s) d) as [[code|e']|];
          [|by intros [= <- <-]; split_and!; try done; (rewrite !elem_of_cons; auto 10)|done].
        destruct (unique_code_loop _ _ code retries) as [[c|e']| |];
          [done| |done..].
        intros [= <- <-]. split_and!; try done. (rewrite !elem_of_cons; auto 10).
    + split_and!; try done. split; [|done]. intros _.
      split_and!; [done..|]. by apply Hpanic.
    + split_and!; try done. split; [done|]. intros (_ & _ & Hlen). apply Hpanic in Hlen as [=].
  - split_and!; try done.
    + by split; [|intros (_ & ? & _)].
    + intros resp s' [= <- <-]. split_and!; try done. (rewrite !elem_of_cons; auto 10).
Qed.

End Auth.

Arguments ReadNotExist {Data}.
Arguments ReadFails {Data}.
Arguments ReadData {Data} data.
Arguments SaveState {Data} json_MarshalIndent s env.
Arguments LoadState {Data} json_Unmarshal s file now.
Arguments NewService {Data} json_Unmarshal config file now.

(** ** The operations on the sample stores *)

Lemma store_consistent (max : Z) (path : string) : consistent (store max path).
Proof.
  unfold consistent; cbn.
  exact (maps_consistent_issue _ _ "tokB" "dev-2" tokB
           (maps_consistent_issue ∅ ∅ "tokA" "dev-1" tokA
              maps_consistent_empty eq_refl eq_refl)
           eq_refl eq_refl).
Qed.

Lemma store_range (max : Z) (path : string) :
  [("tokA", tokA); ("tokB", tokB)] ≡ₚ map_to_list (tokens (store max path)).
Proof. vm_compute. first [reflexivity | apply perm_swap]. Qed.

(** [ValidateToken] on the sample store: an unknown value, an expired
    credential, a valid one. *)
Lemma ValidateToken_examples :
  (ValidateToken (store 5 "") "nope" 100 100).1 = Err ErrInvalidToken
  ∧ (ValidateToken (store 5 "") "tokA" 1001 1001).1 = Err ErrTokenExpired
  ∧ tokens (ValidateToken (store 5 "") "tokA" 1001 1001).2 !! "tokA" = None
  ∧ deviceTokens (ValidateToken (store 5 "") "tokA" 1001 1001).2 !! "dev-1" = None
  ∧ (ValidateToken (store 5 "") "tokA" 1000 1000).1
    = Ok (set_LastUsedAt 1000 tokA).
Proof. by vm_compute. Qed.

(** Witness of C8: the first draw gives the stored code 048213, the retry
    gives 777777, which is returned. *)
Lemma GeneratePairingCode_code_witness :
  ∃ pc s',
    GeneratePairingCode sample_maxAlloc (store 5 "") 100 100
      (Some (bytes_of [0; 4; 8; 2; 1; 3]%nat))
      [Some (bytes_of [7; 7; 7; 7; 7; 7]%nat)] = Done (Ok pc, s')
    ∧ Code pc = "777777"
    ∧ Z.of_nat (String.length (Code pc)) = 6
    ∧ is_numeric (Code pc) = true
    ∧ purge_codes 100 (pairingCodes (store 5 "")) !! Code pc = None.
Proof.
  exists (mkPairingCode "777777" 100 400 "" false),
    (set_pairingCodes (insert "777777" (mkPairingCode "777777" 100 400 "" false))
       (cleanupExpiredCodesLocked (store 5 "") 100)).
  assert (Hrun :
    GeneratePairingCode sample_maxAlloc (store 5 "") 100 100
      (Some (bytes_of [0; 4; 8; 2; 1; 3]%nat))
      [Some (bytes_of [7; 7; 7; 7; 7; 7]%nat)]
    = Done (Ok (mkPairingCode "777777" 100 400 "" false),
            set_pairingCodes
              (insert "777777" (mkPairingCode "777777" 100 400 "" false))
              (cleanupExpiredCodesLocked (store 5 "") 100)))
    by (vm_compute; reflexivity).
  destruct (GeneratePairingCode_code _ _ _ _ _ _ _ _ Hrun)
    as (Hlen & Hnum & Hfree & _ & _).
  split_and!; [exact Hrun | reflexivity | exact Hlen | exact Hnum |].
  destruct (purge_codes 100 (pairingCodes (store 5 "")) !! "777777")
    as [pc'|] eqn:E; [|reflexivity].
  by destruct (Hfree _ _ E).
Defined.

(** Witness of C9: the code expires at 300 and is redeemed at 301. *)
Lemma redeem_expired_code_witness :
  pcExpiresAt code1 < 301
  ∧ ∃ s',
      ValidatePairingCode sample_digest sample_encode (store 5 "")
        "048213" "dev-3" "Tablet"
        (redeem_env 301 [("tokA", tokA); ("tokB", tokB)] (Some (bytes_of [])))
      = (Err ErrCodeExpired, s')
      ∧ pairingCodes s' !! "048213" = None
      ∧ ValidatePairingCode sample_digest sample_encode s'
          "048213" "dev-3" "Tablet"
          (redeem_env 302 [("tokA", tokA); ("tokB", tokB)] (Some (bytes_of [])))
        = (Err ErrInvalidCode, s').
Proof.
  split; [by vm_compute|].
  destruct (redeem_expired_code sample_digest sample_encode (store 5 "")
              "048213" "dev-3" "Tablet"
              (redeem_env 301 [("tokA", tokA); ("tokB", tokB)]
                 (Some (bytes_of [])))
              code1 eq_refl)
    as (s' & Hrun & _ & Hgone & _ & _ & Hagain); [by vm_compute|].
  exists s'. split_and!; [exact Hrun | exact Hgone | apply Hagain].
Defined.

(** Counterexample to C2 as stated: after a successful redemption the second
    redemption of the same code fails with [ErrInvalidCode], not with
    [ErrCodeAlreadyUsed]. *)
Lemma redeem_twice_counterexample :
  let env := redeem_env 100 [("tokA", tokA); ("tokB", tokB)]
               (Some (bytes_of [])) in
  let first :=
    ValidatePairingCode sample_digest sample_encode (store 5 "")
      "048213" "dev-3" "Tablet" env in
  let second :=
    ValidatePairingCode sample_digest sample_encode first.2
      "048213" "dev-3" "Tablet" env in
  pairingCodes (store 5 "") !! "048213" = Some code1
  ∧ Used code1 = false
  ∧ now_expiry env ≤ pcExpiresAt code1
  ∧ (∃ tok, first.1 = Ok tok ∧ DeviceID tok = "dev-3")
  ∧ second.1 = Err ErrInvalidCode
  ∧ second.1 ≠ Err ErrCodeAlreadyUsed.
Proof.
  cbv zeta.
  split_and!; [reflexivity | reflexivity | by vm_compute | | by vm_compute..].
  eexists. split; [vm_compute; reflexivity | reflexivity].
Qed.

(** Witness of C2 (amended). *)
Lemma redeem_once_witness :
  ∃ tok s',
    ValidatePairingCode sample_digest sample_encode (store 5 "")
      "048213" "dev-3" "Tablet"
      (redeem_env 100 [("tokA", tokA); ("tokB", tokB)] (Some (bytes_of [])))
    = (Ok tok, s')
    ∧ DeviceID tok = "dev-3"
    ∧ Permissions tok = ["read"; "write"; "execute"]
    ∧ ValidatePairingCode sample_digest sample_encode s'
        "048213" "dev-3" "Tablet"
        (redeem_env 100 [("tokA", tokA); ("tokB", tokB)] (Some (bytes_of [])))
      = (Err ErrInvalidCode, s').
Proof.
  destruct (redeem_once sample_digest sample_encode (store 5 "")
              "048213" "dev-3" "Tablet"
              (redeem_env 100 [("tokA", tokA); ("tokB", tokB)]
                 (Some (bytes_of [])))
              code1 (bytes_of []) eq_refl eq_refl)
    as (tok & s' & Hrun & Hdev & _ & Hperm & _ & _ & _ & Hagain);
    [by vm_compute | reflexivity |].
  exists tok, s'. split_and!; [exact Hrun | exact Hdev | exact Hperm | apply Hagain].
Defined.

(** Witness of C4: at a ceiling of two with two bound devices, a third device
    redeems; tokA, last used at 10, is evicted and tokB, last used at 20,
    stays. *)
Lemma redeem_at_capacity_witness :
  maxActiveDevices (store 2 "")
    ≤ activeCount (λ _, 100) (tokens (store 2 ""))
  ∧ ∃ tok s',
      ValidatePairingCode sample_digest sample_encode (store 2 "")
        "048213" "dev-3" "Tablet"
        (redeem_env 100 [("tokA", tokA); ("tokB", tokB)] (Some (λ _, "a"%char)))
      = (Ok tok, s')
      ∧ DeviceID tok = "dev-3"
      ∧ tokens s' !! "tokA" = None
      ∧ tokens s' !! "tokB" = Some tokB
      ∧ ValidateToken s' "tokA" 200 200 = (Err ErrInvalidToken, s').
Proof.
  split; [by vm_compute|].
  destruct (redeem_at_capacity sample_digest sample_encode (store 2 "")
              "048213" "dev-3" "Tablet"
              (redeem_env 100 [("tokA", tokA); ("tokB", tokB)]
                 (Some (λ _, "a"%char)))
              code1 sample_value eq_refl eq_refl)
    as (victim & vt & tok & s' & Hrun & _ & Hdev & Hvt & Hmin & _ & Hgone
        & Hkept & Hinvalid);
    [by vm_compute | apply store_range | by vm_compute | by vm_compute
    | reflexivity | reflexivity | reflexivity |].
  assert (Hvictim : victim = "tokA").
  { destruct (decide (victim = "tokA")) as [|Hne]; [done|]. exfalso.
    specialize (Hmin "tokA" tokA eq_refl).
    destruct (decide (victim = "tokB")) as [->|Hne'].
    - assert (Some tokB = Some vt) as [= <-] by exact Hvt.
      by vm_compute in Hmin.
    - unfold store in Hvt; cbn in Hvt.
      by rewrite lookup_insert_ne, lookup_singleton_ne in Hvt. }
  subst victim. exists tok, s'.
  split_and!; [exact Hrun | exact Hdev | exact Hgone | | apply Hinvalid].
  by apply Hkept.
Defined.

(** Witness of C3: the store is exactly at its ceiling of two and the
    redeeming device dev-2 is bound, so that counting after the supersession
    would find one credential; and yet the credential of dev-1 is evicted, and
    a single credential is left. *)
Lemma redeem_bound_at_capacity_witness :
  activeCount (λ _, 100) (tokens (store 2 "")) = maxActiveDevices (store 2 "")
  ∧ deviceTokens (store 2 "") !! "dev-2" = Some "tokB"
  ∧ activeCount (λ _, 100) (delete "tokB" (tokens (store 2 "")))
    < maxActiveDevices (store 2 "")
  ∧ tokens (store 2 "") !! "tokA" = Some tokA
  ∧ DeviceID tokA = "dev-1"
  ∧ ∃ tok s',
      ValidatePairingCode sample_digest sample_encode (store 2 "")
        "048213" "dev-2" "Galaxy"
        (redeem_env 100 [("tokA", tokA); ("tokB", tokB)] (Some (λ _, "a"%char)))
      = (Ok tok, s')
      ∧ DeviceID tok = "dev-2"
      ∧ tokens s' !! "tokA" = None
      ∧ tokens s' !! "tokB" = None
      ∧ size (tokens s') = 1%nat.
Proof.
  split_and!; [by vm_compute..|].
  destruct (redeem_bound_at_capacity sample_digest sample_encode (store 2 "")
              "048213" "dev-2" "Galaxy"
              (redeem_env 100 [("tokA", tokA); ("tokB", tokB)]
                 (Some (λ _, "a"%char)))
              code1 sample_value "tokB" (store_consistent 2 "") eq_refl eq_refl)
    as (victim & vt & tok & s' & Hrun & _ & Hdev & _);
    [by vm_compute | apply store_range | by vm_compute | reflexivity
    | reflexivity | reflexivity |].
  exists tok, s'. split; [exact Hrun|]. split; [exact Hdev|].
  assert (s' = (ValidatePairingCode sample_digest sample_encode (store 2 "")
                  "048213" "dev-2" "Galaxy"
                  (redeem_env 100 [("tokA", tokA); ("tokB", tokB)]
                     (Some (λ _, "a"%char)))).2) as ->
    by (by rewrite Hrun).
  split_and!; vm_compute; reflexivity.
Defined.

(** Counterexample to C10 as stated: dev-1 is bound and alone at a ceiling of
    one; the capacity step evicts its credential with its index row, and when
    the random source then fails the index does not name the deleted value. *)
Lemma redeem_generation_failure_counterexample :
  let r :=
    ValidatePairingCode sample_digest sample_encode store1
      "048213" "dev-1" "Pixel 7" (redeem_env 100 [("tokA", tokA)] None) in
  deviceTokens store1 !! "dev-1" = Some "tokA"
  ∧ tokens store1 !! "tokA" = Some tokA
  ∧ (∃ e, r.1 = Err e)
  ∧ pairingCodes r.2 !! "048213" = None
  ∧ tokens r.2 !! "tokA" = None
  ∧ deviceTokens r.2 !! "dev-1" = None.
Proof.
  cbv zeta. split_and!; try (by vm_compute).
  eexists. vm_compute. reflexivity.
Qed.

(** Witness of C10 (amended): at a ceiling of two, dev-2 redeems and the
    random source fails.  The code is gone, tokA of dev-1 has been evicted,
    tokB of dev-2 has been deleted, and the index still maps dev-2 to tokB. *)
Lemma redeem_generation_failure_witness :
  ∃ e s',
    ValidatePairingCode sample_digest sample_encode (store 2 "")
      "048213" "dev-2" "Galaxy"
      (redeem_env 100 [("tokA", tokA); ("tokB", tokB)] None)
    = (Err e, s')
    ∧ pairingCodes s' !! "048213" = None
    ∧ tokens s' !! "tokA" = None
    ∧ tokens s' !! "tokB" = None
    ∧ deviceTokens s' !! "dev-2" = Some "tokB".
Proof.
  destruct (redeem_generation_failure sample_digest sample_encode (store 2 "")
              "048213" "dev-2" "Galaxy"
              (redeem_env 100 [("tokA", tokA); ("tokB", tokB)] None)
              code1 eq_refl eq_refl)
    as (e & s' & Hrun & _ & Hcode & _ & Hbound & _);
    [by vm_compute | reflexivity |].
  destruct (Hbound "tokB" ltac:(by vm_compute)) as (Htoks & Hgone & Hrow).
  exists e, s'.
  split_and!; [exact Hrun | exact Hcode | | exact Hgone | exact Hrow].
  rewrite Htoks. by vm_compute.
Defined.

(** Witness of C7: the failing input.  The store is consistent, dev-1 is
    bound to tokA, the code 048213 is valid at time 100, and the random source
    fails. *)
Lemma redeem_failure_breaks_index_witness :
  consistent (store 5 "")
  ∧ ∃ e s',
      ValidatePairingCode sample_digest sample_encode (store 5 "")
        "048213" "dev-1" "Pixel 7"
        (redeem_env 100 [("tokA", tokA); ("tokB", tokB)] None)
      = (Err e, s')
      ∧ deviceTokens s' !! "dev-1" = Some "tokA"
      ∧ tokens s' !! "tokA" = None
      ∧ ¬ index_consistent s'.
Proof.
  split; [apply store_consistent|].
  apply (redeem_failure_breaks_index sample_digest sample_encode (store 5 "")
           "048213" "dev-1" "Pixel 7"
           (redeem_env 100 [("tokA", tokA); ("tokB", tokB)] None)
           code1 "tokA" (store_consistent 5 "") eq_refl eq_refl);
    [by vm_compute | by vm_compute | reflexivity | reflexivity].
Defined.

(** Counterexample to C5 as stated: a service configured with a TTL of 100
    starts from a document holding a credential that expires at 1000; a
    refresh at time 500, when the expiry is still in the future, moves the
    expiry back to 600. *)
Lemma RefreshToken_counterexample :
  ∃ s,
    NewService (Data := persistedState) Ok
      (mkServiceConfig 0 0 100 0 "auth.json") (ReadData saved_doc) 0 = Some s
    ∧ tokens s !! "tokA" = Some tokA
    ∧ 500 < ExpiresAt tokA
    ∧ (RefreshToken s "tokA" 500 500 500).1
      = Ok (set_LastUsedAt 500 (set_ExpiresAt 600 tokA))
    ∧ ExpiresAt (set_LastUsedAt 500 (set_ExpiresAt 600 tokA)) < ExpiresAt tokA.
Proof.
  eexists. split; [vm_compute; reflexivity|]. split_and!; by vm_compute.
Qed.

(** Counterexample to C6 as stated: tokA expires at 1000, so its expiry is in
    the future at the save at time 500, and the load at time 2000 does not
    restore it. *)
Lemma save_load_counterexample :
  ∃ data,
    SaveState (Data := persistedState) Ok (store 5 "auth.json")
      (mkSaveEnv 500 500 false false) = (None, Some data)
    ∧ tokens (store 5 "auth.json") !! "tokA" = Some tokA
    ∧ 500 < ExpiresAt tokA
    ∧ ∃ s', LoadState Ok fresh_store (ReadData data) 2000 = Some (None, s')
            ∧ tokens s' !! "tokA" = None.
Proof.
  eexists. split; [reflexivity|]. split_and!; [by vm_compute..|].
  eexists. split; [vm_compute; reflexivity|]. by vm_compute.
Qed.

(** Witness of C6 (amended): saved at 500 and loaded at 600, both credentials
    and both index rows are restored. *)
Lemma save_load_roundtrip_witness :
  ∃ data s',
    SaveState (Data := persistedState) Ok (store 5 "auth.json")
      (mkSaveEnv 500 500 false false) = (None, Some data)
    ∧ LoadState Ok fresh_store (ReadData data) 600 = Some (None, s')
    ∧ tokens s' !! "tokA" = Some tokA
    ∧ tokens s' !! "tokB" = Some tokB
    ∧ deviceTokens s' !! "dev-1" = Some "tokA".
Proof.
  eexists.
  destruct (save_load_roundtrip persistedState Ok Ok
              (store 5 "auth.json") fresh_store
              (mkSaveEnv 500 500 false false) _ 600
              (λ st d (H : Ok st = Ok d), eq_sym H) eq_refl)
    as (s' & Hload & Htoks & Hdevs & _); [done | reflexivity | reflexivity |].
  exists s'. split; [reflexivity|]. split; [exact Hload|].
  assert (HA : tokens s' !! "tokA" = Some tokA)
    by (apply Htoks; split_and!; by vm_compute).
  assert (HB : tokens s' !! "tokB" = Some tokB)
    by (apply Htoks; split_and!; by vm_compute).
  split_and!; [exact HA | exact HB |].
  apply Hdevs. split; [by vm_compute | by rewrite HA].
Defined.

(** ** The further properties on the sample stores *)

(** Witness of X2: the device dev-1 of the sample store is revoked; the
    credential of dev-2 stays. *)
Lemma RevokeDevice_unbinds_witness :
  consistent (store 5 "")
  ∧ (RevokeDevice (store 5 "") "dev-1").1 = true
  ∧ tokens (RevokeDevice (store 5 "") "dev-1").2 !! "tokB" = Some tokB
  ∧ deviceTokens (RevokeDevice (store 5 "") "dev-1").2 !! "dev-1" = None
  ∧ consistent (RevokeDevice (store 5 "") "dev-1").2.
Proof.
  split; [apply store_consistent|].
  destruct (RevokeDevice_unbinds (store 5 "") "dev-1" (store_consistent 5 ""))
    as (Hret & _ & Hkeep & Hrow & Hc).
  split_and!; [| | exact Hrow | exact Hc].
  - apply Hret. exists "tokA", tokA. split; reflexivity.
  - apply Hkeep; [reflexivity | discriminate].
Defined.

(** Witness of X3: an expired validation and a tick of the sweeper on the
    sample store. *)
Lemma operations_keep_index_witness :
  consistent (store 5 "")
  ∧ consistent (ValidateToken (store 5 "") "tokA" 1001 1001).2
  ∧ consistent (cleanupExpired (store 5 "") 2000).
Proof.
  split; [apply store_consistent|].
  destruct (operations_keep_index sample_maxAlloc (store 5 "")
              (store_consistent 5 ""))
    as (Hv & _ & _ & _ & Hs & _).
  split; [apply Hv | apply Hs].
Defined.

(** Witness of X4: a tick at time 500 keeps the credential tokA, which
    expires at 1000, and its index row, and purges the code that expired at
    300. *)
Lemma cleanupExpired_sweeps_witness :
  consistent (store 5 "")
  ∧ tokens (cleanupExpired (store 5 "") 500) !! "tokA" = Some tokA
  ∧ deviceTokens (cleanupExpired (store 5 "") 500) !! "dev-1" = Some "tokA"
  ∧ pairingCodes (cleanupExpired (store 5 "") 500) !! "048213" = None.
Proof.
  split; [apply store_consistent|].
  destruct (cleanupExpired_sweeps (store 5 "") 500 (store_consistent 5 ""))
    as (Htok & Hcodes & Hidx & _).
  assert (HA : tokens (cleanupExpired (store 5 "") 500) !! "tokA" = Some tokA).
  { apply Htok. split; [reflexivity|]. change (500 ≤ 1000). lia. }
  split_and!; [exact HA | |].
  - apply Hidx. split; [reflexivity|]. exists tokA. exact HA.
  - destruct (pairingCodes (cleanupExpired (store 5 "") 500) !! "048213")
      as [pc|] eqn:E; [|reflexivity].
    apply Hcodes in E as (Hpc & Hle & _). exfalso.
    assert (Some code1 = Some pc) as [= <-] by exact Hpc.
    change (500 ≤ 300) in Hle. lia.
Defined.

(** Witness of X5: a tick at 500, a validation at 600. *)
Lemma sweep_then_validate_witness :
  500 ≤ 600
  ∧ (ValidateToken (cleanupExpired (store 5 "") 500) "tokA" 600 600).1
    = Ok (set_LastUsedAt 600 tokA).
Proof.
  split; [lia|].
  apply (sweep_then_validate (store 5 "") 500 "tokA" 600 600); [lia|].
  reflexivity.
Defined.

(** Witness of X6: two validations, then a third one of tokA at time 300. *)
Lemma validation_keeps_expiry_witness :
  (ValidateToken
     (validate_calls (store 5 "") [("tokA", 100, 100); ("tokB", 200, 200)])
     "tokA" 300 300).1 = Ok (set_LastUsedAt 300 tokA)
  ∧ ∃ t, tokens (store 5 "") !! "tokA" = Some t
         ∧ ExpiresAt (set_LastUsedAt 300 tokA) = ExpiresAt t
         ∧ 300 ≤ ExpiresAt t.
Proof.
  assert (Hrun :
    (ValidateToken
       (validate_calls (store 5 "") [("tokA", 100, 100); ("tokB", 200, 200)])
       "tokA" 300 300).1 = Ok (set_LastUsedAt 300 tokA))
    by (vm_compute; reflexivity).
  split; [exact Hrun|].
  destruct (validation_keeps_expiry _ _ _ _ _ _ Hrun)
    as (t & Ht & He & Hle & _).
  by exists t.
Defined.

(** Witness of X7: both credentials of the sample store are listed at time
    100. *)
Lemma ListActiveDevices_lists_witness :
  [("tokA", tokA); ("tokB", tokB)] ≡ₚ map_to_list (tokens (store 5 ""))
  ∧ ListActiveDevices 100 [("tokA", tokA); ("tokB", tokB)] = [tokA; tokB]
  ∧ length (ListActiveDevices 100 [("tokA", tokA); ("tokB", tokB)])
    = size (filter (λ kv, 100 < ExpiresAt kv.2) (tokens (store 5 ""))).
Proof.
  split; [apply store_range|]. split; [reflexivity|].
  destruct (ListActiveDevices_lists (store 5 "") 100 _ (store_range 5 ""))
    as (_ & _ & Hlen).
  exact Hlen.
Defined.

(** Witness of X8: the pending code of the sample store is shown at time
    100. *)
Lemma GetActivePairingCode_shows_witness :
  [("048213", code1)] ≡ₚ map_to_list (pairingCodes (store 5 ""))
  ∧ GetActivePairingCode 100 [("048213", code1)] = Some code1
  ∧ (∃ k, pairingCodes (store 5 "") !! k = Some code1)
  ∧ Used code1 = false ∧ 100 < pcExpiresAt code1.
Proof.
  assert (Hperm : [("048213", code1)]
                  ≡ₚ map_to_list (pairingCodes (store 5 "")))
    by (vm_compute; reflexivity).
  split; [exact Hperm|]. split; [reflexivity|].
  destruct (GetActivePairingCode_shows sample_digest sample_encode
              (store 5 "") 100 _ Hperm) as [_ Hsome].
  destruct (Hsome code1 eq_refl) as (Hk & Hu & Hl & _).
  by split_and!.
Defined.

(** Witness of X9: the code, expired at 300, is redeemed at 301. *)
Lemma redeem_error_harmless_witness :
  ∃ s',
    ValidatePairingCode sample_digest sample_encode (store 5 "")
      "048213" "dev-3" "Tablet"
      (redeem_env 301 [("tokA", tokA); ("tokB", tokB)] (Some (bytes_of [])))
    = (Err ErrCodeExpired, s')
    ∧ tokens s' = tokens (store 5 "")
    ∧ deviceTokens s' = deviceTokens (store 5 "").
Proof.
  exists (set_pairingCodes (delete "048213") (store 5 "")).
  assert (Hrun :
    ValidatePairingCode sample_digest sample_encode (store 5 "")
      "048213" "dev-3" "Tablet"
      (redeem_env 301 [("tokA", tokA); ("tokB", tokB)] (Some (bytes_of [])))
    = (Err ErrCodeExpired, set_pairingCodes (delete "048213") (store 5 "")))
    by (vm_compute; reflexivity).
  split; [exact Hrun|].
  destruct (redeem_error_harmless _ _ _ _ _ _ _ _ _ Hrun)
    as [[He _]|(_ & Ht & Hd & _)]; [discriminate He | by split].
Defined.

(** Witness of X10: the bound device dev-1 pairs again. *)
Lemma redeem_supersedes_witness :
  ∃ tok s',
    ValidatePairingCode sample_digest sample_encode (store 5 "")
      "048213" "dev-1" "Pixel 7"
      (redeem_env 100 [("tokA", tokA); ("tokB", tokB)] (Some (λ _, "a"%char)))
    = (Ok tok, s')
    ∧ tokens (store 5 "") !! Value tok = None
    ∧ consistent s'
    ∧ deviceTokens s' !! "dev-1" = Some (Value tok)
    ∧ tokens s' !! "tokA" = None.
Proof.
  exists (mkToken sample_value "dev-1" "Pixel 7" 100 1100 100 permissions),
    (ValidatePairingCode sample_digest sample_encode (store 5 "")
       "048213" "dev-1" "Pixel 7"
       (redeem_env 100 [("tokA", tokA); ("tokB", tokB)]
          (Some (λ _, "a"%char)))).2.
  assert (Hrun :
    ValidatePairingCode sample_digest sample_encode (store 5 "")
      "048213" "dev-1" "Pixel 7"
      (redeem_env 100 [("tokA", tokA); ("tokB", tokB)] (Some (λ _, "a"%char)))
    = (Ok (mkToken sample_value "dev-1" "Pixel 7" 100 1100 100 permissions),
       (ValidatePairingCode sample_digest sample_encode (store 5 "")
          "048213" "dev-1" "Pixel 7"
          (redeem_env 100 [("tokA", tokA); ("tokB", tokB)]
             (Some (λ _, "a"%char)))).2))
    by (vm_compute; reflexivity).
  assert (Hfresh : tokens (store 5 "") !! sample_value = None)
    by (vm_compute; reflexivity).
  destruct (redeem_supersedes sample_digest sample_encode (store 5 "")
              "048213" "dev-1" "Pixel 7"
              (redeem_env 100 [("tokA", tokA); ("tokB", tokB)]
                 (Some (λ _, "a"%char)))
              _ _ (store_consistent 5 "") (store_range 5 "") Hrun Hfresh)
    as (Hc & Hrow & _ & _ & Hold).
  destruct (Hold "tokA" eq_refl) as [Hgone _].
  by split_and!.
Defined.

(** Witness of X11: at a ceiling of two with two bound devices, a third
    device pairs, and two credentials are stored afterwards. *)
Lemma redeem_keeps_ceiling_witness :
  ∃ tok s',
    ValidatePairingCode sample_digest sample_encode (store 2 "")
      "048213" "dev-3" "Tablet"
      (redeem_env 100 [("tokA", tokA); ("tokB", tokB)] (Some (λ _, "a"%char)))
    = (Ok tok, s')
    ∧ Z.of_nat (size (tokens (store 2 ""))) ≤ maxActiveDevices (store 2 "")
    ∧ (size (tokens s') ≤ size (tokens (store 2 "")) + 1)%nat
    ∧ Z.of_nat (size (tokens s')) ≤ 2.
Proof.
  exists (mkToken sample_value "dev-3" "Tablet" 100 1100 100 permissions),
    (ValidatePairingCode sample_digest sample_encode (store 2 "")
       "048213" "dev-3" "Tablet"
       (redeem_env 100 [("tokA", tokA); ("tokB", tokB)]
          (Some (λ _, "a"%char)))).2.
  assert (Hrun :
    ValidatePairingCode sample_digest sample_encode (store 2 "")
      "048213" "dev-3" "Tablet"
      (redeem_env 100 [("tokA", tokA); ("tokB", tokB)] (Some (λ _, "a"%char)))
    = (Ok (mkToken sample_value "dev-3" "Tablet" 100 1100 100 permissions),
       (ValidatePairingCode sample_digest sample_encode (store 2 "")
          "048213" "dev-3" "Tablet"
          (redeem_env 100 [("tokA", tokA); ("tokB", tokB)]
             (Some (λ _, "a"%char)))).2))
    by (vm_compute; reflexivity).
  assert (Hsize : Z.of_nat (size (tokens (store 2 "")))
                  ≤ maxActiveDevices (store 2 ""))
    by (by vm_compute).
  destruct (redeem_keeps_ceiling sample_digest sample_encode (store 2 "")
              "048213" "dev-3" "Tablet"
              (redeem_env 100 [("tokA", tokA); ("tokB", tokB)]
                 (Some (λ _, "a"%char)))
              _ _ (store_range 2 "") Hrun)
    as [Hle Hceil].
  split_and!; [exact Hrun | exact Hsize | exact Hle |].
  apply Hceil; [by vm_compute | exact Hsize |].
  intros k t Hk. unfold store in Hk; cbn in Hk.
  apply lookup_insert_Some in Hk as [[_ <-]|[_ Hk]]; [by vm_compute|].
  apply lookup_singleton_Some in Hk as [_ <-]. by vm_compute.
Defined.

(** Witness of X12: the code 777777 issued to the sample store at time 100 is
    redeemed at time 200. *)
Lemma issued_code_redeems_witness :
  ∃ pc s1 tok s2,
    GeneratePairingCode sample_maxAlloc (store 5 "") 100 100
      (Some (bytes_of [0; 4; 8; 2; 1; 3]%nat))
      [Some (bytes_of [7; 7; 7; 7; 7; 7]%nat)] = Done (Ok pc, s1)
    ∧ Code pc = "777777"
    ∧ ValidatePairingCode sample_digest sample_encode s1
        "777777" "dev-3" "Tablet"
        (redeem_env 200 [("tokA", tokA); ("tokB", tokB)] (Some (λ _, "a"%char)))
      = (Ok tok, s2)
    ∧ DeviceID tok = "dev-3"
    ∧ pairingCodes s2 !! "777777" = None.
Proof.
  exists (mkPairingCode "777777" 100 400 "" false),
    (set_pairingCodes (insert "777777" (mkPairingCode "777777" 100 400 "" false))
       (cleanupExpiredCodesLocked (store 5 "") 100)).
  assert (Hrun :
    GeneratePairingCode sample_maxAlloc (store 5 "") 100 100
      (Some (bytes_of [0; 4; 8; 2; 1; 3]%nat))
      [Some (bytes_of [7; 7; 7; 7; 7; 7]%nat)]
    = Done (Ok (mkPairingCode "777777" 100 400 "" false),
            set_pairingCodes
              (insert "777777" (mkPairingCode "777777" 100 400 "" false))
              (cleanupExpiredCodesLocked (store 5 "") 100)))
    by (vm_compute; reflexivity).
  destruct (issued_code_redeems sample_maxAlloc sample_digest sample_encode
              _ _ _ _ _ _ _ Hrun)
    as (_ & _ & _ & _ & _ & _ & _ & Hredeem).
  destruct (Hredeem "dev-3" "Tablet"
              (redeem_env 200 [("tokA", tokA); ("tokB", tokB)]
                 (Some (λ _, "a"%char)))
              (λ _, "a"%char)) as (tok & s2 & Hok & Hdev & Hgone);
    [by vm_compute | reflexivity |].
  exists tok, s2. by split_and!.
Defined.

(** Witness of X14: the sample store is saved at time 500 and a service is
    started at time 600 on the document. *)
Lemma restart_consistent_witness :
  ∃ data s',
    SaveState (Data := persistedState) Ok (store 5 "auth.json")
      (mkSaveEnv 500 500 false false) = (None, Some data)
    ∧ NewService Ok (mkServiceConfig 0 0 0 0 "auth.json") (ReadData data) 600
      = Some s'
    ∧ consistent s'.
Proof.
  eexists.
  destruct (restart_consistent persistedState Ok Ok
              (store 5 "auth.json") (mkSaveEnv 500 500 false false) _
              (mkServiceConfig 0 0 0 0 "auth.json") 600
              (λ st d (H : Ok st = Ok d), eq_sym H)
              (store_consistent 5 "auth.json") eq_refl)
    as (s' & Hnew & Hc & _).
  exists s'. split; [reflexivity|]. split; [exact Hnew | exact Hc].
Defined.
